(** * pdf_to.py: the element classifier and the hierarchy builder

    A shallow embedding of [PDFKnowledgeGraphV2] (src/pdf_to.py): the
    classifier [extract_structured_text_from_pdf] on an opened document, the
    whole of [build_knowledge_graph], what [visualize] computes for a node
    and the dictionary that [save_graph_json] writes.  Opening the document,
    the pyvis network, the files and [main] are input and output and are left
    out.

    Modelling conventions.
    - Python [str] values are Rocq [string]s, read as sequences of code points
      below 256.  On that range [str.isspace], the class [\s] of [re] and the
      characters removed by [str.strip] coincide ([is_space] below), and the
      class [\d] is the ten ASCII digits.
    - Font sizes are Python floats that the code only compares; they are
      modelled as rationals [Q] compared with [Qcompare], so NaN is excluded.
    - Page coordinates are Python floats that the code subtracts: they are
      binary64 floats ([PrimFloat]), with the subtraction, [abs] and the
      comparisons of IEEE 754, so the rounding of a difference, NaN and the
      infinities are as in Python.
    - [networkx.DiGraph] is a finite map from node identifiers to attribute
      records together with a finite set of directed edges.
    - [node_stack] is a Rocq list whose head is the top of the Python list
      ([node_stack[-1]]); [append] is cons, [pop] drops the head and
      [len] is [length].
    - Exceptions are explicit outcomes; the [while] loop of the parent
      selection runs on fuel and is proved never to exhaust it. *)

From Stdlib Require Import Floats.
From Stdlib Require Import QArith Qminmax Qabs Ascii Sorted.
From Stdlib Require String.
From stdpp Require Import gmap strings list fin_maps fin_sets.
Close Scope Q_scope.
Set Warnings "-clear-no-such-hyp".

(** ** Text *)

Definition chars (s : string) : list ascii := String.list_ascii_of_string s.
Definition text_of (l : list ascii) : string := String.string_of_list_ascii l.

(** [str.isspace] on code points below 256: TAB, LF, VT, FF, CR, the four
    separators FS GS RS US, SPACE, NEL and NBSP. *)
Definition is_space (c : ascii) : bool :=
  let n := nat_of_ascii c in
  ((9 <=? n) && (n <=? 13)) || ((28 <=? n) && (n <=? 32))
  || (n =? 133) || (n =? 160).

(** The class [\d]: a decimal digit. *)
Definition is_digit (c : ascii) : bool :=
  let n := nat_of_ascii c in (48 <=? n) && (n <=? 57).

Fixpoint startswith_chars (l prefix : list ascii) {struct prefix} : bool :=
  match prefix, l with
  | [], _ => true
  | _ :: _, [] => false
  | p :: prefix', c :: l' => Ascii.eqb c p && startswith_chars l' prefix'
  end.

(** [s.startswith(prefix)] *)
Definition startswith (s prefix : string) : bool :=
  startswith_chars (chars s) (chars prefix).

(** [s.endswith(suffix)] *)
Definition endswith (s suffix : string) : bool :=
  startswith_chars (rev (chars s)) (rev (chars suffix)).

Fixpoint lstrip_chars (l : list ascii) : list ascii :=
  match l with
  | c :: l' => if is_space c then lstrip_chars l' else l
  | [] => []
  end.

Definition rstrip_chars (l : list ascii) : list ascii :=
  rev (lstrip_chars (rev l)).

(** [s.strip()] *)
Definition strip (s : string) : string :=
  text_of (rstrip_chars (lstrip_chars (chars s))).

(** ** Regular expressions

    The fragment of [re] that the builder's pattern uses, matched with
    Brzozowski derivatives. *)

Inductive regex : Type :=
  | Void
  | Eps
  | Cls (p : ascii → bool)
  | Cat (r1 r2 : regex)
  | Alt (r1 r2 : regex)
  | Star (r : regex).

Fixpoint nullable (r : regex) : bool :=
  match r with
  | Void => false
  | Eps => true
  | Cls _ => false
  | Cat r1 r2 => nullable r1 && nullable r2
  | Alt r1 r2 => nullable r1 || nullable r2
  | Star _ => true
  end.

Fixpoint deriv (c : ascii) (r : regex) : regex :=
  match r with
  | Void => Void
  | Eps => Void
  | Cls p => if p c then Eps else Void
  | Cat r1 r2 =>
      if nullable r1 then Alt (Cat (deriv c r1) r2) (deriv c r2)
      else Cat (deriv c r1) r2
  | Alt r1 r2 => Alt (deriv c r1) (deriv c r2)
  | Star r1 => Cat (deriv c r1) (Star r1)
  end.

Fixpoint fullmatch_chars (r : regex) (l : list ascii) : bool :=
  match l with
  | [] => nullable r
  | c :: l' => fullmatch_chars (deriv c r) l'
  end.

(** [r+] *)
Definition Plus (r : regex) : regex := Cat r (Star r).

(** A [$] that closes a pattern: the end of the string, or the position
    just before a newline that ends the string. *)
Definition Dollar : regex := Alt Eps (Cls (Ascii.eqb "010"%char)).

(** The pattern [r'^\d+\.\s*$'].  [re.match] anchors the match at the start
    of the string, which is all that the leading [^] asks for. *)
Definition numbered_item : regex :=
  Cat (Plus (Cls is_digit))
      (Cat (Cls (Ascii.eqb "."%char)) (Cat (Star (Cls is_space)) Dollar)).

(** Truth value of [re.match(r'^\d+\.\s*$', text)]. *)
Definition re_match_numbered_item (text : string) : bool :=
  fullmatch_chars numbered_item (chars text).

(** The words of the specification for the same pattern: one or more
    digits, a period, and only whitespace afterwards. *)
Definition numbered_shape (text : string) : Prop :=
  ∃ ds ws : list ascii,
    ds ≠ [] ∧ Forall (λ c, is_digit c = true) ds
    ∧ Forall (λ c, is_space c = true) ws
    ∧ chars text = ds ++ "."%char :: ws.

(** The denotation of a regular expression, against which the derivative
    matcher is checked. *)
Inductive lang : regex → list ascii → Prop :=
  | lang_eps : lang Eps []
  | lang_cls p c : p c = true → lang (Cls p) [c]
  | lang_cat r1 r2 l1 l2 : lang r1 l1 → lang r2 l2 → lang (Cat r1 r2) (l1 ++ l2)
  | lang_alt_l r1 r2 l : lang r1 l → lang (Alt r1 r2) l
  | lang_alt_r r1 r2 l : lang r2 l → lang (Alt r1 r2) l
  | lang_star_nil r : lang (Star r) []
  | lang_star_app r l1 l2 :
      lang r l1 → lang (Star r) l2 → lang (Star r) (l1 ++ l2).

(** ** Numbers *)

Definition Qgtb (a b : Q) : bool :=
  match (a ?= b)%Q with Gt => true | _ => false end.
Definition Qltb (a b : Q) : bool :=
  match (a ?= b)%Q with Lt => true | _ => false end.
Definition Qeqb (a b : Q) : bool :=
  match (a ?= b)%Q with Eq => true | _ => false end.

(** ** Outcomes of partial code *)

Inductive outcome (A : Type) : Type :=
  | Returns (a : A)
  | KeyError
  | IndexError
  | OutOfFuel.
Arguments Returns {A} a.
Arguments KeyError {A}.
Arguments IndexError {A}.
Arguments OutOfFuel {A}.

Definition outcome_bind {A B : Type} (f : A → outcome B) (m : outcome A)
  : outcome B :=
  match m with
  | Returns a => f a
  | KeyError => KeyError
  | IndexError => IndexError
  | OutOfFuel => OutOfFuel
  end.

#[global] Instance outcome_mbind : MBind outcome := @outcome_bind.
#[global] Instance outcome_mret : MRet outcome := @Returns.

(** ** The data model *)

(** A classified line of text, as [extract_structured_text_from_pdf]
    appends it to [structured_text]. *)
Module Elem.
Record t : Type := mk {
  text : string;
  font : string;
  font_size : Q;
  is_bold : bool;
  is_underlined : bool;
  page : nat
}.
End Elem.

(** The attributes that [build_knowledge_graph] gives to every node. *)
Module Node.
Record t : Type := mk {
  level : nat;
  content : string;
  font_size : Q;
  is_underlined : bool
}.
End Node.

(** [networkx.DiGraph]: attributes by node, and the set of edges. *)
Record DiGraph : Type := mkDiGraph {
  nodes : gmap string Node.t;
  edges : gset (string * string)
}.

(** [self.graph = nx.DiGraph()] *)
Definition empty_graph : DiGraph := {| nodes := ∅; edges := ∅ |}.

(** [G.add_node(n, level=.., content=.., font_size=.., is_underlined=..)]:
    the four attributes of an existing node are overwritten. *)
Definition add_node (g : DiGraph) (n : string) (attrs : Node.t) : DiGraph :=
  {| nodes := <[n := attrs]> (nodes g); edges := edges g |}.

(** [G.add_edge(u, v)], called by the builder with both ends already nodes. *)
Definition add_edge (g : DiGraph) (u v : string) : DiGraph :=
  {| nodes := nodes g; edges := {[ (u, v) ]} ∪ edges g |}.

(** [G.in_degree(v)]: the number of edges that end in [v]. *)
Definition in_degree (g : DiGraph) (v : string) : nat :=
  size (filter (λ e : string * string, e.2 = v) (edges g)).

(** ** The hierarchy builder *)

Record State : Type := mkState {
  graph : DiGraph;
  current_node : string;
  node_stack : list string;
  first_bold_skipped : bool;
  nodes_added : nat
}.

(** [regular_font_size]: the loop that stops at the first non-bold element. *)
Fixpoint first_regular (elements : list Elem.t) : option Q :=
  match elements with
  | [] => None
  | elem :: elements' =>
      if negb (Elem.is_bold elem) then Some (Elem.font_size elem)
      else first_regular elements'
  end.

Definition regular_font_size (elements : list Elem.t) : Q :=
  match first_regular elements with
  | Some fs => fs
  | None => 8.0%Q
  end.

(** The value of [next_starts_with_colon] in iteration [i]. *)
Definition next_starts_with_colon (elements : list Elem.t) (i : nat) : bool :=
  if bool_decide (i < length elements - 1) then
    match elements !! (i + 1) with
    | Some next =>
        if negb (Elem.is_bold next) then startswith (Elem.text next) ":"
        else false
    | None => false
    end
  else false.

(** How one iteration of the [while] loop ends. *)
Inductive flow : Type := Break | Next.

(** [node_stack.pop()] *)
Definition pop (node_stack : list string) : outcome (list string) :=
  match node_stack with
  | [] => IndexError
  | _ :: node_stack' => Returns node_stack'
  end.

(** One iteration of the parent selection loop. *)
Definition while_body (g : DiGraph) (root : string) (font_size : Q)
    (is_underlined : bool) (node_stack : list string)
  : outcome (flow * list string) :=
  match node_stack with
  | [] => IndexError
  | candidate :: _ =>
      match nodes g !! candidate with
      | None => KeyError
      | Some candidate_attrs =>
          let candidate_fs := Node.font_size candidate_attrs in
          let candidate_underlined := Node.is_underlined candidate_attrs in
          if String.eqb candidate root || Qgtb candidate_fs font_size then
            Returns (Break, node_stack)
          else
            r ← (if Qeqb candidate_fs font_size then
                   if Bool.eqb candidate_underlined is_underlined then
                     s ← pop node_stack; Returns (Next, s)
                   else if candidate_underlined && negb is_underlined then
                     Returns (Break, node_stack)
                   else if negb candidate_underlined && is_underlined then
                     s ← pop node_stack; Returns (Next, s)
                   else Returns (Break, node_stack)
                 else Returns (Next, node_stack));
            match r with
            | (Break, node_stack) => Returns (Break, node_stack)
            | (Next, node_stack) =>
                node_stack ← (if Qltb candidate_fs font_size
                              then pop node_stack else Returns node_stack);
                match node_stack with
                | [] => Returns (Break, node_stack)
                | _ :: _ => Returns (Next, node_stack)
                end
            end
      end
  end.

(** [while len(node_stack) > 0: ...] *)
Fixpoint while_loop (fuel : nat) (g : DiGraph) (root : string) (font_size : Q)
    (is_underlined : bool) (node_stack : list string)
  : outcome (list string) :=
  match node_stack with
  | [] => Returns node_stack
  | _ :: _ =>
      match fuel with
      | 0 => OutOfFuel
      | S fuel' =>
          r ← while_body g root font_size is_underlined node_stack;
          match r with
          | (Break, node_stack') => Returns node_stack'
          | (Next, node_stack') =>
              while_loop fuel' g root font_size is_underlined node_stack'
          end
      end
  end.

(** The parent selection logic: the chosen [parent_node] and the stack that
    is left. *)
Definition select_parent (g : DiGraph) (root : string) (font_size : Q)
    (is_underlined : bool) (node_stack : list string)
  : outcome (string * list string) :=
  node_stack ← while_loop (S (length node_stack)) g root font_size
                 is_underlined node_stack;
  match node_stack with
  | [] => Returns (root, [root])
  | parent_node :: _ => Returns (parent_node, node_stack)
  end.

(** The end of the heading branch: the node is created or overwritten
    with [level = len(node_stack)], linked to its parent and pushed. *)
Definition push_heading (st : State) (elem : Elem.t) (parent_node : string)
    (node_stack : list string) : State :=
  let new_node_id := Elem.text elem in
  let g := add_node (graph st) new_node_id
             {| Node.level := length node_stack;
                Node.content := "";
                Node.font_size := Elem.font_size elem;
                Node.is_underlined := Elem.is_underlined elem |} in
  let g := add_edge g parent_node new_node_id in
  {| graph := g;
     current_node := new_node_id;
     node_stack := new_node_id :: node_stack;
     first_bold_skipped := first_bold_skipped st;
     nodes_added := nodes_added st + 1 |}.

(** The heading branch of the loop body. *)
Definition insert_heading (root : string) (st : State) (elem : Elem.t)
  : outcome State :=
  '(parent_node, node_stack) ←
     select_parent (graph st) root (Elem.font_size elem)
       (Elem.is_underlined elem) (node_stack st);
  Returns (push_heading st elem parent_node node_stack).

(** [self.graph.nodes[n]["content"] += " " + text] *)
Definition append_to (attrs : Node.t) (text : string) : Node.t :=
  {| Node.level := Node.level attrs;
     Node.content := Node.content attrs +:+ " " +:+ text;
     Node.font_size := Node.font_size attrs;
     Node.is_underlined := Node.is_underlined attrs |}.

(** The two content branches of the loop body. *)
Definition append_content (st : State) (text : string) : State :=
  match nodes (graph st) !! current_node st with
  | Some attrs =>
      {| graph := {| nodes := <[current_node st := append_to attrs text]>
                                (nodes (graph st));
                     edges := edges (graph st) |};
         current_node := current_node st;
         node_stack := node_stack st;
         first_bold_skipped := first_bold_skipped st;
         nodes_added := nodes_added st |}
  | None => st
  end.

(** [first_bold_skipped = True; continue] *)
Definition skip_title (st : State) : State :=
  {| graph := graph st;
     current_node := current_node st;
     node_stack := node_stack st;
     first_bold_skipped := true;
     nodes_added := nodes_added st |}.

(** The body of [for i, elem in enumerate(elements)]. *)
Definition loop_body (elements : list Elem.t) (root : string)
    (regular_font_size : Q) (st : State) (i : nat) (elem : Elem.t)
  : outcome State :=
  let text := Elem.text elem in
  let is_bold := Elem.is_bold elem in
  let font_size := Elem.font_size elem in
  let next_starts_with_colon := next_starts_with_colon elements i in
  if is_bold && negb (first_bold_skipped st) then
    Returns (skip_title st)
  else if re_match_numbered_item text then Returns st
  else if is_bold then
    let is_heading :=
      Qgtb font_size regular_font_size || endswith text ":"
      || next_starts_with_colon in
    if is_heading then insert_heading root st elem
    else Returns (append_content st text)
  else Returns (append_content st text).

Fixpoint for_loop (body : State → nat → Elem.t → outcome State) (i : nat)
    (rest : list Elem.t) (st : State) : outcome State :=
  match rest with
  | [] => Returns st
  | elem :: rest' => st' ← body st i elem; for_loop body (S i) rest' st'
  end.

(** The state with which the main loop starts. *)
Definition initial_state (self_graph : DiGraph) (root : string) : State :=
  {| graph := add_node self_graph root
                {| Node.level := 0; Node.content := "";
                   Node.font_size := 100; Node.is_underlined := false |};
     current_node := root;
     node_stack := [root];
     first_bold_skipped := false;
     nodes_added := 0 |}.

(** The main loop, run on the first [k] elements only. *)
Definition loop_upto (elements : list Elem.t) (root : string) (k : nat)
  : outcome State :=
  for_loop (loop_body elements root (regular_font_size elements)) 0
    (take k elements) (initial_state empty_graph root).

Definition placeholder : string := "(No description)".

(** The clean-up of one node after the main loop. *)
Definition clean (attrs : Node.t) : Node.t :=
  let content := strip (Node.content attrs) in
  {| Node.level := Node.level attrs;
     Node.content := if bool_decide (content = "") then placeholder
                     else content;
     Node.font_size := Node.font_size attrs;
     Node.is_underlined := Node.is_underlined attrs |}.

Definition clean_up (g : DiGraph) : DiGraph :=
  {| nodes := clean <$> nodes g; edges := edges g |}.

(** [build_knowledge_graph(elements, pdf_name)] on the graph [self_graph];
    [root] is the file name of [pdf_name] without its extension. *)
Definition build_knowledge_graph (self_graph : DiGraph)
    (elements : list Elem.t) (root : string) : outcome DiGraph :=
  st ← for_loop (loop_body elements root (regular_font_size elements)) 0
         elements (initial_state self_graph root);
  Returns (clean_up (graph st)).

(** The builder as [main] runs it: once, on a new [PDFKnowledgeGraphV2]. *)
Definition build (elements : list Elem.t) (root : string) : outcome DiGraph :=
  build_knowledge_graph empty_graph elements root.

(** ** The element classifier: underline detection *)

(** A [fitz.Rect]; its coordinates are Python floats. *)
Module Rect.
Record t : Type := mk { x0 : float; y0 : float; x1 : float; y1 : float }.
End Rect.

(** The tuple [span["bbox"]]: positions 0 to 3. *)
Module BBox.
Record t : Type := mk { b0 : float; b1 : float; b2 : float; b3 : float }.
End BBox.

(** An entry of a drawing's ["items"]: [("re", rect, ...)], or a line, a
    curve or a quad, whose tag is ["l"], ["c"] or ["qu"]. *)
Inductive Item : Type :=
  | Re (rect : Rect.t)
  | NotRe (tag : string).

(** A dictionary of [page.get_drawings()]. *)
Module Drawing.
Record t : Type := mk {
  type : option string;     (* d.get("type") *)
  items : list Item         (* d.get("items", []) *)
}.
End Drawing.

Module Span.
Record t : Type := mk {
  text : string;
  font : string;
  size : Q;
  bbox : BBox.t
}.
End Span.

(** [max(a, b)] of Python on sizes: the first argument wins a tie. *)
Definition py_max (a b : Q) : Q := if Qgtb b a then b else a.

(** [min(a, b)] and [max(a, b)] of Python on coordinates: the second
    argument is taken when [b < a], respectively [b > a], holds; both tests
    are false when an argument is NaN. *)
Definition float_min (a b : float) : float :=
  if PrimFloat.ltb b a then b else a.
Definition float_max (a b : float) : float :=
  if PrimFloat.ltb a b then b else a.

Section Classifier.

(** [rect.height], a property that PyMuPDF computes. *)
Variable height : Rect.t → float.

(** The rectangles kept in [underline_rects] for one page. *)
Definition underline_rects (drawings : list Drawing.t) : list Rect.t :=
  flat_map
    (λ d,
       if bool_decide (Drawing.type d = Some "f") then
         flat_map
           (λ item,
              match item with
              | Re rect => if PrimFloat.ltb (height rect) 5 then [rect]
                           else []
              | NotRe _ => []
              end)
           (Drawing.items d)
       else [])
    drawings.

(** [line_bbox]: the union of the spans' boxes, [None] without spans. *)
Definition line_bbox (spans : list Span.t) : option BBox.t :=
  match Span.bbox <$> spans with
  | [] => None
  | b :: bs =>
      Some {| BBox.b0 := foldl float_min (BBox.b0 b) (BBox.b0 <$> bs);
              BBox.b1 := foldl float_min (BBox.b1 b) (BBox.b1 <$> bs);
              BBox.b2 := foldl float_max (BBox.b2 b) (BBox.b2 <$> bs);
              BBox.b3 := foldl float_max (BBox.b3 b) (BBox.b3 <$> bs) |}
  end.

(** The test of the scanning loop on one rectangle: both differences are
    float subtractions, rounded to the nearest binary64 value before they
    are compared. *)
Definition lies_under (line_bbox : BBox.t) (rect : Rect.t) : bool :=
  let overlap :=
    PrimFloat.sub (float_min (BBox.b2 line_bbox) (Rect.x1 rect))
                  (float_max (BBox.b0 line_bbox) (Rect.x0 rect)) in
  PrimFloat.ltb 0 overlap
  && PrimFloat.ltb
       (PrimFloat.abs (PrimFloat.sub (Rect.y0 rect) (BBox.b3 line_bbox))) 5.

(** [for rect in underline_rects: ... break].  The result is the flag
    [is_underlined] and the binding of the loop variable [rect] when the
    loop is left; [bound] is its binding before the loop. *)
Fixpoint scan_rects (line_bbox : BBox.t) (rects : list Rect.t)
    (bound : option Rect.t) : bool * option Rect.t :=
  match rects with
  | [] => (false, bound)
  | rect :: rects' =>
      if lies_under line_bbox rect then (true, Some rect)
      else scan_rects line_bbox rects' (Some rect)
  end.

(** The underline heuristic for one line of a page; [bound] is the binding
    of [rect] that earlier iterations left. *)
Definition detect_underline (drawings : list Drawing.t)
    (spans : list Span.t) (bound : option Rect.t) : bool * option Rect.t :=
  match line_bbox spans with
  | Some line_bbox => scan_rects line_bbox (underline_rects drawings) bound
  | None => (false, bound)
  end.

(** The flag [is_underlined] of the line; it does not depend on the earlier
    binding of [rect]. *)
Definition line_is_underlined (drawings : list Drawing.t)
    (spans : list Span.t) : bool :=
  (detect_underline drawings spans None).1.

End Classifier.

(** ** The specification's reading of the builder *)

(** The stack walk in the specification's words: stop at the root or at a
    strictly larger stored size; at equal size pop on equal underline flags,
    stop when the top is underlined and the new heading is not, pop when the
    top is not underlined and the new heading is; pop a strictly smaller
    size. *)
Fixpoint spec_walk (g : DiGraph) (root : string) (font_size : Q)
    (is_underlined : bool) (node_stack : list string) : list string :=
  match node_stack with
  | [] => []
  | top :: below =>
      match nodes g !! top with
      | None => node_stack
      | Some attrs =>
          if bool_decide (top = root) then node_stack
          else
            match (Node.font_size attrs ?= font_size)%Q with
            | Gt => node_stack
            | Eq =>
                match Node.is_underlined attrs, is_underlined with
                | true, false => node_stack
                | false, true =>
                    spec_walk g root font_size is_underlined below
                | _, _ => spec_walk g root font_size is_underlined below
                end
            | Lt => spec_walk g root font_size is_underlined below
            end
      end
  end.

(** If the walk empties the stack, the root is the parent and the stack is
    reset to the root alone. *)
Definition spec_select_parent (g : DiGraph) (root : string) (font_size : Q)
    (is_underlined : bool) (node_stack : list string)
  : string * list string :=
  match spec_walk g root font_size is_underlined node_stack with
  | [] => (root, [root])
  | parent :: below => (parent, parent :: below)
  end.

(** Some element before position [i] is bold. *)
Definition bold_seen (elements : list Elem.t) (i : nat) : bool :=
  existsb Elem.is_bold (take i elements).

(** The heading qualification of the specification. *)
Definition qualifies (elements : list Elem.t) (i : nat) (elem : Elem.t)
  : bool :=
  Qgtb (Elem.font_size elem) (regular_font_size elements)
  || endswith (Elem.text elem) ":"
  || next_starts_with_colon elements i.

(** The element at position [i] is promoted to a heading: it is bold, it is
    not the first bold element, it is not a standalone number, and it
    qualifies. *)
Definition promoted (elements : list Elem.t) (i : nat) (elem : Elem.t)
  : bool :=
  Elem.is_bold elem && bold_seen elements i
  && negb (re_match_numbered_item (Elem.text elem))
  && qualifies elements i elem.

(** The texts of the headings among the first [k] elements, in order. *)
Definition heading_ids_upto (elements : list Elem.t) (k : nat)
  : list string :=
  omap (λ i, elem ← elements !! i;
             if promoted elements i elem then Some (Elem.text elem) else None)
       (seq 0 k).

Definition heading_ids (elements : list Elem.t) : list string :=
  heading_ids_upto elements (length elements).

(** The invariant of section 3 of the specification: one root without
    incoming edge, one incoming edge for every other node. *)
Definition one_parent_each (g : DiGraph) (root : string) : Prop :=
  root ∈ dom (nodes g)
  ∧ in_degree g root = 0
  ∧ ∀ n, n ∈ dom (nodes g) → n ≠ root → in_degree g n = 1.

(** The root is at level 0 and every edge goes one level down. *)
Definition levels_follow_edges (g : DiGraph) (root : string) : Prop :=
  (∃ attrs, nodes g !! root = Some attrs ∧ Node.level attrs = 0)
  ∧ ∀ p c, (p, c) ∈ edges g →
      ∃ ap ac, nodes g !! p = Some ap ∧ nodes g !! c = Some ac
               ∧ Node.level ac = Node.level ap + 1.

(** ** Inputs of the scenarios *)

Definition element (text : string) (font_size : Q) (is_bold : bool)
    (is_underlined : bool) : Elem.t :=
  {| Elem.text := text; Elem.font := ""; Elem.font_size := font_size;
     Elem.is_bold := is_bold; Elem.is_underlined := is_underlined;
     Elem.page := 1 |}.

(** The tie-break scenario of section 8 of the specification. *)
Definition tie_break_elements (title : string) : list Elem.t :=
  [ element title 14 true false;
    element "Section A:" 12 true true;
    element "body1" 10 false false;
    element "Section B:" 12 true false;
    element "body2" 10 false false ].

(** What the scenario expects: both sections are children of the root, with
    their bodies as content, and "Section B:" is not under "Section A:". *)
Definition sections_are_siblings (g : DiGraph) (root : string) : Prop :=
  (root, "Section A:") ∈ edges g
  ∧ (root, "Section B:") ∈ edges g
  ∧ (("Section A:", "Section B:") ∉ edges g)
  ∧ (Node.content <$> nodes g !! "Section A:") = Some "body1"
  ∧ (Node.content <$> nodes g !! "Section B:") = Some "body2".

(** A document in which the heading "Y:" occurs twice, first under "X:"
    and then, larger, under the root. *)
Definition repeated_heading_elements : list Elem.t :=
  [ element "Title" 14 true false;
    element "X:" 14 true false;
    element "Y:" 12 true false;
    element "Y:" 16 true false ].

(** The graph that a run returns; the empty graph stands for a run that
    raises. *)
Definition graph_of (o : outcome DiGraph) : DiGraph :=
  match o with
  | Returns g => g
  | _ => empty_graph
  end.

(** ** One iteration of the main loop, as a relation

    [iteration elements root i elem st st'] lists the four ways in which the
    body of the main loop takes [st] to [st'] at position [i]. *)
Inductive iteration (elements : list Elem.t) (root : string) (i : nat)
    (elem : Elem.t) (st : State) : State → Prop :=
  | iteration_title :
      Elem.is_bold elem = true →
      bold_seen elements i = false →
      iteration elements root i elem st (skip_title st)
  | iteration_numbered :
      Elem.is_bold elem && negb (bold_seen elements i) = false →
      re_match_numbered_item (Elem.text elem) = true →
      iteration elements root i elem st st
  | iteration_heading parent below :
      promoted elements i elem = true →
      spec_select_parent (graph st) root (Elem.font_size elem)
        (Elem.is_underlined elem) (node_stack st) = (parent, parent :: below) →
      parent :: below `suffix_of` node_stack st →
      iteration elements root i elem st
        (push_heading st elem parent (parent :: below))
  | iteration_content :
      Elem.is_bold elem && negb (bold_seen elements i) = false →
      re_match_numbered_item (Elem.text elem) = false →
      promoted elements i elem = false →
      iteration elements root i elem st (append_content st (Elem.text elem)).

(** ** Invariants of the main loop *)

(** The stack rests on the root and holds nodes of the graph only. *)
Record stack_ok (root : string) (st : State) : Prop := {
  ok_bottom : last (node_stack st) = Some root;
  ok_stack : ∀ n, n ∈ node_stack st → n ∈ dom (nodes (graph st));
  ok_current : current_node st ∈ dom (nodes (graph st));
  ok_edges : ∀ p c, (p, c) ∈ edges (graph st) →
               p ∈ dom (nodes (graph st)) ∧ c ∈ dom (nodes (graph st))
}.

(** The bookkeeping of the loop after [k] elements. *)
Record tracks (elements : list Elem.t) (root : string) (k : nat)
    (st : State) : Prop := {
  tr_skipped : first_bold_skipped st = bold_seen elements k;
  tr_added : nodes_added st = length (heading_ids_upto elements k);
  tr_dom : dom (nodes (graph st))
           = {[ root ]} ∪ list_to_set (heading_ids_upto elements k)
}.

(** The shape of the graph while every heading is new to it. *)
Record tree_ok (root : string) (st : State) : Prop := {
  tree_nodup : NoDup (node_stack st);
  tree_depth : ∀ above n below,
      node_stack st = above ++ n :: below →
      Node.level <$> nodes (graph st) !! n = Some (length below);
  tree_edges : ∀ p c, (p, c) ∈ edges (graph st) →
      ∃ ap ac, nodes (graph st) !! p = Some ap
               ∧ nodes (graph st) !! c = Some ac
               ∧ Node.level ac = Node.level ap + 1;
  tree_root : in_degree (graph st) root = 0;
  tree_parent : ∀ n, n ∈ dom (nodes (graph st)) → n ≠ root →
      in_degree (graph st) n = 1
}.

(** ** The specification's account of content *)

(** The texts that each node has been given, and the node that receives
    text. *)
Record Ledger : Type := mkLedger {
  active : string;
  assigned : gmap string (list string)
}.

Definition ledger_step (elements : list Elem.t) (i : nat) (elem : Elem.t)
    (L : Ledger) : Ledger :=
  if Elem.is_bold elem && negb (bold_seen elements i) then L
  else if re_match_numbered_item (Elem.text elem) then L
  else if promoted elements i elem then
    {| active := Elem.text elem;
       assigned := <[Elem.text elem := []]> (assigned L) |}
  else
    {| active := active L;
       assigned := alter (λ texts, texts ++ [Elem.text elem]) (active L)
                     (assigned L) |}.

Definition ledger_upto (elements : list Elem.t) (root : string) (k : nat)
  : Ledger :=
  foldl (λ L i, match elements !! i with
                | Some elem => ledger_step elements i elem L
                | None => L
                end)
        {| active := root; assigned := {[ root := [] ]} |} (seq 0 k).

Definition ledger (elements : list Elem.t) (root : string) : Ledger :=
  ledger_upto elements root (length elements).

(** Every text is appended after a separating space. *)
Definition accumulate (texts : list string) : string :=
  foldl (λ content text, content +:+ " " +:+ text) "" texts.

(** A text trimmed, or the placeholder when nothing is left of it. *)
Definition final_content_of (raw : string) : string :=
  if bool_decide (strip raw = "") then placeholder else strip raw.

(** The content that the specification gives to a node with these texts. *)
Definition final_content (texts : list string) : string :=
  final_content_of (accumulate texts).

(** The graph holds, for every node, the accumulation of the texts that the
    ledger assigns to it. *)
Definition agrees (st : State) (L : Ledger) : Prop :=
  current_node st = active L
  ∧ ∀ n, Node.content <$> nodes (graph st) !! n
         = accumulate <$> assigned L !! n.

(** ** Further inputs and notions used in the statements *)

(** Two headings in a row: the first one keeps the placeholder. *)
Definition consecutive_headings_elements : list Elem.t :=
  [ element "Title" 14 true false;
    element "Scope:" 12 true false;
    element "Terms:" 12 true false;
    element "body" 10 false false ].

(** A heading whose text comes back: "A:" is followed at once by "B:", and
    a second "A:" then receives the body. *)
Definition reopened_heading_elements : list Elem.t :=
  [ element "Title" 14 true false;
    element "A:" 12 true false;
    element "B:" 12 true false;
    element "A:" 12 true false;
    element "body" 10 false false ].

(** The placeholder rule in the specification's words: a heading that is
    immediately followed by another heading ends with the placeholder as its
    content. *)
Definition headings_in_a_row_keep_placeholder (elements : list Elem.t)
    (g : DiGraph) : Prop :=
  ∀ i e1 e2,
    elements !! i = Some e1 →
    elements !! (S i) = Some e2 →
    promoted elements i e1 = true →
    promoted elements (S i) e2 = true →
    Node.content <$> nodes g !! Elem.text e1 = Some placeholder.

(** The reference size in the specification's words: the size of the first
    non-bold element, or 8.0 when every element is bold. *)
Definition is_reference_size (elements : list Elem.t) (r : Q) : Prop :=
  (∃ before elem after,
     elements = before ++ elem :: after
     ∧ Forall (λ e, Elem.is_bold e = true) before
     ∧ Elem.is_bold elem = false ∧ r = Elem.font_size elem)
  ∨ (Forall (λ e, Elem.is_bold e = true) elements ∧ r = 8.0%Q).

(** A bold title, a heading, and the numbering artefact ["3."] followed by
    the text of the item. *)
Definition numbered_item_elements : list Elem.t :=
  [ element "Title" 14 true false;
    element "Steps:" 12 true false;
    element "3." 10 false false;
    element "Third step" 10 false false ].

(** The state of the tie-break scenario when "Section B:" arrives. *)
Definition before_section_b : State :=
  {| graph :=
       {| nodes :=
            <["Section A:" := {| Node.level := 1; Node.content := " body1";
                                 Node.font_size := 12;
                                 Node.is_underlined := true |}]>
              (<["doc" := {| Node.level := 0; Node.content := "";
                             Node.font_size := 100;
                             Node.is_underlined := false |}]> ∅);
          edges := {[ ("doc", "Section A:") ]} |};
     current_node := "Section A:";
     node_stack := ["Section A:"; "doc"];
     first_bold_skipped := true;
     nodes_added := 1 |}.

(** The state of [repeated_heading_elements] when "Y:" arrives again. *)
Definition before_second_y : State :=
  {| graph :=
       {| nodes :=
            <["Y:" := {| Node.level := 2; Node.content := "";
                         Node.font_size := 12;
                         Node.is_underlined := false |}]>
              (<["X:" := {| Node.level := 1; Node.content := "";
                            Node.font_size := 14;
                            Node.is_underlined := false |}]>
                 (<["doc" := {| Node.level := 0; Node.content := "";
                                Node.font_size := 100;
                                Node.is_underlined := false |}]> ∅));
          edges := {[ ("doc", "X:"); ("X:", "Y:") ]} |};
     current_node := "Y:";
     node_stack := ["Y:"; "X:"; "doc"];
     first_bold_skipped := true;
     nodes_added := 2 |}.

(** A box none of whose coordinates is NaN. *)
Definition no_nan (b : BBox.t) : Prop :=
  PrimFloat.is_nan (BBox.b0 b) = false
  ∧ PrimFloat.is_nan (BBox.b1 b) = false
  ∧ PrimFloat.is_nan (BBox.b2 b) = false
  ∧ PrimFloat.is_nan (BBox.b3 b) = false.

(** The union of the spans' boxes: the least left and top edges and the
    greatest right and bottom edges among the spans. *)
Definition is_union_box (spans : list Span.t) (bbox : BBox.t) : Prop :=
  (∀ s, s ∈ spans →
     PrimFloat.leb (BBox.b0 bbox) (BBox.b0 (Span.bbox s)) = true
     ∧ PrimFloat.leb (BBox.b1 bbox) (BBox.b1 (Span.bbox s)) = true
     ∧ PrimFloat.leb (BBox.b2 (Span.bbox s)) (BBox.b2 bbox) = true
     ∧ PrimFloat.leb (BBox.b3 (Span.bbox s)) (BBox.b3 bbox) = true)
  ∧ (∃ s, s ∈ spans ∧ BBox.b0 bbox = BBox.b0 (Span.bbox s))
  ∧ (∃ s, s ∈ spans ∧ BBox.b1 bbox = BBox.b1 (Span.bbox s))
  ∧ (∃ s, s ∈ spans ∧ BBox.b2 bbox = BBox.b2 (Span.bbox s))
  ∧ (∃ s, s ∈ spans ∧ BBox.b3 bbox = BBox.b3 (Span.bbox s)).

(** [Rect.height] as PyMuPDF documents it: [max(0, y1 - y0)]. *)
Definition fitz_height (rect : Rect.t) : float :=
  float_max 0 (PrimFloat.sub (Rect.y1 rect) (Rect.y0 rect)).

(** The real number that a finite float stands for; NaN and the infinities
    stand for none. *)
Definition exact (x : float) : option Q :=
  match Prim2SF x with
  | S754_zero _ => Some 0%Q
  | S754_finite s m e =>
      Some ((if s then -1 else 1) * inject_Z (Z.pos m) * 2 ^ e)%Q
  | _ => None
  end.

(** The underline rule in the specification's words, read on the real
    numbers that the coordinates stand for: a filled rectangle of the page
    of height below 5 overlaps the line's box horizontally by a positive
    amount, and the distance between its top edge and the bottom edge of the
    line is below 5. *)
Definition underlined_as_specified (height : Rect.t → float)
    (drawings : list Drawing.t) (spans : list Span.t) : Prop :=
  ∃ bbox d rect h right left top bottom,
    line_bbox spans = Some bbox
    ∧ d ∈ drawings ∧ Drawing.type d = Some "f"
    ∧ Re rect ∈ Drawing.items d
    ∧ exact (height rect) = Some h ∧ (h < 5)%Q
    ∧ exact (float_min (BBox.b2 bbox) (Rect.x1 rect)) = Some right
    ∧ exact (float_max (BBox.b0 bbox) (Rect.x0 rect)) = Some left
    ∧ (0 < right - left)%Q
    ∧ exact (Rect.y0 rect) = Some top
    ∧ exact (BBox.b3 bbox) = Some bottom
    ∧ (Qabs (top - bottom) < 5)%Q.

(** A thin filled rule whose top edge is at y = 5, and a line whose bottom
    edge is at y = 2^-60: the distance between the two is below 5, and the
    float nearest to it is 5. *)
Definition boundary_drawings : list Drawing.t :=
  [ {| Drawing.type := Some "f";
       Drawing.items := [ Re {| Rect.x0 := 0; Rect.y0 := 5;
                                Rect.x1 := 100; Rect.y1 := 6 |} ] |} ].

Definition boundary_spans : list Span.t :=
  [ {| Span.text := "Heading"; Span.font := "Helvetica-Bold";
       Span.size := 12;
       Span.bbox := {| BBox.b0 := 0; BBox.b1 := -12;
                       BBox.b2 := 100; BBox.b3 := 0x1p-60 |} |} ].

(** A page with a filled box, a stroked rule and a filled rule. *)
Definition page_drawings : list Drawing.t :=
  [ {| Drawing.type := Some "f";
       Drawing.items := [ Re {| Rect.x0 := 50; Rect.y0 := 100;
                                Rect.x1 := 300; Rect.y1 := 140 |} ] |};
    {| Drawing.type := Some "s";
       Drawing.items := [ NotRe "l" ] |};
    {| Drawing.type := Some "f";
       Drawing.items := [ Re {| Rect.x0 := 72; Rect.y0 := 121;
                                Rect.x1 := 180; Rect.y1 := 122 |} ] |} ].

(** A line of two spans that ends at y = 120, just above the filled rule. *)
Definition heading_spans : list Span.t :=
  [ {| Span.text := "Section"; Span.font := "Helvetica-Bold";
       Span.size := 12;
       Span.bbox := {| BBox.b0 := 72; BBox.b1 := 108;
                       BBox.b2 := 120; BBox.b3 := 120 |} |};
    {| Span.text := "A:"; Span.font := "Helvetica-Bold"; Span.size := 12;
       Span.bbox := {| BBox.b0 := 124; BBox.b1 := 108;
                       BBox.b2 := 140; BBox.b3 := 120 |} |} ].

(** ** The element classifier: lines, pages and the document *)

(** [str.lower] on code points below 256: the letters A to Z and the
    capital letters from 192 to 222, the multiplication sign 215 apart, move
    up by 32. *)
Definition lower_char (c : ascii) : ascii :=
  let n := nat_of_ascii c in
  if ((65 <=? n) && (n <=? 90))
     || ((192 <=? n) && (n <=? 222) && negb (n =? 215))
  then ascii_of_nat (n + 32) else c.

(** [s.lower()] *)
Definition lower (s : string) : string := text_of (lower_char <$> chars s).

Fixpoint contains_chars (l sub : list ascii) : bool :=
  startswith_chars l sub
  || match l with
     | [] => false
     | _ :: l' => contains_chars l' sub
     end.

(** [sub in s] *)
Definition contains (s sub : string) : bool :=
  contains_chars (chars s) (chars sub).

(** A dictionary of [block["lines"]]. *)
Module Line.
Record t : Type := mk { spans : list Span.t }.
End Line.

(** A dictionary of [page.get_text("dict")["blocks"]]; an image block has
    no ["lines"]. *)
Module Block.
Record t : Type := mk { lines : option (list Line.t) }.
End Block.

(** What the classifier reads of a page. *)
Module Page.
Record t : Type := mk {
  drawings : list Drawing.t;    (* page.get_drawings() *)
  blocks : list Block.t         (* page.get_text("dict")["blocks"] *)
}.
End Page.

(** [line_text] when the spans of a line have been read. *)
Definition joined_text (spans : list Span.t) : string :=
  foldl (λ line_text span, line_text +:+ (Span.text span +:+ " ")) "" spans.

(** [is_bold] when the spans of a line have been read. *)
Definition any_bold (spans : list Span.t) : bool :=
  foldl (λ is_bold span,
           if contains (lower (Span.font span)) "bold" then true else is_bold)
        false spans.

(** [font_size] when the spans of a line have been read. *)
Definition largest_size (spans : list Span.t) : Q :=
  foldl (λ font_size span, py_max font_size (Span.size span)) 0%Q spans.

(** [font_used] when the spans of a line have been read. *)
Definition last_font (spans : list Span.t) : string :=
  foldl (λ _ span, Span.font span) "" spans.

Section Extraction.

(** [rect.height], a property that PyMuPDF computes. *)
Variable height : Rect.t → float.

(** The body of [for line in block["lines"]]: the element that the line
    appends to [structured_text], if any.  [page_num] counts from 0. *)
Definition classify_line (drawings : list Drawing.t) (page_num : nat)
    (line : Line.t) : option Elem.t :=
  let spans := Line.spans line in
  let is_underlined := line_is_underlined height drawings spans in
  let line_text := strip (joined_text spans) in
  if bool_decide (line_text = "") then None
  else Some {| Elem.text := line_text;
               Elem.font := last_font spans;
               Elem.font_size := largest_size spans;
               Elem.is_bold := any_bold spans;
               Elem.is_underlined := is_underlined;
               Elem.page := page_num + 1 |}.

(** The elements of one block. *)
Definition classify_block (drawings : list Drawing.t) (page_num : nat)
    (block : Block.t) : list Elem.t :=
  match Block.lines block with
  | Some lines => omap (classify_line drawings page_num) lines
  | None => []
  end.

(** The elements of one page. *)
Definition classify_page (page_num : nat) (page : Page.t) : list Elem.t :=
  flat_map (classify_block (Page.drawings page) page_num) (Page.blocks page).

(** The second pass of [extract_structured_text_from_pdf] over
    [enumerate(doc)], counting pages from [page_num]. *)
Fixpoint classify_pages (page_num : nat) (doc : list Page.t) : list Elem.t :=
  match doc with
  | [] => []
  | page :: doc' =>
      classify_page page_num page ++ classify_pages (S page_num) doc'
  end.

(** [extract_structured_text_from_pdf] on an opened document.  The first
    pass only computes [max_font_size], which nothing reads. *)
Definition extract_structured_text (doc : list Page.t) : list Elem.t :=
  classify_pages 0 doc.

End Extraction.

(** ** Further notions about the builder *)

(** A parent outranks its child: it is strictly larger, or of the same size
    and underlined while the child is not. *)
Definition outranks (parent child : Node.t) : Prop :=
  (Node.font_size child < Node.font_size parent)%Q
  ∨ ((Node.font_size parent == Node.font_size child)%Q
     ∧ Node.is_underlined parent = true
     ∧ Node.is_underlined child = false).

(** The texts of the first [k] elements, in order, without the first bold
    element and without the standalone numbers. *)
Definition content_texts_upto (elements : list Elem.t) (k : nat)
  : list string :=
  omap (λ i, elem ← elements !! i;
             if Elem.is_bold elem && negb (bold_seen elements i) then None
             else if re_match_numbered_item (Elem.text elem) then None
             else Some (Elem.text elem))
       (seq 0 k).

Definition content_texts (elements : list Elem.t) : list string :=
  content_texts_upto elements (length elements).

(** Two elements with the same text, size, bold flag and underline flag;
    font name and page may differ. *)
Definition same_cues (e e' : Elem.t) : Prop :=
  Elem.text e = Elem.text e'
  ∧ Elem.font_size e = Elem.font_size e'
  ∧ Elem.is_bold e = Elem.is_bold e'
  ∧ Elem.is_underlined e = Elem.is_underlined e'.

(** Every edge that does not start at the root goes from a node to a node
    that it outranks. *)
Definition edges_ranked (g : DiGraph) (root : string) : Prop :=
  ∀ p c, (p, c) ∈ edges g → p ≠ root →
    ∃ ap ac, nodes g !! p = Some ap ∧ nodes g !! c = Some ac
             ∧ outranks ap ac.

(** The root still has the attributes it was created with, its content
    apart. *)
Definition root_untouched (g : DiGraph) (root : string) : Prop :=
  ∃ attrs, nodes g !! root = Some attrs
           ∧ Node.level attrs = 0
           ∧ Node.font_size attrs = 100%Q
           ∧ Node.is_underlined attrs = false.

(** ** The renderer and the serializer *)

(** The dictionary [colors] of [visualize]; [None] where it has no entry. *)
Definition colors (level : nat) : option string :=
  match level with
  | 0 => Some "#ff0000"
  | 1 => Some "#00cc00"
  | 2 => Some "#0099ff"
  | 3 => Some "#9933ff"
  | 4 => Some "#ff9900"
  | _ => None
  end.

(** The arguments of one call of [net.add_node]. *)
Module VisNode.
Record t : Type := mk {
  id : string;
  label : string;
  title : string;
  color : string
}.
End VisNode.

(** The two line feeds between the identifier and the content of a title. *)
Definition blank_line : string := String "010" (String "010" "").

(** The body of the first loop of [visualize] for a node with its
    attributes, all of which the builder has set. *)
Definition style_node (node : string) (attrs : Node.t) : VisNode.t :=
  let level := Node.level attrs in
  let color := default "#cccccc" (colors level) in
  let color := if Node.is_underlined attrs then "#FFD700" else color in
  let label := if String.length node <=? 30 then node
               else String.substring 0 30 node +:+ "..." in
  let content := Node.content attrs in
  let title := if bool_decide (content = "") then node
               else node +:+ blank_line +:+ content in
  {| VisNode.id := node; VisNode.label := label; VisNode.title := title;
     VisNode.color := color |}.

(** An entry of [graph_data["nodes"]]. *)
Module JsonNode.
Record t : Type := mk {
  id : string;
  level : nat;
  content : string;
  font_size : Q;
  is_underlined : bool
}.
End JsonNode.

(** An entry of [graph_data["edges"]]: the keys ["from"] and ["to"]. *)
Module JsonEdge.
Record t : Type := mk { source : string; target : string }.
End JsonEdge.

Record GraphData : Type := mkGraphData {
  data_nodes : list JsonNode.t;
  data_edges : list JsonEdge.t
}.

(** The first loop of [save_graph_json]; [node_order] is the order in which
    [self.graph.nodes()] yields the nodes. *)
Fixpoint node_entries (g : DiGraph) (node_order : list string)
  : outcome (list JsonNode.t) :=
  match node_order with
  | [] => Returns []
  | node :: node_order' =>
      match nodes g !! node with
      | None => KeyError
      | Some attrs =>
          entries ← node_entries g node_order';
          Returns ({| JsonNode.id := node;
                      JsonNode.level := Node.level attrs;
                      JsonNode.content := Node.content attrs;
                      JsonNode.font_size := Node.font_size attrs;
                      JsonNode.is_underlined := Node.is_underlined attrs |}
                   :: entries)
      end
  end.

(** The dictionary [graph_data] that [save_graph_json] hands to
    [json.dump]; [edge_order] is the order in which [self.graph.edges()]
    yields the edges. *)
Definition graph_data (g : DiGraph) (node_order : list string)
    (edge_order : list (string * string)) : outcome GraphData :=
  entries ← node_entries g node_order;
  Returns {| data_nodes := entries;
             data_edges := (λ e : string * string,
                              {| JsonEdge.source := e.1;
                                 JsonEdge.target := e.2 |}) <$> edge_order |}.

(** The graph that a reader rebuilds from [graph_data]. *)
Definition read_graph_data (d : GraphData) : DiGraph :=
  {| nodes := list_to_map
                ((λ n, (JsonNode.id n,
                        {| Node.level := JsonNode.level n;
                           Node.content := JsonNode.content n;
                           Node.font_size := JsonNode.font_size n;
                           Node.is_underlined := JsonNode.is_underlined n |}))
                   <$> data_nodes d);
     edges := list_to_set
                ((λ e, (JsonEdge.source e, JsonEdge.target e))
                   <$> data_edges d) |}.

(** ** Further inputs *)

(** A document of two pages: a heading above a filled rule, a numbering
    artefact with trailing blanks, an image block and a line of blanks on the
    first page, a line of body text on the second. *)
Definition plain_span (text : string) (size : Q) (bottom : float)
  : Span.t :=
  {| Span.text := text; Span.font := "Helvetica"; Span.size := size;
     Span.bbox := {| BBox.b0 := 72; BBox.b1 := PrimFloat.sub bottom 12;
                     BBox.b2 := 200; BBox.b3 := bottom |} |}.

Definition sample_doc : list Page.t :=
  [ {| Page.drawings := page_drawings;
       Page.blocks :=
         [ {| Block.lines :=
                Some [ {| Line.spans := heading_spans |};
                       {| Line.spans := [ plain_span "3.  " 10 150 ] |} ] |};
           {| Block.lines := None |};
           {| Block.lines :=
                Some [ {| Line.spans := [ plain_span "   " 10 170 ] |} ] |} ]
    |};
    {| Page.drawings := [];
       Page.blocks :=
         [ {| Block.lines :=
                Some [ {| Line.spans := [ plain_span "body" 10 100;
                                          plain_span "text" 9 100 ] |} ] |} ]
    |} ].

(** The elements that [sample_doc] yields. *)
Definition sample_heading : Elem.t :=
  {| Elem.text := "Section A:"; Elem.font := "Helvetica-Bold";
     Elem.font_size := 12; Elem.is_bold := true; Elem.is_underlined := true;
     Elem.page := 1 |}.

Definition sample_number : Elem.t :=
  {| Elem.text := "3."; Elem.font := "Helvetica";
     Elem.font_size := 10; Elem.is_bold := false;
     Elem.is_underlined := false; Elem.page := 1 |}.

(** A document without bold text. *)
Definition plain_elements : list Elem.t :=
  [ element "Preface" 10 false false;
    element "1." 10 false false;
    element "first item" 10 false false ].

(** The tie-break scenario as another source would report it: other font
    names, and the second section on the next page. *)
Definition tie_break_elements_repaged : list Elem.t :=
  [ {| Elem.text := "Title"; Elem.font := "Times-Bold"; Elem.font_size := 14;
       Elem.is_bold := true; Elem.is_underlined := false; Elem.page := 1 |};
    {| Elem.text := "Section A:"; Elem.font := "Times-Bold";
       Elem.font_size := 12; Elem.is_bold := true;
       Elem.is_underlined := true; Elem.page := 1 |};
    {| Elem.text := "body1"; Elem.font := "Times"; Elem.font_size := 10;
       Elem.is_bold := false; Elem.is_underlined := false; Elem.page := 1 |};
    {| Elem.text := "Section B:"; Elem.font := "Times-Bold";
       Elem.font_size := 12; Elem.is_bold := true;
       Elem.is_underlined := false; Elem.page := 2 |};
    {| Elem.text := "body2"; Elem.font := "Times"; Elem.font_size := 10;
       Elem.is_bold := false; Elem.is_underlined := false; Elem.page := 2 |} ].

(** ** Regular expressions: the matcher decides the denotation *)

Lemma nullable_lang r : nullable r = true ↔ lang r [].
Proof.
  split.
  - induction r as [| |p|r1 IH1 r2 IH2|r1 IH1 r2 IH2|r IH]; simpl; intros Hn;
      try discriminate.
    + constructor.
    + apply andb_true_iff in Hn as [H1 H2].
      change (@nil ascii) with (@nil ascii ++ []). constructor; auto.
    + apply orb_true_iff in Hn as [H1|H2];
        [apply lang_alt_l | apply lang_alt_r]; auto.
    + constructor.
  - remember [] as l eqn:El. intros HL. revert El.
    induction HL as [|p c Hp|r1 r2 l1 l2 H1 IH1 H2 IH2|r1 r2 l H IH
                    |r1 r2 l H IH| |r l1 l2 H1 IH1 H2 IH2]; intros El;
      simpl; try done.
    + apply app_eq_nil in El as [-> ->]. by rewrite IH1, IH2.
    + by rewrite IH.
    + rewrite IH by done. apply orb_true_r.
Qed.

Lemma lang_star_cons r c l :
  lang (Star r) (c :: l) →
  ∃ l1 l2, l = l1 ++ l2 ∧ lang r (c :: l1) ∧ lang (Star r) l2.
Proof.
  remember (Star r) as s eqn:Es. remember (c :: l) as w eqn:Ew.
  intros HL. revert r c l Es Ew.
  induction HL as [|p c' Hp|r1 r2 l1 l2 H1 IH1 H2 IH2|r1 r2 l' H IH
                  |r1 r2 l' H IH|r'|r' l1 l2 H1 IH1 H2 IH2];
    intros r c l Es Ew; try discriminate.
  injection Es as ->.
  destruct l1 as [|c1 l1].
  - simpl in Ew. by apply IH2.
  - simpl in Ew. injection Ew as -> <-. eauto.
Qed.

Lemma lang_cls_inv p l : lang (Cls p) l ↔ ∃ c, l = [c] ∧ p c = true.
Proof.
  split.
  - inversion 1; subst; eauto.
  - intros (c & -> & Hp). by constructor.
Qed.

Lemma lang_cat_inv r1 r2 l :
  lang (Cat r1 r2) l ↔ ∃ l1 l2, l = l1 ++ l2 ∧ lang r1 l1 ∧ lang r2 l2.
Proof.
  split.
  - inversion 1; subst; eauto.
  - intros (l1 & l2 & -> & H1 & H2). by constructor.
Qed.

Lemma lang_alt_inv r1 r2 l : lang (Alt r1 r2) l ↔ lang r1 l ∨ lang r2 l.
Proof.
  split.
  - inversion 1; subst; auto.
  - intros [?|?]; [by apply lang_alt_l | by apply lang_alt_r].
Qed.

Lemma deriv_lang r : ∀ c l, lang (deriv c r) l ↔ lang r (c :: l).
Proof.
  induction r as [| |p|r1 IH1 r2 IH2|r1 IH1 r2 IH2|r IH]; intros c l; simpl.
  - split; inversion 1.
  - split; inversion 1.
  - rewrite lang_cls_inv. destruct (p c) eqn:Hp; split.
    + inversion 1. eauto.
    + intros (c' & [= <- ->] & _). constructor.
    + inversion 1.
    + intros (c' & [= <- ->] & ?). congruence.
  - assert (Hcat : lang (Cat (deriv c r1) r2) l ↔
              ∃ l1 l2, c :: l = (c :: l1) ++ l2 ∧ lang r1 (c :: l1) ∧ lang r2 l2).
    { rewrite lang_cat_inv. split.
      - intros (l1 & l2 & -> & Ha & Hb). apply IH1 in Ha. eauto.
      - intros (l1 & l2 & [= ->] & Ha & Hb). apply IH1 in Ha. eauto. }
    assert (Hinv : lang (Cat r1 r2) (c :: l) ↔
              lang (Cat (deriv c r1) r2) l
              ∨ (nullable r1 = true ∧ lang (deriv c r2) l)).
    { rewrite Hcat, lang_cat_inv. split.
      - intros (l1 & l2 & E & Ha & Hb). destruct l1 as [|c1 l1]; simpl in E.
        + subst l2. right. split; [by apply nullable_lang | by apply IH2].
        + injection E as -> ->. left. eauto.
      - intros [(l1 & l2 & E & Ha & Hb) | [Ha Hb]].
        + exists (c :: l1), l2. eauto.
        + apply nullable_lang in Ha. apply IH2 in Hb.
          exists [], (c :: l). eauto. }
    rewrite Hinv. destruct (nullable r1) eqn:Hn.
    + rewrite lang_alt_inv. split; [intros [?|?]; auto | intros [?|[_ ?]]; auto].
    + split; [auto | intros [?|[? _]]; [done|discriminate]].
  - rewrite !lang_alt_inv, IH1, IH2. done.
  - rewrite lang_cat_inv. split.
    + intros (l1 & l2 & -> & Ha & Hb). apply IH in Ha.
      change (c :: l1 ++ l2) with ((c :: l1) ++ l2). by constructor.
    + intros H. apply lang_star_cons in H as (l1 & l2 & -> & Ha & Hb).
      apply IH in Ha. eauto.
Qed.

Lemma fullmatch_lang l : ∀ r, fullmatch_chars r l = true ↔ lang r l.
Proof.
  induction l as [|c l IH]; intros r; simpl.
  - apply nullable_lang.
  - rewrite IH. apply deriv_lang.
Qed.

Lemma lang_star_cls p l : lang (Star (Cls p)) l ↔ Forall (λ c, p c = true) l.
Proof.
  split.
  - remember (Star (Cls p)) as s eqn:Es. intros HL. revert Es.
    induction HL as [|? ? ?|? ? ? ? ? ? ? ?|? ? ? ? ?|? ? ? ? ?| 
                    |r l1 l2 H1 IH1 H2 IH2]; intros Es; try discriminate.
    + constructor.
    + injection Es as ->. apply lang_cls_inv in H1 as (c & -> & Hp).
      constructor; [done | by apply IH2].
  - induction 1 as [|c l Hc _ IH]; [constructor|].
    change (c :: l) with ([c] ++ l). constructor; [by constructor | done].
Qed.

Lemma lang_dollar l : lang Dollar l ↔ l = [] ∨ l = ["010"%char].
Proof.
  unfold Dollar. split.
  - rewrite lang_alt_inv, lang_cls_inv. intros [Ha | (c & -> & Hc)].
    + inversion Ha. by left.
    + apply Ascii.eqb_eq in Hc as <-. by right.
  - intros [-> | ->].
    + apply lang_alt_l. constructor.
    + apply lang_alt_r. constructor. apply Ascii.eqb_refl.
Qed.

Lemma numbered_item_lang l :
  lang numbered_item l ↔
  ∃ ds ws, ds ≠ [] ∧ Forall (λ c, is_digit c = true) ds
           ∧ Forall (λ c, is_space c = true) ws ∧ l = ds ++ "."%char :: ws.
Proof.
  unfold numbered_item, Plus. split.
  - intros H.
    apply lang_cat_inv in H as (l1 & l2 & -> & H1 & H2).
    apply lang_cat_inv in H1 as (d & ds & -> & Hd & Hds).
    apply lang_cls_inv in Hd as (c & -> & Hc).
    apply lang_star_cls in Hds.
    apply lang_cat_inv in H2 as (p & l3 & -> & Hp & H3).
    apply lang_cls_inv in Hp as (c' & -> & Hc').
    apply Ascii.eqb_eq in Hc' as <-.
    apply lang_cat_inv in H3 as (ws & e & -> & Hws & He).
    apply lang_star_cls in Hws. apply lang_dollar in He.
    exists (c :: ds), (ws ++ e). split_and!; [done|by constructor| |done].
    apply Forall_app. split; [done|].
    destruct He as [-> | ->]; [constructor|]. by repeat constructor.
  - intros (ds & ws & Hne & Hds & Hws & ->).
    destruct ds as [|d ds]; [done|]. inversion Hds; subst.
    constructor.
    + change (d :: ds) with ([d] ++ ds). constructor; [by constructor|].
      by apply lang_star_cls.
    + change ("."%char :: ws) with (["."%char] ++ ws). constructor.
      { constructor. apply Ascii.eqb_refl. }
      rewrite <- (app_nil_r ws). constructor.
      * by apply lang_star_cls.
      * apply lang_dollar. by left.
Qed.

Lemma re_match_numbered_item_shape text :
  re_match_numbered_item text = true ↔ numbered_shape text.
Proof.
  unfold re_match_numbered_item, numbered_shape.
  rewrite fullmatch_lang. apply numbered_item_lang.
Qed.

(** ** Comparisons of sizes *)

Lemma Qgtb_lt a b : Qgtb a b = true ↔ (b < a)%Q.
Proof.
  unfold Qgtb. rewrite (Qgt_alt a b).
  destruct (a ?= b)%Q; split; congruence.
Qed.

Lemma Qltb_lt a b : Qltb a b = true ↔ (a < b)%Q.
Proof.
  unfold Qltb. rewrite (Qlt_alt a b).
  destruct (a ?= b)%Q; split; congruence.
Qed.

Lemma Qeqb_eq a b : Qeqb a b = true ↔ (a == b)%Q.
Proof.
  unfold Qeqb. rewrite (Qeq_alt a b).
  destruct (a ?= b)%Q; split; congruence.
Qed.

(** ** The parent selection loop *)

Lemma while_loop_spec_walk g root fs ul :
  ∀ stack fuel,
    length stack ≤ fuel →
    (∀ n, n ∈ stack → is_Some (nodes g !! n)) →
    while_loop fuel g root fs ul stack
    = Returns (spec_walk g root fs ul stack).
Proof.
  intros stack. induction stack as [|c s IH]; intros fuel Hfuel Hnodes.
  - by destruct fuel.
  - destruct fuel as [|fuel]; [simpl in Hfuel; lia|].
    assert (Hs : while_loop fuel g root fs ul s
                 = Returns (spec_walk g root fs ul s)).
    { apply IH; [simpl in Hfuel; lia|].
      intros n Hn. apply Hnodes. by right. }
    destruct (Hnodes c) as [a Ha]; [by left|].
    assert (Hpop : match s with
                   | [] => Returns (Break, s)
                   | _ :: _ => Returns (Next, s)
                   end ≫= (λ r : flow * list string,
                     match r with
                     | (Break, s') => Returns s'
                     | (Next, s') => while_loop fuel g root fs ul s'
                     end) = Returns (spec_walk g root fs ul s)).
    { destruct s; [done|]. exact Hs. }
    simpl. unfold while_body. rewrite Ha.
    destruct (String.eqb_spec c root) as [->|Hne]; simpl.
    { by rewrite bool_decide_eq_true_2. }
    rewrite bool_decide_eq_false_2 by done.
    unfold Qgtb, Qeqb, Qltb.
    destruct (Node.font_size a ?= fs)%Q eqn:Hcmp; simpl.
    + destruct (Node.is_underlined a), ul; simpl; try exact Hpop; done.
    + exact Hpop.
    + done.
Qed.

(** With fuel for every entry of the stack the loop ends: it returns the
    walk of the specification, or raises on an entry that is no node. *)
Lemma while_loop_never_starves g root fs ul stack :
  ∀ fuel, length stack ≤ fuel →
    while_loop fuel g root fs ul stack = Returns (spec_walk g root fs ul stack)
    ∨ while_loop fuel g root fs ul stack = KeyError.
Proof.
  induction stack as [|c s IH]; intros fuel Hfuel.
  - left. by destruct fuel.
  - destruct fuel as [|fuel]; [simpl in Hfuel; lia|].
    specialize (IH fuel ltac:(simpl in Hfuel; lia)).
    assert (Hpop : match s with
                   | [] => Returns (Break, s)
                   | _ :: _ => Returns (Next, s)
                   end ≫= (λ r : flow * list string,
                     match r with
                     | (Break, s') => Returns s'
                     | (Next, s') => while_loop fuel g root fs ul s'
                     end) = while_loop fuel g root fs ul s).
    { destruct s; [by destruct fuel|done]. }
    simpl. unfold while_body.
    destruct (nodes g !! c) as [a|]; [|by right].
    destruct (String.eqb_spec c root) as [->|Hne]; simpl.
    { left. by rewrite bool_decide_eq_true_2. }
    rewrite bool_decide_eq_false_2 by done.
    unfold Qgtb, Qeqb, Qltb.
    destruct (Node.font_size a ?= fs)%Q eqn:Hcmp; simpl.
    + destruct (Node.is_underlined a), ul; simpl;
        rewrite ?Hpop; auto.
    + by rewrite Hpop.
    + by left.
Qed.

Lemma spec_walk_suffix g root fs ul stack :
  spec_walk g root fs ul stack `suffix_of` stack.
Proof.
  induction stack as [|c s IH]; simpl; [done|].
  destruct (nodes g !! c) as [a|]; [|done].
  case_bool_decide; [done|].
  destruct (Node.font_size a ?= fs)%Q; [|by apply suffix_cons_r|done].
  destruct (Node.is_underlined a), ul; try done; by apply suffix_cons_r.
Qed.

Lemma spec_walk_bottom g root fs ul stack :
  last stack = Some root →
  last (spec_walk g root fs ul stack) = Some root.
Proof.
  induction stack as [|c s IH]; simpl; [done|]. intros Hlast.
  destruct (nodes g !! c) as [a|]; [|done].
  case_bool_decide as Hc; [done|].
  assert (Hs : last s = Some root).
  { destruct s; [|done]. simpl in Hlast. congruence. }
  destruct (Node.font_size a ?= fs)%Q; [|by apply IH|done].
  destruct (Node.is_underlined a), ul; try done; by apply IH.
Qed.

Lemma spec_select_parent_bottom g root fs ul stack :
  last stack = Some root →
  ∃ parent below,
    spec_select_parent g root fs ul stack = (parent, parent :: below)
    ∧ parent :: below `suffix_of` stack.
Proof.
  intros Hlast. unfold spec_select_parent.
  pose proof (spec_walk_suffix g root fs ul stack) as Hsuf.
  pose proof (spec_walk_bottom g root fs ul stack Hlast) as Hbot.
  destruct (spec_walk g root fs ul stack) as [|p below]; [done|]. eauto.
Qed.

Lemma select_parent_spec g root fs ul stack :
  (∀ n, n ∈ stack → is_Some (nodes g !! n)) →
  select_parent g root fs ul stack
  = Returns (spec_select_parent g root fs ul stack).
Proof.
  intros Hnodes. unfold select_parent, spec_select_parent.
  rewrite while_loop_spec_walk by (done || lia). simpl.
  by destruct (spec_walk g root fs ul stack).
Qed.

(** The rules of the walk, read off the parent selection itself. *)
Lemma select_parent_rules g root fs ul top below attrs :
  nodes g !! top = Some attrs →
  (∀ n, n ∈ below → is_Some (nodes g !! n)) →
  let stop := select_parent g root fs ul (top :: below)
              = Returns (top, top :: below) in
  let pop := select_parent g root fs ul (top :: below)
             = select_parent g root fs ul below in
  select_parent g root fs ul [] = Returns (root, [root])
  ∧ (top = root → stop)
  ∧ ((fs < Node.font_size attrs)%Q → stop)
  ∧ (top ≠ root → (Node.font_size attrs == fs)%Q →
     Node.is_underlined attrs = ul → pop)
  ∧ (top ≠ root → (Node.font_size attrs == fs)%Q →
     Node.is_underlined attrs = true → ul = false → stop)
  ∧ (top ≠ root → (Node.font_size attrs == fs)%Q →
     Node.is_underlined attrs = false → ul = true → pop)
  ∧ (top ≠ root → (Node.font_size attrs < fs)%Q → pop).
Proof.
  intros Htop Hbelow stop pop. subst stop pop.
  assert (Hall : ∀ n, n ∈ top :: below → is_Some (nodes g !! n)).
  { intros n [->|Hn]%elem_of_cons; [by rewrite Htop|by apply Hbelow]. }
  rewrite !select_parent_spec by (done || by intros ? ?%elem_of_nil).
  unfold spec_select_parent. cbn [spec_walk]. rewrite Htop.
  assert (Heq : (Node.font_size attrs == fs)%Q →
                (Node.font_size attrs ?= fs)%Q = Eq) by apply Qeq_alt.
  assert (Hlt : (Node.font_size attrs < fs)%Q →
                (Node.font_size attrs ?= fs)%Q = Lt) by apply Qlt_alt.
  assert (Hgt : (fs < Node.font_size attrs)%Q →
                (Node.font_size attrs ?= fs)%Q = Gt) by apply Qgt_alt.
  split_and!.
  - done.
  - intros ->. by rewrite bool_decide_eq_true_2.
  - intros H. case_bool_decide; [done|]. by rewrite (Hgt H).
  - intros Hne H <-. rewrite bool_decide_eq_false_2, (Heq H) by done.
    by destruct (Node.is_underlined attrs).
  - intros Hne H -> ->. by rewrite bool_decide_eq_false_2, (Heq H).
  - intros Hne H -> ->. by rewrite bool_decide_eq_false_2, (Heq H).
  - intros Hne H. by rewrite bool_decide_eq_false_2, (Hlt H).
Qed.

(** ** The main loop, one element at a time *)

Lemma outcome_bind_assoc {A B C} (m : outcome A) (f : A → outcome B)
    (h : B → outcome C) :
  (m ≫= f) ≫= h = m ≫= (λ a, f a ≫= h).
Proof. by destruct m. Qed.

Lemma for_loop_app body l1 : ∀ l2 i st,
  for_loop body i (l1 ++ l2) st
  = for_loop body i l1 st ≫= for_loop body (i + length l1) l2.
Proof.
  induction l1 as [|e l1 IH]; intros l2 i st; simpl.
  - by rewrite Nat.add_0_r.
  - rewrite outcome_bind_assoc. destruct (body st i e) as [st'| | |]; try done.
    simpl. rewrite IH. do 2 f_equal. lia.
Qed.

Lemma loop_upto_0 elements root :
  loop_upto elements root 0 = Returns (initial_state empty_graph root).
Proof. unfold loop_upto. by rewrite take_0. Qed.

Lemma loop_upto_S elements root k elem :
  elements !! k = Some elem →
  loop_upto elements root (S k)
  = loop_upto elements root k
    ≫= λ st, loop_body elements root (regular_font_size elements) st k elem.
Proof.
  intros Hk. unfold loop_upto.
  rewrite (take_S_r _ _ _ Hk), for_loop_app.
  rewrite length_take_le by (apply lookup_lt_Some in Hk; lia).
  destruct (for_loop _ 0 (take k elements) _) as [st| | |]; try done.
  simpl. by destruct (loop_body _ _ _ st k elem).
Qed.

Lemma build_loop_upto elements root :
  build elements root
  = loop_upto elements root (length elements)
    ≫= λ st, Returns (clean_up (graph st)).
Proof.
  unfold build, build_knowledge_graph, loop_upto. by rewrite firstn_all.
Qed.

Lemma loop_upto_ind elements root (P : nat → State → Prop) :
  P 0 (initial_state empty_graph root) →
  (∀ k elem st,
     elements !! k = Some elem →
     loop_upto elements root k = Returns st →
     P k st →
     ∃ st', loop_body elements root (regular_font_size elements) st k elem
            = Returns st' ∧ P (S k) st') →
  ∀ k, k ≤ length elements →
       ∃ st, loop_upto elements root k = Returns st ∧ P k st.
Proof.
  intros H0 Hstep k. induction k as [|k IH]; intros Hk.
  - rewrite loop_upto_0. eauto.
  - destruct IH as (st & Hst & HP); [lia|].
    destruct (lookup_lt_is_Some_2 elements k) as [elem Helem]; [lia|].
    destruct (Hstep k elem st Helem Hst HP) as (st' & Hst' & HP').
    exists st'. split; [|done].
    rewrite (loop_upto_S _ _ _ _ Helem), Hst. exact Hst'.
Qed.

(** ** The bookkeeping of headings *)

Lemma bold_seen_S elements k elem :
  elements !! k = Some elem →
  bold_seen elements (S k) = bold_seen elements k || Elem.is_bold elem.
Proof.
  intros Hk. unfold bold_seen. rewrite (take_S_r _ _ _ Hk), existsb_app.
  simpl. by rewrite orb_false_r.
Qed.

Lemma heading_ids_upto_S elements k elem :
  elements !! k = Some elem →
  heading_ids_upto elements (S k)
  = heading_ids_upto elements k
    ++ (if promoted elements k elem then [Elem.text elem] else []).
Proof.
  intros Hk. unfold heading_ids_upto.
  rewrite seq_S, omap_app. simpl. rewrite Hk. simpl.
  by destruct (promoted elements k elem).
Qed.

(** ** The loop body and the iteration relation *)

Lemma loop_body_iteration elements root k elem st :
  stack_ok root st →
  first_bold_skipped st = bold_seen elements k →
  ∃ st', loop_body elements root (regular_font_size elements) st k elem
         = Returns st'
         ∧ iteration elements root k elem st st'.
Proof.
  intros Hok Hskip. unfold loop_body. rewrite Hskip.
  destruct (Elem.is_bold elem && negb (bold_seen elements k)) eqn:Htitle.
  { apply andb_true_iff in Htitle as [Hb Hs].
    eexists. split; [done|]. apply iteration_title; [done|].
    by apply negb_true_iff. }
  destruct (re_match_numbered_item (Elem.text elem)) eqn:Hnum.
  { eexists. split; [done|]. by apply iteration_numbered. }
  assert (Hprom : promoted elements k elem
                  = Elem.is_bold elem && qualifies elements k elem).
  { unfold promoted. rewrite Hnum. simpl.
    destruct (Elem.is_bold elem); [|done]. simpl in *.
    apply negb_false_iff in Htitle. by rewrite Htitle. }
  assert (Hcontent : ∀ st', st' = append_content st (Elem.text elem) →
            promoted elements k elem = false →
            ∃ st'', Returns st' = Returns st''
                    ∧ iteration elements root k elem st st'').
  { intros st' -> Hp. eexists. split; [done|]. by apply iteration_content. }
  destruct (Elem.is_bold elem) eqn:Hbold; simpl in Hprom.
  - fold (qualifies elements k elem).
    destruct (qualifies elements k elem) eqn:Hq.
    + unfold insert_heading. rewrite select_parent_spec.
      2:{ intros n Hn. apply elem_of_dom. by apply (ok_stack _ _ Hok). }
      destruct (spec_select_parent_bottom (graph st) root
                  (Elem.font_size elem) (Elem.is_underlined elem)
                  (node_stack st) (ok_bottom _ _ Hok))
        as (parent & below & Hsel & Hsuf).
      simpl. rewrite Hsel. eexists. split; [done|].
      by apply iteration_heading.
    + by apply Hcontent.
  - by apply Hcontent.
Qed.

(** ** The stack invariant *)

Lemma initial_state_stack_ok root :
  stack_ok root (initial_state empty_graph root).
Proof.
  split; simpl.
  - done.
  - intros n Hn. apply list_elem_of_singleton in Hn as ->.
    rewrite dom_insert_L. set_solver.
  - rewrite dom_insert_L. set_solver.
  - intros p c Hpc. set_solver.
Qed.

Lemma suffix_last {A} (l1 l2 : list A) x :
  l1 `suffix_of` l2 → l1 ≠ [] → last l2 = Some x → last l1 = Some x.
Proof.
  intros [k ->] Hne. rewrite last_app. by destruct (last l1) eqn:E; [|apply last_None in E].
Qed.

Lemma append_content_dom st text :
  current_node st ∈ dom (nodes (graph st)) →
  dom (nodes (graph (append_content st text))) = dom (nodes (graph st)).
Proof.
  intros Hcur. unfold append_content.
  destruct (nodes (graph st) !! current_node st) eqn:E; [|done]. simpl.
  rewrite dom_insert_L. set_solver.
Qed.

Lemma append_content_fields st text :
  edges (graph (append_content st text)) = edges (graph st)
  ∧ current_node (append_content st text) = current_node st
  ∧ node_stack (append_content st text) = node_stack st
  ∧ first_bold_skipped (append_content st text) = first_bold_skipped st
  ∧ nodes_added (append_content st text) = nodes_added st.
Proof.
  unfold append_content. by destruct (nodes (graph st) !! current_node st).
Qed.

Lemma iteration_stack_ok elements root i elem st st' :
  iteration elements root i elem st st' → stack_ok root st → stack_ok root st'.
Proof.
  intros Hit Hok. destruct Hok as [Hbot Hstack Hcur Hedges].
  destruct Hit as [Hb Hs|Ht Hn|parent below Hp Hsel Hsuf|Ht Hn Hp].
  - by split.
  - by split.
  - assert (Hsub : ∀ n, n ∈ parent :: below → n ∈ dom (nodes (graph st))).
    { intros n Hn. apply Hstack. destruct Hsuf as [k ->].
      apply elem_of_app. by right. }
    split; simpl.
    + destruct below; simpl; eapply (suffix_last _ _ _ Hsuf); done.
    + intros n Hn. rewrite dom_insert_L.
      apply elem_of_cons in Hn as [->|Hn]; [set_solver|].
      apply elem_of_union. right. by apply Hsub.
    + rewrite dom_insert_L. set_solver.
    + intros p c Hpc. rewrite dom_insert_L.
      apply elem_of_union in Hpc as [Hpc|Hpc].
      * apply elem_of_singleton in Hpc as [= -> ->].
        split; [|set_solver]. apply elem_of_union. right.
        apply Hsub. by left.
      * destruct (Hedges p c Hpc). set_solver.
  - destruct (append_content_fields st (Elem.text elem))
      as (He & Hc & Hs & _ & _).
    split.
    + by rewrite Hs.
    + intros n. rewrite Hs, append_content_dom by done. apply Hstack.
    + by rewrite Hc, append_content_dom.
    + intros p c. rewrite He, append_content_dom by done. apply Hedges.
Qed.

Lemma initial_state_tracks elements root :
  tracks elements root 0 (initial_state empty_graph root).
Proof.
  split; simpl; try done.
  rewrite dom_insert_L. set_solver.
Qed.

Lemma promoted_bold_seen elements i elem :
  promoted elements i elem = true →
  Elem.is_bold elem = true ∧ bold_seen elements i = true
  ∧ re_match_numbered_item (Elem.text elem) = false
  ∧ qualifies elements i elem = true.
Proof.
  unfold promoted. rewrite !andb_true_iff, negb_true_iff. tauto.
Qed.

Lemma iteration_tracks elements root k elem st st' :
  elements !! k = Some elem →
  iteration elements root k elem st st' →
  stack_ok root st →
  tracks elements root k st → tracks elements root (S k) st'.
Proof.
  intros Hk Hit Hok [Hskip Hadd Hdom].
  pose proof (heading_ids_upto_S _ _ _ Hk) as Hids.
  pose proof (bold_seen_S _ _ _ Hk) as Hseen.
  destruct Hit as [Hb Hs|Ht Hn|parent below Hp Hsel Hsuf|Ht Hn Hp].
  - assert (Hp : promoted elements k elem = false).
    { unfold promoted. rewrite Hs. by rewrite andb_false_r. }
    rewrite Hp, app_nil_r in Hids.
    split; rewrite ?Hids, ?Hseen; simpl; try done.
    by rewrite Hb, orb_true_r.
  - assert (Hp : promoted elements k elem = false).
    { unfold promoted. rewrite Hn. simpl. by rewrite andb_false_r. }
    rewrite Hp, app_nil_r in Hids.
    split; rewrite ?Hids, ?Hseen; simpl; try done.
    rewrite Hskip. destruct (bold_seen elements k); [done|].
    simpl in *. by rewrite andb_true_r in Ht.
  - rewrite Hp in Hids. apply promoted_bold_seen in Hp as (Hb & Hs & _).
    split; rewrite ?Hids, ?Hseen; simpl.
    + by rewrite Hskip, Hs.
    + rewrite Hadd, length_app. simpl. lia.
    + rewrite dom_insert_L, Hdom, list_to_set_app_L. simpl. set_solver.
  - rewrite Hp, app_nil_r in Hids.
    destruct (append_content_fields st (Elem.text elem))
      as (_ & _ & _ & Hf & Ha).
    split; rewrite ?Hids, ?Hseen.
    + rewrite Hf, Hskip.
      destruct (bold_seen elements k); [done|].
      simpl in *. by rewrite andb_true_r in Ht.
    + by rewrite Ha.
    + rewrite append_content_dom; [done|]. by destruct Hok.
Qed.

(** The main loop never raises and keeps its invariants. *)
Lemma loop_upto_ok elements root k :
  k ≤ length elements →
  ∃ st, loop_upto elements root k = Returns st
        ∧ stack_ok root st ∧ tracks elements root k st.
Proof.
  apply (loop_upto_ind elements root
           (λ k st, stack_ok root st ∧ tracks elements root k st)).
  - split; [apply initial_state_stack_ok | apply initial_state_tracks].
  - intros i elem st Hi _ [Hok Htr].
    destruct (loop_body_iteration elements root i elem st Hok
                (tr_skipped _ _ _ _ Htr)) as (st' & Hst' & Hit).
    exists st'. split; [done|]. split.
    + by eapply iteration_stack_ok.
    + by eapply iteration_tracks.
Qed.

Lemma loop_upto_iteration elements root k elem :
  elements !! k = Some elem →
  ∃ st st',
    loop_upto elements root k = Returns st
    ∧ loop_upto elements root (S k) = Returns st'
    ∧ stack_ok root st ∧ tracks elements root k st
    ∧ iteration elements root k elem st st'.
Proof.
  intros Hk.
  destruct (loop_upto_ok elements root k) as (st & Hst & Hok & Htr).
  { apply lookup_lt_Some in Hk. lia. }
  destruct (loop_body_iteration elements root k elem st Hok
              (tr_skipped _ _ _ _ Htr)) as (st' & Hst' & Hit).
  exists st, st'. split_and!; try done.
  by rewrite (loop_upto_S _ _ _ _ Hk), Hst.
Qed.

Lemma build_returns elements root :
  ∃ st, loop_upto elements root (length elements) = Returns st
        ∧ build elements root = Returns (clean_up (graph st))
        ∧ stack_ok root st ∧ tracks elements root (length elements) st.
Proof.
  destruct (loop_upto_ok elements root (length elements))
    as (st & Hst & Hok & Htr); [done|].
  exists st. split_and!; try done.
  by rewrite build_loop_upto, Hst.
Qed.

(** ** Incoming edges *)

Lemma in_degree_0 g n : in_degree g n = 0 ↔ ∀ p, (p, n) ∉ edges g.
Proof.
  unfold in_degree. rewrite size_empty_iff. split.
  - intros He p Hp.
    assert (Hin : (p, n) ∈ filter (λ e : string * string, e.2 = n) (edges g)).
    { by apply elem_of_filter. }
    rewrite He in Hin. set_solver.
  - intros Hno. apply set_equiv. intros [p c]. split; [|set_solver].
    intros [Hc Hin]%elem_of_filter. simpl in Hc. subst c. by destruct (Hno p).
Qed.

Lemma in_degree_add_edge_other g p c n :
  c ≠ n → in_degree (add_edge g p c) n = in_degree g n.
Proof.
  intros Hne. unfold in_degree, add_edge. simpl.
  rewrite filter_union_L, filter_singleton_False_L by (apply _ || (simpl; congruence)).
  by rewrite (left_id_L ∅ (∪)).
Qed.

Lemma in_degree_add_edge_new g p c :
  (p, c) ∉ edges g →
  in_degree (add_edge g p c) c = S (in_degree g c).
Proof.
  intros Hnew. unfold in_degree, add_edge. simpl.
  rewrite filter_union_L, filter_singleton_True_L by (apply _ || (simpl; congruence)).
  rewrite size_union, size_singleton; [done|].
  apply disjoint_singleton_l. intros [_ Hin]%elem_of_filter. done.
Qed.

Lemma in_degree_add_edge_old g p c n :
  (p, c) ∈ edges g → in_degree (add_edge g p c) n = in_degree g n.
Proof.
  intros Hold. unfold in_degree, add_edge. simpl.
  f_equal. f_equal. set_solver.
Qed.

Lemma in_degree_add_node g n attrs v :
  in_degree (add_node g n attrs) v = in_degree g v.
Proof. done. Qed.

(** ** The tree invariant *)

Lemma initial_state_tree_ok root : tree_ok root (initial_state empty_graph root).
Proof.
  split; simpl.
  - apply NoDup_singleton.
  - intros above n below E.
    destruct above as [|x above]; simpl in E.
    + injection E as <- <-. by rewrite lookup_insert_eq.
    + injection E as _ E. by destruct above.
  - set_solver.
  - apply in_degree_0. set_solver.
  - intros n. rewrite dom_insert_L. set_solver.
Qed.

Lemma append_content_level st text n :
  Node.level <$> nodes (graph (append_content st text)) !! n
  = Node.level <$> nodes (graph st) !! n.
Proof.
  unfold append_content.
  destruct (nodes (graph st) !! current_node st) as [a|] eqn:E; [|done].
  simpl. destruct (decide (current_node st = n)) as [<-|Hne].
  - by rewrite lookup_insert_eq, E.
  - by rewrite lookup_insert_ne.
Qed.

Lemma level_edge (m m' : gmap string Node.t) p c :
  Node.level <$> m' !! p = Node.level <$> m !! p →
  Node.level <$> m' !! c = Node.level <$> m !! c →
  (∃ ap ac, m !! p = Some ap ∧ m !! c = Some ac
            ∧ Node.level ac = Node.level ap + 1) →
  ∃ ap ac, m' !! p = Some ap ∧ m' !! c = Some ac
           ∧ Node.level ac = Node.level ap + 1.
Proof.
  intros Hp Hc (ap & ac & Ep & Ec & Hl). rewrite Ep in Hp. rewrite Ec in Hc.
  destruct (m' !! p) as [ap'|]; [|done]. destruct (m' !! c) as [ac'|]; [|done].
  simpl in *. exists ap', ac'. split_and!; try done.
  injection Hp as ->. injection Hc as ->. done.
Qed.

Lemma iteration_tree_ok elements root i elem st st' :
  iteration elements root i elem st st' →
  (promoted elements i elem = true →
   Elem.text elem ∉ dom (nodes (graph st))) →
  stack_ok root st → tree_ok root st → tree_ok root st'.
Proof.
  intros Hit Hfresh Hok [Hnd Hdepth Hedge Hroot Hparent].
  pose proof Hok as [Hbot Hstack Hcur Hedges].
  assert (Hrootdom : root ∈ dom (nodes (graph st))).
  { apply Hstack. destruct (node_stack st) as [|x l] using rev_ind; [done|].
    rewrite last_snoc in Hbot. injection Hbot as ->. set_solver. }
  destruct Hit as [Hb Hs|Ht Hn|parent below Hp Hsel Hsuf|Ht Hn Hp].
  - by split.
  - by split.
  - specialize (Hfresh Hp). unfold push_heading.
    remember (Elem.text elem) as t eqn:Et in *. clear Et.
    destruct Hsuf as [above Hstk].
    assert (Hsub : ∀ n, n ∈ parent :: below → n ∈ dom (nodes (graph st))).
    { intros n Hn. apply Hstack. rewrite Hstk. apply elem_of_app. by right. }
    assert (Hnoedge : ∀ p, (p, t) ∉ edges (graph st)).
    { intros p Hpt. by destruct (Hedges p t Hpt). }
    split; simpl.
    + apply NoDup_cons. split.
      * intros Hin. apply Hfresh. by apply Hsub.
      * rewrite Hstk in Hnd. by apply NoDup_app in Hnd as (_ & _ & ?).
    + intros above' n below' E. destruct above' as [|x above']; simpl in E.
      * injection E as <- <-. by rewrite lookup_insert_eq.
      * injection E as _ E.
        assert (n ≠ t).
        { intros ->. apply Hfresh, Hsub. rewrite E. set_solver. }
        rewrite lookup_insert_ne by done.
        apply (Hdepth (above ++ above')). by rewrite Hstk, E, <- app_assoc.
    + intros p c Hpc. apply elem_of_union in Hpc as [Hpc|Hpc].
      * apply elem_of_singleton in Hpc as [= -> ->].
        assert (parent ≠ t).
        { intros ->. apply Hfresh, Hsub. by left. }
        pose proof (Hdepth above parent below Hstk) as Hlev.
        destruct (nodes (graph st) !! parent) as [ap|] eqn:Ep; [|done].
        eexists ap, _. rewrite lookup_insert_ne, lookup_insert_eq by done.
        split_and!; try done. simpl in *. injection Hlev as ->. lia.
      * destruct (Hedges p c Hpc) as [Hpd Hcd].
        assert (p ≠ t) by (intros ->; done).
        assert (c ≠ t) by (intros ->; done).
        rewrite !lookup_insert_ne by done. by apply Hedge.
    + rewrite in_degree_add_edge_other; [done|]. by intros ->.
    + intros n Hn Hne. rewrite dom_insert_L in Hn.
      destruct (decide (n = t)) as [->|Hnt].
      * rewrite in_degree_add_edge_new by apply Hnoedge.
        rewrite in_degree_add_node. f_equal. by apply in_degree_0.
      * rewrite in_degree_add_edge_other by done.
        rewrite in_degree_add_node. apply Hparent; [set_solver|done].
  - destruct (append_content_fields st (Elem.text elem))
      as (He & Hc & Hs & _ & _).
    split.
    + by rewrite Hs.
    + intros above n below. rewrite Hs, append_content_level. apply Hdepth.
    + intros p c. rewrite He. intros Hpc.
      apply (level_edge (nodes (graph st)));
        [apply append_content_level..|by apply Hedge].
    + unfold in_degree. by rewrite He.
    + intros n. rewrite append_content_dom by done.
      unfold in_degree. rewrite He. apply Hparent.
Qed.

(** ** Documents whose headings are all different *)

Lemma heading_ids_upto_prefix elements k k' :
  k ≤ k' → heading_ids_upto elements k `prefix_of` heading_ids_upto elements k'.
Proof.
  intros Hk. unfold heading_ids_upto.
  replace k' with (k + (k' - k)) by lia.
  rewrite seq_app, omap_app. by apply prefix_app_r.
Qed.

Lemma heading_fresh elements root k elem st :
  NoDup (root :: heading_ids elements) →
  elements !! k = Some elem →
  tracks elements root k st →
  promoted elements k elem = true →
  Elem.text elem ∉ dom (nodes (graph st)).
Proof.
  intros Hnd Hk Htr Hp. rewrite (tr_dom _ _ _ _ Htr).
  assert (Hpre : heading_ids_upto elements (S k) `prefix_of` heading_ids elements).
  { apply heading_ids_upto_prefix. apply lookup_lt_Some in Hk. lia. }
  rewrite (heading_ids_upto_S _ _ _ Hk), Hp in Hpre.
  destruct Hpre as [rest Hrest]. rewrite Hrest in Hnd.
  apply NoDup_cons in Hnd as [Hroot Hnd].
  apply NoDup_app in Hnd as (Hnd & _ & _).
  apply NoDup_app in Hnd as (_ & Hdis & _).
  intros [Hin|Hin]%elem_of_union.
  - apply elem_of_singleton in Hin. apply Hroot. rewrite <- Hin. set_solver.
  - apply elem_of_list_to_set in Hin. apply (Hdis _ Hin). set_solver.
Qed.

Lemma loop_upto_tree_ok elements root k :
  NoDup (root :: heading_ids elements) →
  k ≤ length elements →
  ∃ st, loop_upto elements root k = Returns st
        ∧ stack_ok root st ∧ tracks elements root k st ∧ tree_ok root st.
Proof.
  intros Hnd.
  apply (loop_upto_ind elements root
           (λ k st, stack_ok root st ∧ tracks elements root k st
                    ∧ tree_ok root st)).
  - split_and!; [apply initial_state_stack_ok | apply initial_state_tracks
                 | apply initial_state_tree_ok].
  - intros i elem st Hi _ (Hok & Htr & Htree).
    destruct (loop_body_iteration elements root i elem st Hok
                (tr_skipped _ _ _ _ Htr)) as (st' & Hst' & Hit).
    exists st'. split; [done|]. split_and!.
    + by eapply iteration_stack_ok.
    + by eapply iteration_tracks.
    + eapply iteration_tree_ok; [done| |done..].
      by eapply heading_fresh.
Qed.

(** ** The clean-up *)

Lemma clean_up_lookup g n :
  nodes (clean_up g) !! n = clean <$> nodes g !! n.
Proof. unfold clean_up. simpl. apply lookup_fmap. Qed.

Lemma clean_up_dom g : dom (nodes (clean_up g)) = dom (nodes g).
Proof. unfold clean_up. simpl. apply dom_fmap_L. Qed.

Lemma clean_up_in_degree g n : in_degree (clean_up g) n = in_degree g n.
Proof. done. Qed.

Lemma clean_up_level g n :
  Node.level <$> nodes (clean_up g) !! n = Node.level <$> nodes g !! n.
Proof. rewrite clean_up_lookup. by destruct (nodes g !! n). Qed.

Lemma Returns_inj {A} (a b : A) : Returns a = Returns b → a = b.
Proof. by intros [= ->]. Qed.

Lemma level_stable elements root i t lev st_i :
  NoDup (root :: heading_ids elements) →
  loop_upto elements root i = Returns st_i →
  Node.level <$> nodes (graph st_i) !! t = Some lev →
  ∀ k st_k, i ≤ k → k ≤ length elements →
    loop_upto elements root k = Returns st_k →
    Node.level <$> nodes (graph st_k) !! t = Some lev.
Proof.
  intros Hnd Hi Hlev k. induction k as [|k IH]; intros st_k Hik Hk Hstk.
  - assert (i = 0) as -> by lia. rewrite Hi in Hstk.
    by apply Returns_inj in Hstk as <-.
  - destruct (decide (i = S k)) as [->|Hne].
    { rewrite Hi in Hstk. by apply Returns_inj in Hstk as <-. }
    destruct (lookup_lt_is_Some_2 elements k) as [elem Helem]; [lia|].
    destruct (loop_upto_iteration elements root k elem Helem)
      as (st & st' & Hst & Hst' & Hok & Htr & Hit).
    rewrite Hstk in Hst'. apply Returns_inj in Hst' as <-.
    specialize (IH st ltac:(lia) ltac:(lia) Hst).
    destruct Hit as [Hb Hs|Ht Hn|parent below Hp Hsel Hsuf|Ht Hn Hp].
    + done.
    + done.
    + pose proof (heading_fresh _ _ _ _ _ Hnd Helem Htr Hp) as Hfresh.
      simpl. rewrite lookup_insert_ne; [done|].
      intros E. apply Hfresh. rewrite E. apply elem_of_dom.
      by destruct (nodes (graph st) !! t).
    + by rewrite append_content_level.
Qed.

(** ** Text: prefixes, suffixes and trimming *)

Lemma chars_app s1 s2 : chars (s1 +:+ s2) = chars s1 ++ chars s2.
Proof. induction s1 as [|c s1 IH]; simpl; [done|]. by rewrite IH. Qed.

Lemma text_of_chars s : text_of (chars s) = s.
Proof. apply String.string_of_list_ascii_of_string. Qed.

Lemma chars_text_of l : chars (text_of l) = l.
Proof. apply String.list_ascii_of_string_of_list_ascii. Qed.

Lemma chars_inj s1 s2 : chars s1 = chars s2 → s1 = s2.
Proof. intros E. by rewrite <- (text_of_chars s1), E, text_of_chars. Qed.

Lemma startswith_chars_spec l p :
  startswith_chars l p = true ↔ ∃ r, l = p ++ r.
Proof.
  revert l. induction p as [|c p IH]; intros l; simpl.
  - split; [intros _; by exists l | done].
  - destruct l as [|d l]; [split; [done|intros [r Hr]; discriminate]|].
    rewrite andb_true_iff, Ascii.eqb_eq, IH. split.
    + intros [-> [r ->]]. eauto.
    + intros [r [= -> ->]]. eauto.
Qed.

Lemma startswith_spec s p : startswith s p = true ↔ ∃ r, s = p +:+ r.
Proof.
  unfold startswith. rewrite startswith_chars_spec. split.
  - intros [r E]. exists (text_of r). apply chars_inj.
    by rewrite chars_app, chars_text_of.
  - intros [r ->]. exists (chars r). apply chars_app.
Qed.

Lemma endswith_spec s p : endswith s p = true ↔ ∃ q, s = q +:+ p.
Proof.
  unfold endswith. rewrite startswith_chars_spec. split.
  - intros [r E]. exists (text_of (rev r)). apply chars_inj.
    rewrite chars_app, chars_text_of.
    by rewrite <- (rev_involutive (chars s)), E, rev_app_distr, rev_involutive.
  - intros [q ->]. exists (rev (chars q)). by rewrite chars_app, rev_app_distr.
Qed.

Lemma lstrip_chars_head l :
  lstrip_chars l = []
  ∨ ∃ c r, lstrip_chars l = c :: r ∧ is_space c = false.
Proof.
  induction l as [|c l IH]; simpl; [by left|].
  destruct (is_space c) eqn:Hc; [done|]. right. eauto.
Qed.

Lemma lstrip_chars_nonspace c l :
  is_space c = false → lstrip_chars (c :: l) = c :: l.
Proof. intros Hc. simpl. by rewrite Hc. Qed.

Lemma lstrip_chars_idem l : lstrip_chars (lstrip_chars l) = lstrip_chars l.
Proof.
  destruct (lstrip_chars_head l) as [-> | (c & r & -> & Hc)]; [done|].
  by apply lstrip_chars_nonspace.
Qed.

Lemma lstrip_chars_snoc l c :
  is_space c = false → lstrip_chars (l ++ [c]) = lstrip_chars l ++ [c].
Proof.
  intros Hc. induction l as [|d l IH]; simpl; [by rewrite Hc|].
  destruct (is_space d); [exact IH | reflexivity].
Qed.

Lemma rstrip_chars_idem l : rstrip_chars (rstrip_chars l) = rstrip_chars l.
Proof.
  unfold rstrip_chars. by rewrite rev_involutive, lstrip_chars_idem.
Qed.

Lemma lstrip_rstrip_lstrip l :
  lstrip_chars (rstrip_chars (lstrip_chars l)) = rstrip_chars (lstrip_chars l).
Proof.
  destruct (lstrip_chars_head l) as [-> | (c & r & -> & Hc)]; [done|].
  unfold rstrip_chars. cbn [rev].
  rewrite lstrip_chars_snoc, rev_app_distr by done. cbn [rev app].
  by apply lstrip_chars_nonspace.
Qed.

Lemma strip_idem s : strip (strip s) = strip s.
Proof.
  unfold strip. rewrite chars_text_of.
  by rewrite lstrip_rstrip_lstrip, rstrip_chars_idem.
Qed.

(** A text that ends with a colon is no standalone number. *)
Lemma numbered_item_not_colon text :
  endswith text ":" = true → re_match_numbered_item text = false.
Proof.
  intros [q ->]%endswith_spec.
  destruct (re_match_numbered_item (q +:+ ":")) eqn:E; [|done].
  apply re_match_numbered_item_shape in E as (ds & ws & _ & _ & Hws & E).
  rewrite chars_app in E. simpl in E.
  destruct ws as [|w ws _] using rev_ind.
  - change (ds ++ ["."%char]) with (ds ++ ["."%char]) in E.
    apply app_inj_tail in E as [_ E]. discriminate.
  - rewrite app_comm_cons, app_assoc in E.
    apply app_inj_tail in E as [_ <-].
    apply Forall_app in Hws as [_ Hw]. by inversion Hw.
Qed.

(** ** Content: the graph against the ledger *)

Lemma ledger_upto_S elements root k elem :
  elements !! k = Some elem →
  ledger_upto elements root (S k)
  = ledger_step elements k elem (ledger_upto elements root k).
Proof.
  intros Hk. unfold ledger_upto. rewrite seq_S, foldl_app. simpl.
  by rewrite Hk.
Qed.

Lemma accumulate_snoc texts text :
  accumulate (texts ++ [text]) = accumulate texts +:+ " " +:+ text.
Proof. unfold accumulate. by rewrite foldl_app. Qed.

Lemma initial_state_agrees elements root :
  agrees (initial_state empty_graph root) (ledger_upto elements root 0).
Proof.
  split; [done|]. intros n. simpl.
  destruct (decide (root = n)) as [->|Hne].
  - by rewrite lookup_insert_eq, lookup_singleton_eq.
  - by rewrite lookup_insert_ne, lookup_singleton_ne.
Qed.

Lemma iteration_agrees elements root k elem st st' L :
  iteration elements root k elem st st' →
  agrees st L → agrees st' (ledger_step elements k elem L).
Proof.
  intros Hit [Hcur Hcontent]. unfold ledger_step.
  destruct Hit as [Hb Hs|Ht Hn|parent below Hp Hsel Hsuf|Ht Hn Hp].
  - rewrite Hb, Hs. by split.
  - rewrite Ht, Hn. by split.
  - rewrite Hp. apply promoted_bold_seen in Hp as (Hb & Hs & Hn & _).
    rewrite Hb, Hs, Hn. cbn [negb andb]. split; [done|]. intros n.
    unfold push_heading, add_edge, add_node. cbn [graph nodes assigned].
    destruct (decide (Elem.text elem = n)) as [->|Hne].
    + by rewrite !lookup_insert_eq.
    + rewrite !lookup_insert_ne by done. apply Hcontent.
  - rewrite Ht, Hn, Hp. unfold append_content.
    pose proof (Hcontent (current_node st)) as Hc.
    destruct (nodes (graph st) !! current_node st) as [a|] eqn:Ea;
      cbn [graph nodes assigned active current_node].
    + split; [done|]. intros n. rewrite <- Hcur.
      cbn [graph nodes assigned active current_node].
      destruct (decide (current_node st = n)) as [<-|Hne].
      * rewrite lookup_insert_eq, lookup_alter_eq.
        destruct (assigned L !! current_node st) as [texts|]; [|done].
        simpl in *. injection Hc as ->. by rewrite accumulate_snoc.
      * rewrite lookup_insert_ne, lookup_alter_ne by done. apply Hcontent.
    + split; [done|]. intros n. rewrite <- Hcur.
      cbn [graph nodes assigned active current_node].
      destruct (decide (current_node st = n)) as [<-|Hne].
      * rewrite lookup_alter_eq, Ea.
        by destruct (assigned L !! current_node st).
      * rewrite lookup_alter_ne by done. apply Hcontent.
Qed.

Lemma loop_upto_agrees elements root k :
  k ≤ length elements →
  ∃ st, loop_upto elements root k = Returns st
        ∧ agrees st (ledger_upto elements root k).
Proof.
  intros Hk.
  destruct (loop_upto_ind elements root
              (λ k st, (stack_ok root st ∧ tracks elements root k st)
                       ∧ agrees st (ledger_upto elements root k)))
    with (k := k) as (st & Hst & _ & Hag); [| |done|by eauto].
  - split_and!; [apply initial_state_stack_ok | apply initial_state_tracks
                 | apply initial_state_agrees].
  - intros i elem st Hi _ [[Hok Htr] Hag].
    destruct (loop_body_iteration elements root i elem st Hok
                (tr_skipped _ _ _ _ Htr)) as (st' & Hst' & Hit).
    exists st'. split; [done|]. split_and!.
    + by eapply iteration_stack_ok.
    + by eapply iteration_tracks.
    + rewrite (ledger_upto_S _ _ _ _ Hi). by eapply iteration_agrees.
Qed.

Lemma clean_content attrs :
  Node.content (clean attrs) = final_content_of (Node.content attrs).
Proof. done. Qed.

Lemma final_content_of_nonempty raw : final_content_of raw ≠ "".
Proof. unfold final_content_of. by case_bool_decide. Qed.

Lemma final_content_of_trimmed raw :
  strip (final_content_of raw) = final_content_of raw.
Proof.
  unfold final_content_of. case_bool_decide; [by vm_compute|].
  apply strip_idem.
Qed.

(** A heading whose text is not promoted again keeps an empty ledger entry
    while another node is active. *)
Lemma ledger_stays_empty elements root t i :
  assigned (ledger_upto elements root i) !! t = Some [] →
  active (ledger_upto elements root i) ≠ t →
  (∀ j elem, i ≤ j → elements !! j = Some elem →
             promoted elements j elem = true → Elem.text elem ≠ t) →
  ∀ k, i ≤ k → k ≤ length elements →
    assigned (ledger_upto elements root k) !! t = Some []
    ∧ active (ledger_upto elements root k) ≠ t.
Proof.
  intros Hempty Hactive Hlater k. induction k as [|k IH]; intros Hik Hk.
  - by assert (i = 0) as -> by lia.
  - destruct (decide (i = S k)) as [->|Hne]; [done|].
    destruct IH as [He Ha]; [lia..|].
    destruct (lookup_lt_is_Some_2 elements k) as [elem Helem]; [lia|].
    rewrite (ledger_upto_S _ _ _ _ Helem). unfold ledger_step.
    destruct (Elem.is_bold elem && negb (bold_seen elements k)); [done|].
    destruct (re_match_numbered_item (Elem.text elem)); [done|].
    destruct (promoted elements k elem) eqn:Hp; simpl.
    + assert (Elem.text elem ≠ t) by (apply (Hlater k); [lia|done..]).
      by rewrite lookup_insert_ne.
    + by rewrite lookup_alter_ne.
Qed.

(** ** The conditions of the loop body, in words *)

Lemma bold_seen_true elements i :
  bold_seen elements i = true
  ↔ ∃ j elem, j < i ∧ elements !! j = Some elem ∧ Elem.is_bold elem = true.
Proof.
  unfold bold_seen. rewrite existsb_exists. split.
  - intros (elem & Hin & Hb). apply list_elem_of_In, elem_of_take in Hin
      as (j & Hj & Hlt). eauto.
  - intros (j & elem & Hlt & Hj & Hb). exists elem. split; [|done].
    apply list_elem_of_In, elem_of_take. eauto.
Qed.

Lemma bold_seen_false elements i :
  bold_seen elements i = false
  ↔ ∀ j elem, j < i → elements !! j = Some elem → Elem.is_bold elem = false.
Proof.
  split.
  - intros Hs j elem Hlt Hj. destruct (Elem.is_bold elem) eqn:Hb; [|done].
    rewrite <- Hs. symmetry. apply bold_seen_true. eauto.
  - intros Hall. destruct (bold_seen elements i) eqn:Hs; [|done].
    apply bold_seen_true in Hs as (j & elem & Hlt & Hj & Hb).
    by rewrite (Hall j elem Hlt Hj) in Hb.
Qed.

Lemma next_starts_with_colon_spec elements i :
  next_starts_with_colon elements i = true
  ↔ ∃ next rest, elements !! (i + 1) = Some next
                 ∧ Elem.is_bold next = false
                 ∧ Elem.text next = ":" +:+ rest.
Proof.
  unfold next_starts_with_colon. split.
  - case_bool_decide as Hi; [|done].
    destruct (elements !! (i + 1)) as [next|]; [|done].
    destruct (Elem.is_bold next) eqn:Hb; [done|]. simpl.
    intros [rest ?]%startswith_spec. eauto.
  - intros (next & rest & Hnext & Hb & Htext).
    rewrite bool_decide_eq_true_2 by (apply lookup_lt_Some in Hnext; lia).
    rewrite Hnext, Hb. simpl. apply startswith_spec. eauto.
Qed.

Lemma first_regular_Some elements fs :
  first_regular elements = Some fs
  ↔ ∃ before elem after,
      elements = before ++ elem :: after
      ∧ Forall (λ e, Elem.is_bold e = true) before
      ∧ Elem.is_bold elem = false ∧ fs = Elem.font_size elem.
Proof.
  induction elements as [|e elements IH]; simpl.
  - split; [done|]. intros (before & ? & ? & E & _). by destruct before.
  - destruct (Elem.is_bold e) eqn:Hb; simpl.
    + rewrite IH. split.
      * intros (before & elem & after & -> & Hall & Hn & ->).
        exists (e :: before), elem, after. split_and!; try done.
        by constructor.
      * intros (before & elem & after & E & Hall & Hn & ->).
        destruct before as [|b before]; simpl in E.
        -- injection E as -> ->. congruence.
        -- injection E as -> ->. inversion Hall; subst.
           exists before, elem, after. done.
    + split.
      * intros [= <-]. exists [], e, elements. split_and!; try done.
      * intros (before & elem & after & E & Hall & Hn & ->).
        destruct before as [|b before]; simpl in E.
        -- by injection E as -> ->.
        -- injection E as -> ->. inversion Hall; subst. congruence.
Qed.

Lemma first_regular_None elements :
  first_regular elements = None
  ↔ Forall (λ e, Elem.is_bold e = true) elements.
Proof.
  induction elements as [|e elements IH]; simpl.
  - split; [constructor|done].
  - destruct (Elem.is_bold e) eqn:Hb; simpl.
    + rewrite IH. split; [by constructor|by inversion 1].
    + split; [done|]. inversion 1; congruence.
Qed.

Lemma qualifies_spec elements i elem :
  qualifies elements i elem = true
  ↔ (regular_font_size elements < Elem.font_size elem)%Q
    ∨ (∃ before, Elem.text elem = before +:+ ":")
    ∨ (∃ next rest, elements !! (i + 1) = Some next
                    ∧ Elem.is_bold next = false
                    ∧ Elem.text next = ":" +:+ rest).
Proof.
  unfold qualifies.
  rewrite !orb_true_iff, Qgtb_lt, endswith_spec, next_starts_with_colon_spec.
  tauto.
Qed.

Lemma push_heading_nodes_added st elem parent stack :
  nodes_added (push_heading st elem parent stack) = nodes_added st + 1.
Proof. done. Qed.

(** ** The shape of the produced graph *)

(** C4, counterexample.  With the heading "Y:" inserted twice, under "X:"
    and under the root, the node "Y:" has two incoming edges, so the property
    that every node other than the root has exactly one does not hold for
    every input. *)
Lemma one_parent_each_repeated_heading :
  ¬ ∃ g, build repeated_heading_elements "doc" = Returns g
         ∧ one_parent_each g "doc".
Proof.
  intros (g & Hb & _ & _ & Hall).
  assert (Hg : g = graph_of (build repeated_heading_elements "doc"))
    by (by rewrite Hb).
  assert (Hdeg : in_degree (graph_of (build repeated_heading_elements "doc"))
                   "Y:" = 2) by (vm_compute; reflexivity).
  rewrite <- Hg in Hdeg. rewrite Hall in Hdeg; [discriminate| |done].
  rewrite Hg. apply elem_of_dom. vm_compute. by eexists.
Qed.

(** C4, amended.  For every element sequence whose promoted heading texts
    are pairwise different and different from the root identifier, the
    builder returns a graph whose nodes are the root and the headings, in
    which the root has no incoming edge and every other node has exactly
    one. *)
Theorem one_parent_each_distinct_headings elements root :
  NoDup (root :: heading_ids elements) →
  ∃ g, build elements root = Returns g
       ∧ one_parent_each g root
       ∧ dom (nodes g) = {[ root ]} ∪ list_to_set (heading_ids elements).
Proof.
  intros Hnd.
  destruct (loop_upto_tree_ok elements root (length elements) Hnd)
    as (st & Hst & Hok & Htr & Htree); [done|].
  exists (clean_up (graph st)). split; [by rewrite build_loop_upto, Hst|].
  unfold one_parent_each.
  rewrite clean_up_dom, (tr_dom _ _ _ _ Htr). split; [|done].
  split; [|split].
  - apply elem_of_union. left. by apply elem_of_singleton.
  - rewrite clean_up_in_degree. apply (tree_root _ _ Htree).
  - intros n Hn Hne. rewrite clean_up_in_degree.
    apply (tree_parent _ _ Htree); [|done]. by rewrite (tr_dom _ _ _ _ Htr).
Qed.

Lemma one_parent_each_distinct_headings_witness :
  ∃ g, build (tie_break_elements "Title") "doc" = Returns g
       ∧ one_parent_each g "doc"
       ∧ dom (nodes g)
         = {[ "doc" ]}
           ∪ list_to_set (heading_ids (tie_break_elements "Title")).
Proof.
  apply one_parent_each_distinct_headings.
  apply (bool_decide_unpack _). vm_compute. exact I.
Defined.

(** C5, counterexample.  In the same document the edge from "X:" to "Y:"
    remains after "Y:" is inserted again at level 1, so it joins two nodes of
    level 1: the level of a child is not always one more than the level of
    its parent. *)
Lemma levels_follow_edges_repeated_heading :
  ¬ ∃ g, build repeated_heading_elements "doc" = Returns g
         ∧ levels_follow_edges g "doc".
Proof.
  intros (g & Hb & _ & Hall).
  assert (Hg : g = graph_of (build repeated_heading_elements "doc"))
    by (by rewrite Hb).
  destruct (Hall "X:" "Y:") as (ap & ac & Hp & Hc & Hlev).
  { rewrite Hg. vm_compute. reflexivity. }
  rewrite Hg in Hp, Hc. vm_compute in Hp, Hc.
  injection Hp as <-. injection Hc as <-. discriminate.
Qed.

(** C5, amended.  For every element sequence whose promoted heading texts
    are pairwise different and different from the root identifier: the root
    has level 0, the level of the node of every promoted heading is the
    depth of the stack at its insertion, before the push, and along every
    edge the level grows by one. *)
Theorem levels_distinct_headings elements root :
  NoDup (root :: heading_ids elements) →
  ∃ g, build elements root = Returns g
       ∧ levels_follow_edges g root
       ∧ ∀ i elem,
           elements !! i = Some elem →
           promoted elements i elem = true →
           ∃ st' below,
             loop_upto elements root (S i) = Returns st'
             ∧ node_stack st' = Elem.text elem :: below
             ∧ Node.level <$> nodes g !! Elem.text elem
               = Some (length below).
Proof.
  intros Hnd.
  destruct (loop_upto_tree_ok elements root (length elements) Hnd)
    as (st & Hst & Hok & Htr & Htree); [done|].
  exists (clean_up (graph st)). split; [by rewrite build_loop_upto, Hst|].
  split; [split|].
  - pose proof (ok_bottom _ _ Hok) as Hbot.
    destruct (node_stack st) as [|x above _] eqn:Hstack using rev_ind; [done|].
    rewrite last_snoc in Hbot. injection Hbot as ->.
    pose proof (tree_depth _ _ Htree above root [] Hstack) as Hlev.
    rewrite <- clean_up_level in Hlev.
    destruct (nodes (clean_up (graph st)) !! root) as [a|]; [|done].
    exists a. split; [done|]. by injection Hlev.
  - intros p c Hpc.
    apply (level_edge (nodes (graph st))); [apply clean_up_level..|].
    by apply (tree_edges _ _ Htree).
  - intros i elem Hi Hp.
    destruct (loop_upto_tree_ok elements root (S i) Hnd)
      as (st' & Hst' & Hok' & Htr' & Htree').
    { apply lookup_lt_Some in Hi. lia. }
    destruct (loop_upto_iteration elements root i elem Hi)
      as (st0 & st1 & Hst0 & Hst1 & Hok0 & Htr0 & Hit).
    rewrite Hst' in Hst1. apply Returns_inj in Hst1 as <-.
    assert (Hstack : ∃ below, node_stack st' = Elem.text elem :: below).
    { destruct Hit as [Hb Hs|Ht Hn|parent below Hp' Hsel Hsuf|Ht Hn Hp'].
      - apply promoted_bold_seen in Hp as (_ & ? & _). congruence.
      - apply promoted_bold_seen in Hp as (_ & _ & ? & _). congruence.
      - simpl. eauto.
      - congruence. }
    destruct Hstack as [below Hstack].
    exists st', below. split_and!; try done.
    rewrite clean_up_level.
    apply (level_stable elements root (S i) _ _ st' Hnd Hst'
             (tree_depth _ _ Htree' [] _ _ Hstack) (length elements) st);
      [apply lookup_lt_Some in Hi; lia|done|done].
Qed.

Lemma levels_distinct_headings_witness :
  ∃ g, build (tie_break_elements "Title") "doc" = Returns g
       ∧ levels_follow_edges g "doc"
       ∧ ∀ i elem,
           tie_break_elements "Title" !! i = Some elem →
           promoted (tie_break_elements "Title") i elem = true →
           ∃ st' below,
             loop_upto (tie_break_elements "Title") "doc" (S i) = Returns st'
             ∧ node_stack st' = Elem.text elem :: below
             ∧ Node.level <$> nodes g !! Elem.text elem
               = Some (length below).
Proof.
  apply levels_distinct_headings.
  apply (bool_decide_unpack _). vm_compute. exact I.
Defined.

(** ** The tie-break scenario *)

(** C1, counterexample.  On the literal sequence, with the title "Title"
    and the root "doc", the builder does not make the two sections
    siblings: there is no edge from the root to "Section B:". *)
Lemma tie_break_not_siblings :
  ¬ ∃ g, build (tie_break_elements "Title") "doc" = Returns g
         ∧ sections_are_siblings g "doc".
Proof.
  intros (g & Hb & _ & Hrb & _).
  assert (Hg : g = graph_of (build (tie_break_elements "Title") "doc"))
    by (by rewrite Hb).
  assert (Hno : bool_decide
                  (("doc", "Section B:")
                     ∈ edges (graph_of
                                (build (tie_break_elements "Title") "doc")))
                = false) by (vm_compute; reflexivity).
  apply bool_decide_eq_false in Hno. apply Hno. by rewrite <- Hg.
Qed.

(** C1, amended.  On the literal sequence, whatever the title and the root
    are called, the builder returns a graph with exactly two edges, from the
    root to "Section A:" and from "Section A:" to "Section B:": the
    non-underlined "Section B:" nests under the underlined "Section A:" of
    the same size, at level 2, and the two nodes hold "body1" and
    "body2". *)
Theorem tie_break_nests title root :
  ∃ g, build (tie_break_elements title) root = Returns g
       ∧ edges g = {[ (root, "Section A:"); ("Section A:", "Section B:") ]}
       ∧ nodes g !! "Section A:"
         = Some {| Node.level := 1; Node.content := "body1";
                   Node.font_size := 12; Node.is_underlined := true |}
       ∧ nodes g !! "Section B:"
         = Some {| Node.level := 2; Node.content := "body2";
                   Node.font_size := 12; Node.is_underlined := false |}.
Proof.
  assert (Hreg : regular_font_size (tie_break_elements title) = 10%Q)
    by reflexivity.
  assert (HA : re_match_numbered_item "Section A:" = false)
    by (vm_compute; reflexivity).
  assert (HB : re_match_numbered_item "Section B:" = false)
    by (vm_compute; reflexivity).
  assert (H1 : re_match_numbered_item "body1" = false)
    by (vm_compute; reflexivity).
  assert (H2 : re_match_numbered_item "body2" = false)
    by (vm_compute; reflexivity).
  assert (Hs1 : strip ("" +:+ " " +:+ "body1") = "body1")
    by (vm_compute; reflexivity).
  assert (Hs2 : strip ("" +:+ " " +:+ "body2") = "body2")
    by (vm_compute; reflexivity).
  assert (Hgt : Qgtb 12 10 = true) by reflexivity.
  assert (Hgt' : Qgtb 12 12 = false) by reflexivity.
  assert (Heq : Qeqb 12 12 = true) by reflexivity.
  unfold build, build_knowledge_graph. rewrite Hreg.
  unfold tie_break_elements.
  repeat first
    [ rewrite lookup_insert_eq
    | rewrite String.eqb_refl
    | rewrite HA | rewrite HB | rewrite H1 | rewrite H2
    | rewrite Hgt | rewrite Hgt' | rewrite Heq
    | progress unfold append_content, loop_body
    | match goal with
      | |- context [("Section A:" =? root)%string] =>
          destruct ("Section A:" =? root)%string
      end
    | progress cbn -[insert lookup union singleton String.eqb
                     re_match_numbered_item endswith startswith strip] ].
  all: eexists; split; [reflexivity|].
  all: split; [simpl; set_solver|].
  all: simpl; rewrite !lookup_fmap.
  all: rewrite (lookup_insert_ne _ "Section B:" "Section A:") by done.
  all: rewrite (lookup_insert_ne _ "Section B:" "Section A:") by done.
  all: rewrite !lookup_insert_eq; simpl; unfold clean; simpl.
  all: unfold append_to; simpl; rewrite Hs1, Hs2; split; reflexivity.
Qed.

(** ** Content after the clean-up *)

Lemma ledger_step_promoted elements i elem L :
  promoted elements i elem = true →
  ledger_step elements i elem L
  = {| active := Elem.text elem;
       assigned := <[Elem.text elem := []]> (assigned L) |}.
Proof.
  intros Hp. unfold ledger_step. rewrite Hp.
  apply promoted_bold_seen in Hp as (Hb & Hs & Hn & _).
  by rewrite Hb, Hs, Hn.
Qed.

(** C9, counterexample.  The heading "A:" is immediately followed by the
    heading "B:", and then "A:" is promoted a second time and followed by a
    body line.  Nodes are keyed by their text, so there is one node "A:",
    and it ends with the content "body": a heading immediately followed by
    another heading does not always end with the placeholder. *)
Lemma placeholder_reopened_heading :
  ¬ ∃ g, build reopened_heading_elements "doc" = Returns g
         ∧ headings_in_a_row_keep_placeholder reopened_heading_elements g.
Proof.
  intros (g & Hb & Hrow).
  assert (Hg : g = graph_of (build reopened_heading_elements "doc"))
    by (by rewrite Hb).
  assert (Hbody : Node.content
                    <$> nodes (graph_of (build reopened_heading_elements
                                           "doc")) !! "A:"
                  = Some "body") by (vm_compute; reflexivity).
  rewrite <- Hg in Hbody.
  assert (Hph : Node.content <$> nodes g !! "A:" = Some placeholder).
  { apply (Hrow 1 (element "A:" 12 true false) (element "B:" 12 true false));
      [reflexivity | reflexivity | vm_compute; reflexivity
      | vm_compute; reflexivity]. }
  rewrite Hph in Hbody. discriminate.
Qed.

(** C9, amended.  The builder returns a graph in which the content of every
    node is the accumulation of the texts assigned to it since its text was
    last promoted, trimmed, or the placeholder when nothing is left: it is
    never empty and has no surrounding whitespace; a node with no assigned
    text holds the placeholder, and so does a heading that is immediately
    followed by another heading with a different text, when no later heading
    repeats its text. *)
Theorem content_trimmed_or_placeholder elements root :
  ∃ g, build elements root = Returns g
    ∧ (∀ n, Node.content <$> nodes g !! n
            = final_content <$> assigned (ledger elements root) !! n)
    ∧ (∀ n attrs, nodes g !! n = Some attrs →
         Node.content attrs ≠ ""
         ∧ strip (Node.content attrs) = Node.content attrs)
    ∧ (∀ n, assigned (ledger elements root) !! n = Some [] →
         Node.content <$> nodes g !! n = Some placeholder)
    ∧ (∀ i e1 e2,
         elements !! i = Some e1 →
         elements !! (S i) = Some e2 →
         promoted elements i e1 = true →
         promoted elements (S i) e2 = true →
         Elem.text e2 ≠ Elem.text e1 →
         (∀ j elem, S i < j → elements !! j = Some elem →
                    promoted elements j elem = true →
                    Elem.text elem ≠ Elem.text e1) →
         Node.content <$> nodes g !! Elem.text e1 = Some placeholder).
Proof.
  destruct (loop_upto_agrees elements root (length elements))
    as (st & Hst & Hcur & Hag); [done|].
  exists (clean_up (graph st)). split; [by rewrite build_loop_upto, Hst|].
  assert (Hcontent : ∀ n, Node.content <$> nodes (clean_up (graph st)) !! n
            = final_content <$> assigned (ledger elements root) !! n).
  { intros n. rewrite clean_up_lookup. specialize (Hag n).
    unfold ledger. destruct (nodes (graph st) !! n) as [a|];
      destruct (assigned (ledger_upto elements root (length elements)) !! n)
        as [texts|]; try done.
    simpl in *. injection Hag as Hag. unfold final_content.
    by rewrite <- Hag. }
  assert (Hempty : ∀ n, assigned (ledger elements root) !! n = Some [] →
            Node.content <$> nodes (clean_up (graph st)) !! n
            = Some placeholder).
  { intros n Hn. by rewrite Hcontent, Hn. }
  split_and!; [done| |done|].
  - intros n attrs Hn. rewrite clean_up_lookup in Hn.
    destruct (nodes (graph st) !! n) as [a|]; [|done].
    injection Hn as <-. rewrite clean_content.
    split; [apply final_content_of_nonempty | apply final_content_of_trimmed].
  - intros i e1 e2 H1 H2 Hp1 Hp2 Hne Hlater. apply Hempty. unfold ledger.
    apply (ledger_stays_empty elements root (Elem.text e1) (S (S i))).
    + rewrite (ledger_upto_S _ _ _ _ H2), (ledger_upto_S _ _ _ _ H1).
      rewrite (ledger_step_promoted _ _ _ _ Hp2),
        (ledger_step_promoted _ _ _ _ Hp1). simpl.
      by rewrite lookup_insert_ne, lookup_insert_eq.
    + rewrite (ledger_upto_S _ _ _ _ H2).
      by rewrite (ledger_step_promoted _ _ _ _ Hp2).
    + intros j elem Hj. apply Hlater. lia.
    + apply lookup_lt_Some in H2. lia.
    + done.
Qed.

Lemma content_trimmed_or_placeholder_witness :
  ∃ g, build consecutive_headings_elements "doc" = Returns g
       ∧ Node.content <$> nodes g !! "Scope:" = Some placeholder
       ∧ Node.content <$> nodes g !! "Terms:" = Some "body".
Proof.
  destruct (content_trimmed_or_placeholder consecutive_headings_elements "doc")
    as (g & Hb & Hcontent & _ & _ & Hrow).
  exists g. split; [exact Hb|]. split.
  - apply (Hrow 1 (element "Scope:" 12 true false)
             (element "Terms:" 12 true false)).
    + reflexivity.
    + reflexivity.
    + vm_compute. reflexivity.
    + vm_compute. reflexivity.
    + discriminate.
    + intros j elem Hj Hlk Hp.
      destruct j as [|[|[|[|j]]]]; try lia.
      * injection Hlk as <-. vm_compute in Hp. discriminate.
      * discriminate.
  - rewrite Hcontent. vm_compute. reflexivity.
Defined.

(** ** Which elements become headings *)

Lemma regular_font_size_reference elements :
  is_reference_size elements (regular_font_size elements).
Proof.
  unfold is_reference_size, regular_font_size.
  destruct (first_regular elements) as [fs|] eqn:E.
  - left. by apply first_regular_Some.
  - right. split; [by apply first_regular_None | done].
Qed.

Lemma is_reference_size_unique elements r :
  is_reference_size elements r ↔ r = regular_font_size elements.
Proof.
  unfold regular_font_size. split.
  - intros [Hsome | [Hall ->]].
    + apply first_regular_Some in Hsome. by rewrite Hsome.
    + apply first_regular_None in Hall. by rewrite Hall.
  - intros ->. unfold is_reference_size.
    destruct (first_regular elements) as [fs|] eqn:E.
    + left. by apply first_regular_Some.
    + right. split; [by apply first_regular_None | done].
Qed.

(** C3.  In a run of the builder, a bold element that is neither the first
    bold element nor a standalone number is promoted to a heading exactly
    when its size exceeds the reference size, or its text ends with a colon,
    or the next element exists, is not bold and starts with a colon;
    otherwise its text is appended as content.  The reference size is the
    size of the first non-bold element, or 8.0 when all elements are bold. *)
Theorem heading_qualification elements root i elem :
  elements !! i = Some elem →
  Elem.is_bold elem = true →
  (∃ j earlier, j < i ∧ elements !! j = Some earlier
                ∧ Elem.is_bold earlier = true) →
  ¬ numbered_shape (Elem.text elem) →
  ∃ st st' r,
    loop_upto elements root i = Returns st
    ∧ loop_upto elements root (S i) = Returns st'
    ∧ is_reference_size elements r
    ∧ let qualifying :=
        (r < Elem.font_size elem)%Q
        ∨ (∃ before, Elem.text elem = before +:+ ":")
        ∨ (∃ next rest, elements !! (i + 1) = Some next
                        ∧ Elem.is_bold next = false
                        ∧ Elem.text next = ":" +:+ rest) in
      (nodes_added st' = nodes_added st + 1 ↔ qualifying)
      ∧ (qualifying → ∃ parent below, st' = push_heading st elem parent below)
      ∧ (¬ qualifying → st' = append_content st (Elem.text elem)).
Proof.
  intros Hi Hbold Hearlier Hnum.
  destruct (loop_upto_iteration elements root i elem Hi)
    as (st & st' & Hst & Hst' & Hok & Htr & Hit).
  exists st, st', (regular_font_size elements).
  split_and!; [done|done|apply regular_font_size_reference|].
  apply bold_seen_true in Hearlier.
  assert (Hre : re_match_numbered_item (Elem.text elem) = false).
  { destruct (re_match_numbered_item (Elem.text elem)) eqn:E; [|done].
    by apply re_match_numbered_item_shape in E. }
  cbv zeta. rewrite <- qualifies_spec.
  destruct Hit as [Hb Hs|Ht Hn|parent below Hp Hsel Hsuf|Ht Hn Hp].
  - congruence.
  - congruence.
  - apply promoted_bold_seen in Hp as (_ & _ & _ & Hq).
    split_and!; [done|eauto|congruence].
  - unfold promoted in Hp. rewrite Hbold, Hearlier, Hre in Hp. simpl in Hp.
    destruct (append_content_fields st (Elem.text elem))
      as (_ & _ & _ & _ & Ha).
    split_and!; [|congruence|done].
    rewrite Ha, Hp. split; [lia|done].
Qed.

Lemma heading_qualification_witness :
  ∃ st st' r,
    loop_upto (tie_break_elements "Title") "doc" 3 = Returns st
    ∧ loop_upto (tie_break_elements "Title") "doc" 4 = Returns st'
    ∧ is_reference_size (tie_break_elements "Title") r
    ∧ let qualifying :=
        (r < 12)%Q
        ∨ (∃ before, "Section B:" = before +:+ ":")
        ∨ (∃ next rest, tie_break_elements "Title" !! (3 + 1) = Some next
                        ∧ Elem.is_bold next = false
                        ∧ Elem.text next = ":" +:+ rest) in
      (nodes_added st' = nodes_added st + 1 ↔ qualifying)
      ∧ (qualifying →
         ∃ parent below,
           st' = push_heading st (element "Section B:" 12 true false)
                   parent below)
      ∧ (¬ qualifying → st' = append_content st "Section B:").
Proof.
  apply (heading_qualification (tie_break_elements "Title") "doc" 3
           (element "Section B:" 12 true false)).
  - reflexivity.
  - reflexivity.
  - exists 0, (element "Title" 14 true false).
    split; [lia|]. split; reflexivity.
  - intros Hshape. apply re_match_numbered_item_shape in Hshape.
    vm_compute in Hshape. discriminate.
Defined.

(** ** Elements that leave no trace *)

(** C7.  The first bold element of the sequence changes nothing but the
    flag [first_bold_skipped]: no node is created and no content is
    appended, whatever its size, text and underline flag are.  The skip
    happens once: every later bold element that is not a standalone number is
    either inserted as a heading or appended as content. *)
Theorem first_bold_is_skipped elements root i elem :
  elements !! i = Some elem →
  Elem.is_bold elem = true →
  (∀ j earlier, j < i → elements !! j = Some earlier →
                Elem.is_bold earlier = false) →
  (∃ st, loop_upto elements root i = Returns st
         ∧ loop_upto elements root (S i) = Returns (skip_title st))
  ∧ ∀ j later,
      i < j → elements !! j = Some later →
      Elem.is_bold later = true →
      re_match_numbered_item (Elem.text later) = false →
      ∃ st st',
        loop_upto elements root j = Returns st
        ∧ loop_upto elements root (S j) = Returns st'
        ∧ ((∃ parent below, st' = push_heading st later parent below)
           ∨ st' = append_content st (Elem.text later)).
Proof.
  intros Hi Hbold Hfirst. apply bold_seen_false in Hfirst. split.
  - destruct (loop_upto_iteration elements root i elem Hi)
      as (st & st' & Hst & Hst' & Hok & Htr & Hit).
    exists st. split; [done|].
    destruct Hit as [Hb Hs|Ht Hn|parent below Hp Hsel Hsuf|Ht Hn Hp].
    + done.
    + rewrite Hbold, Hfirst in Ht. done.
    + apply promoted_bold_seen in Hp as (_ & ? & _). congruence.
    + rewrite Hbold, Hfirst in Ht. done.
  - intros j later Hij Hj Hb Hre.
    destruct (loop_upto_iteration elements root j later Hj)
      as (st & st' & Hst & Hst' & Hok & Htr & Hit).
    exists st, st'. split_and!; try done.
    destruct Hit as [Hb' Hs|Ht Hn|parent below Hp Hsel Hsuf|Ht Hn Hp].
    + assert (bold_seen elements j = true); [|congruence].
      apply bold_seen_true. eauto.
    + congruence.
    + left. eauto.
    + by right.
Qed.

Lemma first_bold_is_skipped_witness :
  (∃ st, loop_upto (tie_break_elements "Title:") "doc" 0 = Returns st
         ∧ loop_upto (tie_break_elements "Title:") "doc" 1
           = Returns (skip_title st))
  ∧ ∀ j later,
      0 < j → tie_break_elements "Title:" !! j = Some later →
      Elem.is_bold later = true →
      re_match_numbered_item (Elem.text later) = false →
      ∃ st st',
        loop_upto (tie_break_elements "Title:") "doc" j = Returns st
        ∧ loop_upto (tie_break_elements "Title:") "doc" (S j) = Returns st'
        ∧ ((∃ parent below, st' = push_heading st later parent below)
           ∨ st' = append_content st (Elem.text later)).
Proof.
  apply (first_bold_is_skipped (tie_break_elements "Title:") "doc" 0
           (element "Title:" 14 true false)).
  - reflexivity.
  - reflexivity.
  - intros j earlier Hj. lia.
Defined.

(** C8.  An element whose text is one or more digits, a period and then
    only whitespace is dropped: the step that processes it leaves the graph,
    the current node, the stack and the count of headings as they were. *)
Theorem numbered_item_is_dropped elements root i elem :
  elements !! i = Some elem →
  numbered_shape (Elem.text elem) →
  ∃ st st',
    loop_upto elements root i = Returns st
    ∧ loop_upto elements root (S i) = Returns st'
    ∧ graph st' = graph st
    ∧ current_node st' = current_node st
    ∧ node_stack st' = node_stack st
    ∧ nodes_added st' = nodes_added st.
Proof.
  intros Hi Hshape. apply re_match_numbered_item_shape in Hshape.
  destruct (loop_upto_iteration elements root i elem Hi)
    as (st & st' & Hst & Hst' & Hok & Htr & Hit).
  exists st, st'. split_and!; try done;
    destruct Hit as [Hb Hs|Ht Hn|parent below Hp Hsel Hsuf|Ht Hn Hp];
    try done; try congruence;
    apply promoted_bold_seen in Hp as (_ & _ & ? & _); congruence.
Qed.

Lemma numbered_item_is_dropped_witness :
  ∃ st st',
    loop_upto numbered_item_elements "doc" 2 = Returns st
    ∧ loop_upto numbered_item_elements "doc" 3 = Returns st'
    ∧ graph st' = graph st
    ∧ current_node st' = current_node st
    ∧ node_stack st' = node_stack st
    ∧ nodes_added st' = nodes_added st.
Proof.
  apply (numbered_item_is_dropped numbered_item_elements "doc" 2
           (element "3." 10 false false)).
  - reflexivity.
  - apply re_match_numbered_item_shape. vm_compute. reflexivity.
Defined.

(** ** The parent of a heading *)

Example before_section_b_reached :
  loop_upto (tie_break_elements "Title") "doc" 3 = Returns before_section_b.
Proof. vm_compute. reflexivity. Qed.

(** C2.  In the heading branch the parent and the remaining stack are those
    of the walk that the specification describes: stop at the root or at a
    strictly larger stored size; at equal size pop on equal underline flags,
    stop at an underlined top for a heading that is not underlined, pop a top
    that is not underlined for an underlined heading; pop a strictly smaller
    size; and when the stack empties take the root and reset the stack to the
    root alone.  The loop never runs out of fuel and raises nothing as long
    as the stack holds nodes of the graph. *)
Theorem parent_selection_follows_walk root st elem :
  (∀ n, n ∈ node_stack st → is_Some (nodes (graph st) !! n)) →
  insert_heading root st elem
  = Returns
      (let '(parent, stack) :=
         spec_select_parent (graph st) root (Elem.font_size elem)
           (Elem.is_underlined elem) (node_stack st) in
       push_heading st elem parent stack).
Proof.
  intros Hnodes. unfold insert_heading.
  rewrite select_parent_spec by done. simpl.
  by destruct (spec_select_parent _ _ _ _ _).
Qed.

Lemma parent_selection_follows_walk_witness :
  insert_heading "doc" before_section_b (element "Section B:" 12 true false)
  = Returns
      (let '(parent, stack) :=
         spec_select_parent (graph before_section_b) "doc" 12 false
           (node_stack before_section_b) in
       push_heading before_section_b (element "Section B:" 12 true false)
         parent stack).
Proof.
  apply (parent_selection_follows_walk "doc" before_section_b
           (element "Section B:" 12 true false)).
  intros n Hn. simpl in Hn.
  apply elem_of_cons in Hn as [->|Hn];
    [|apply list_elem_of_singleton in Hn as ->];
    vm_compute; eexists; reflexivity.
Defined.

(** ** A heading text that is already a node *)

Example before_second_y_reached :
  loop_upto repeated_heading_elements "doc" 3 = Returns before_second_y.
Proof. vm_compute. reflexivity. Qed.

(** C10.  When the text of a qualifying heading is already the identifier
    of a node, the heading branch replaces the attributes of that node:
    level, size and underline flag are those of the new heading and the
    content is empty again; the other nodes are untouched; the only new edge
    goes from the selected parent to the node, and it raises the number of
    incoming edges by one unless that edge was there already, in particular
    from one to two when the only parent so far is another node. *)
Theorem repeated_heading_overwrites root st elem old :
  nodes (graph st) !! Elem.text elem = Some old →
  (∀ n, n ∈ node_stack st → is_Some (nodes (graph st) !! n)) →
  ∃ parent stack st',
    insert_heading root st elem = Returns st'
    ∧ spec_select_parent (graph st) root (Elem.font_size elem)
        (Elem.is_underlined elem) (node_stack st) = (parent, stack)
    ∧ nodes (graph st') !! Elem.text elem
      = Some {| Node.level := length stack;
                Node.content := "";
                Node.font_size := Elem.font_size elem;
                Node.is_underlined := Elem.is_underlined elem |}
    ∧ (∀ n, n ≠ Elem.text elem →
            nodes (graph st') !! n = nodes (graph st) !! n)
    ∧ edges (graph st') = {[ (parent, Elem.text elem) ]} ∪ edges (graph st)
    ∧ ((parent, Elem.text elem) ∉ edges (graph st) →
       in_degree (graph st') (Elem.text elem)
       = S (in_degree (graph st) (Elem.text elem)))
    ∧ (∀ original,
         (original, Elem.text elem) ∈ edges (graph st) →
         in_degree (graph st) (Elem.text elem) = 1 →
         parent ≠ original →
         in_degree (graph st') (Elem.text elem) = 2).
Proof.
  intros Hold Hnodes.
  destruct (spec_select_parent (graph st) root (Elem.font_size elem)
              (Elem.is_underlined elem) (node_stack st))
    as [parent stack] eqn:Hsel.
  exists parent, stack, (push_heading st elem parent stack).
  assert (Hnew : (parent, Elem.text elem) ∉ edges (graph st) →
            in_degree (graph (push_heading st elem parent stack))
              (Elem.text elem)
            = S (in_degree (graph st) (Elem.text elem))).
  { intros Hno. unfold push_heading. cbn [graph].
    by rewrite in_degree_add_edge_new. }
  split_and!.
  - unfold insert_heading. rewrite select_parent_spec by done. simpl.
    by rewrite Hsel.
  - done.
  - unfold push_heading. cbn [graph add_edge add_node nodes].
    by rewrite lookup_insert_eq.
  - intros n Hn. unfold push_heading. cbn [graph add_edge add_node nodes].
    by rewrite lookup_insert_ne.
  - done.
  - exact Hnew.
  - intros original Hin Hone Hne. rewrite Hnew, Hone; [done|].
    intros Hin'. apply Hne.
    assert (E : (parent, Elem.text elem) = (original, Elem.text elem));
      [|by injection E].
    apply (size_singleton_inv
             (filter (λ e : string * string, e.2 = Elem.text elem)
                (edges (graph st)))); [done|..];
      by apply elem_of_filter.
Qed.

Lemma repeated_heading_overwrites_witness :
  ∃ parent stack st',
    insert_heading "doc" before_second_y (element "Y:" 16 true false)
    = Returns st'
    ∧ spec_select_parent (graph before_second_y) "doc" 16 false
        (node_stack before_second_y) = (parent, stack)
    ∧ nodes (graph st') !! "Y:"
      = Some {| Node.level := length stack; Node.content := "";
                Node.font_size := 16; Node.is_underlined := false |}
    ∧ (∀ n, n ≠ "Y:" →
            nodes (graph st') !! n = nodes (graph before_second_y) !! n)
    ∧ edges (graph st') = {[ (parent, "Y:") ]} ∪ edges (graph before_second_y)
    ∧ ((parent, "Y:") ∉ edges (graph before_second_y) →
       in_degree (graph st') "Y:"
       = S (in_degree (graph before_second_y) "Y:"))
    ∧ (∀ original,
         (original, "Y:") ∈ edges (graph before_second_y) →
         in_degree (graph before_second_y) "Y:" = 1 →
         parent ≠ original →
         in_degree (graph st') "Y:" = 2).
Proof.
  apply (repeated_heading_overwrites "doc" before_second_y
           (element "Y:" 16 true false)
           {| Node.level := 2; Node.content := ""; Node.font_size := 12;
              Node.is_underlined := false |}).
  - vm_compute. reflexivity.
  - intros n Hn. simpl in Hn.
    apply elem_of_cons in Hn as [->|Hn];
      [|apply elem_of_cons in Hn as [->|Hn];
        [|apply list_elem_of_singleton in Hn as ->]];
      vm_compute; eexists; reflexivity.
Defined.

(** ** The classifier: underline detection *)

Lemma py_max_Qmax a b : py_max a b = Qmax a b.
Proof.
  unfold py_max, Qgtb, Qmax, GenericMinMax.gmax.
  rewrite <- (Qcompare_antisym a b). by destruct (a ?= b)%Q.
Qed.

(** The order of binary64, from the specification of the comparisons. *)
Lemma SFcompare_swap s t c :
  SFcompare s t = Some c → SFcompare t s = Some (CompOpp c).
Proof.
  destruct s as [[]| []| |[] m1 e1], t as [[]| []| |[] m2 e2]; simpl;
    intros H; try discriminate; injection H as <-; try reflexivity;
    f_equal; change (PosDef.Pos.compare_cont Eq) with Pos.compare;
    destruct (Z.compare_spec e1 e2), (Z.compare_spec e2 e1); try lia;
    simpl; try reflexivity;
    destruct (Pos.compare_spec m1 m2), (Pos.compare_spec m2 m1); try lia;
    reflexivity.
Qed.

Lemma SFcompare_defined s t :
  SFeqb s s = true → SFeqb t t = true → ∃ c, SFcompare s t = Some c.
Proof.
  unfold SFeqb.
  destruct s as [?|?| |? m1 e1], t as [?|?| |? m2 e2]; simpl; try done;
    eauto.
Qed.

Lemma SFleb_trans s t u :
  SFleb s t = true → SFleb t u = true → SFleb s u = true.
Proof.
  unfold SFleb.
  destruct s as [[]| []| |[] m1 e1], t as [[]| []| |[] m2 e2],
    u as [[]| []| |[] m3 e3]; simpl; try done;
    change (PosDef.Pos.compare_cont Eq) with Pos.compare;
    destruct (Z.compare_spec e1 e2), (Z.compare_spec e2 e3),
      (Z.compare_spec e1 e3); simpl; try done; try lia;
    destruct (Pos.compare_spec m1 m2), (Pos.compare_spec m2 m3),
      (Pos.compare_spec m1 m3); simpl; try done; try lia.
Qed.

Lemma float_is_nan x :
  PrimFloat.is_nan x = false ↔ SFeqb (Prim2SF x) (Prim2SF x) = true.
Proof.
  unfold PrimFloat.is_nan. rewrite FloatAxioms.eqb_spec.
  by destruct (SFeqb (Prim2SF x) (Prim2SF x)).
Qed.

Lemma float_leb_trans x y z :
  PrimFloat.leb x y = true → PrimFloat.leb y z = true →
  PrimFloat.leb x z = true.
Proof. rewrite !FloatAxioms.leb_spec. apply SFleb_trans. Qed.

Lemma float_ltb_leb x y :
  PrimFloat.ltb x y = true → PrimFloat.leb x y = true.
Proof.
  rewrite FloatAxioms.ltb_spec, FloatAxioms.leb_spec. unfold SFltb, SFleb.
  by destruct (SFcompare (Prim2SF x) (Prim2SF y)) as [[]|].
Qed.

Lemma float_leb_total x y :
  PrimFloat.is_nan x = false → PrimFloat.is_nan y = false →
  PrimFloat.ltb y x = false → PrimFloat.leb x y = true.
Proof.
  rewrite !float_is_nan, FloatAxioms.ltb_spec, FloatAxioms.leb_spec.
  intros Hx Hy.
  destruct (SFcompare_defined _ _ Hx Hy) as [c Hc].
  unfold SFltb, SFleb. rewrite (SFcompare_swap _ _ _ Hc), Hc.
  by destruct c.
Qed.

Lemma float_leb_refl x :
  PrimFloat.is_nan x = false → PrimFloat.leb x x = true.
Proof.
  intros Hx. destruct (PrimFloat.ltb x x) eqn:Hlt.
  - by apply float_ltb_leb.
  - by apply float_leb_total.
Qed.

Lemma lies_under_spec bbox rect :
  lies_under bbox rect = true
  ↔ PrimFloat.ltb 0 (PrimFloat.sub
                       (float_min (BBox.b2 bbox) (Rect.x1 rect))
                       (float_max (BBox.b0 bbox) (Rect.x0 rect))) = true
    ∧ PrimFloat.ltb (PrimFloat.abs
                       (PrimFloat.sub (Rect.y0 rect) (BBox.b3 bbox))) 5
      = true.
Proof. unfold lies_under. by rewrite andb_true_iff. Qed.

Lemma underline_rects_spec height drawings rect :
  rect ∈ underline_rects height drawings
  ↔ ∃ d, d ∈ drawings ∧ Drawing.type d = Some "f"
         ∧ Re rect ∈ Drawing.items d
         ∧ PrimFloat.ltb (height rect) 5 = true.
Proof.
  unfold underline_rects. rewrite list_elem_of_In, in_flat_map. split.
  - intros (d & Hd & Hin). apply list_elem_of_In in Hd.
    case_bool_decide as Hf; [|by destruct Hin].
    apply in_flat_map in Hin as (item & Hitem & Hin).
    apply list_elem_of_In in Hitem.
    destruct item as [r|tag]; [|by destruct Hin].
    destruct (PrimFloat.ltb (height r) 5) eqn:Hh;
      [|by destruct Hin].
    apply list_elem_of_In, list_elem_of_singleton in Hin as ->.
    eauto.
  - intros (d & Hd & Hf & Hitem & Hh). exists d.
    split; [by apply list_elem_of_In|].
    rewrite bool_decide_eq_true_2 by done. apply in_flat_map.
    exists (Re rect). split; [by apply list_elem_of_In|].
    rewrite Hh. by left.
Qed.

Lemma scan_rects_first bbox before rect after bound :
  Forall (λ r, lies_under bbox r = false) before →
  lies_under bbox rect = true →
  scan_rects bbox (before ++ rect :: after) bound = (true, Some rect).
Proof.
  intros Hbefore Hrect. revert bound.
  induction Hbefore as [|r before Hr _ IH]; intros bound; simpl.
  - by rewrite Hrect.
  - rewrite Hr. apply IH.
Qed.

Lemma scan_rects_true bbox rects bound :
  (scan_rects bbox rects bound).1 = true
  ↔ ∃ rect, rect ∈ rects ∧ lies_under bbox rect = true.
Proof.
  revert bound. induction rects as [|r rects IH]; intros bound; simpl.
  - split; [done|]. intros (rect & Hin & _). by apply elem_of_nil in Hin.
  - destruct (lies_under bbox r) eqn:Hr; simpl.
    + split; [|done]. intros _. exists r. split; [by left|done].
    + rewrite IH. split.
      * intros (rect & Hin & Hl). exists rect. split; [by right|done].
      * intros (rect & Hin & Hl).
        apply elem_of_cons in Hin as [->|Hin]; [congruence|eauto].
Qed.

Lemma scan_rects_flag bbox rects bound bound' :
  (scan_rects bbox rects bound).1 = (scan_rects bbox rects bound').1.
Proof.
  revert bound bound'. induction rects as [|r rects IH]; intros b b'; simpl.
  - done.
  - destruct (lies_under bbox r); [done|]. apply IH.
Qed.

Lemma foldl_py_max_ge a l :
  (a <= foldl py_max a l)%Q ∧ ∀ x, x ∈ l → (x <= foldl py_max a l)%Q.
Proof.
  revert a. induction l as [|y l IH]; intros a; simpl.
  - split; [apply Qle_refl|]. intros x Hx. by apply elem_of_nil in Hx.
  - destruct (IH (py_max a y)) as [Hle Hall].
    rewrite py_max_Qmax in *. split.
    + eapply Qle_trans; [|exact Hle]. apply Q.le_max_l.
    + intros x Hx. apply elem_of_cons in Hx as [->|Hx]; [|by apply Hall].
      eapply Qle_trans; [|exact Hle]. apply Q.le_max_r.
Qed.

Lemma foldl_py_max_elem a l : foldl py_max a l ∈ a :: l.
Proof.
  revert a. induction l as [|y l IH]; intros a; simpl; [by left|].
  assert (Hcase : py_max a y = a ∨ py_max a y = y).
  { unfold py_max. destruct (Qgtb y a); auto. }
  destruct Hcase as [-> | ->].
  - specialize (IH a). apply elem_of_cons in IH as [->|IH]; [by left|].
    right. by right.
  - right. apply IH.
Qed.


Lemma float_min_cases a b : float_min a b = a ∨ float_min a b = b.
Proof. unfold float_min. destruct (PrimFloat.ltb b a); auto. Qed.

Lemma float_max_cases a b : float_max a b = a ∨ float_max a b = b.
Proof. unfold float_max. destruct (PrimFloat.ltb a b); auto. Qed.

Lemma float_min_le a b :
  PrimFloat.is_nan a = false → PrimFloat.is_nan b = false →
  PrimFloat.leb (float_min a b) a = true
  ∧ PrimFloat.leb (float_min a b) b = true.
Proof.
  intros Ha Hb. unfold float_min. destruct (PrimFloat.ltb b a) eqn:Hlt.
  - split; [by apply float_ltb_leb | by apply float_leb_refl].
  - split; [by apply float_leb_refl | by apply float_leb_total].
Qed.

Lemma float_max_ge a b :
  PrimFloat.is_nan a = false → PrimFloat.is_nan b = false →
  PrimFloat.leb a (float_max a b) = true
  ∧ PrimFloat.leb b (float_max a b) = true.
Proof.
  intros Ha Hb. unfold float_max. destruct (PrimFloat.ltb a b) eqn:Hlt.
  - split; [by apply float_ltb_leb | by apply float_leb_refl].
  - split; [by apply float_leb_refl | by apply float_leb_total].
Qed.

Lemma foldl_float_min_elem a l : foldl float_min a l ∈ a :: l.
Proof.
  revert a. induction l as [|y l IH]; intros a; simpl; [by left|].
  specialize (IH (float_min a y)).
  apply elem_of_cons in IH as [->|IH].
  - destruct (float_min_cases a y) as [->| ->]; [by left|by right; left].
  - by right; right.
Qed.

Lemma foldl_float_max_elem a l : foldl float_max a l ∈ a :: l.
Proof.
  revert a. induction l as [|y l IH]; intros a; simpl; [by left|].
  specialize (IH (float_max a y)).
  apply elem_of_cons in IH as [->|IH].
  - destruct (float_max_cases a y) as [->| ->]; [by left|by right; left].
  - by right; right.
Qed.

Lemma foldl_float_min_le a l :
  PrimFloat.is_nan a = false →
  Forall (λ x, PrimFloat.is_nan x = false) l →
  PrimFloat.leb (foldl float_min a l) a = true
  ∧ ∀ x, x ∈ l → PrimFloat.leb (foldl float_min a l) x = true.
Proof.
  intros Ha Hl. revert a Ha.
  induction Hl as [|y l Hy _ IH]; intros a Ha; simpl.
  - split; [by apply float_leb_refl|].
    intros x Hx. by apply elem_of_nil in Hx.
  - destruct (float_min_le a y Ha Hy) as [Hma Hmy].
    destruct (IH (float_min a y)) as [Hle Hall].
    { by destruct (float_min_cases a y) as [->| ->]. }
    split.
    + by apply (float_leb_trans _ (float_min a y)).
    + intros x Hx. apply elem_of_cons in Hx as [->|Hx]; [|by apply Hall].
      by apply (float_leb_trans _ (float_min a y)).
Qed.

Lemma foldl_float_max_ge a l :
  PrimFloat.is_nan a = false →
  Forall (λ x, PrimFloat.is_nan x = false) l →
  PrimFloat.leb a (foldl float_max a l) = true
  ∧ ∀ x, x ∈ l → PrimFloat.leb x (foldl float_max a l) = true.
Proof.
  intros Ha Hl. revert a Ha.
  induction Hl as [|y l Hy _ IH]; intros a Ha; simpl.
  - split; [by apply float_leb_refl|].
    intros x Hx. by apply elem_of_nil in Hx.
  - destruct (float_max_ge a y Ha Hy) as [Hma Hmy].
    destruct (IH (float_max a y)) as [Hle Hall].
    { by destruct (float_max_cases a y) as [->| ->]. }
    split.
    + by apply (float_leb_trans _ (float_max a y)).
    + intros x Hx. apply elem_of_cons in Hx as [->|Hx]; [|by apply Hall].
      by apply (float_leb_trans _ (float_max a y)).
Qed.

Lemma line_bbox_union spans bbox :
  line_bbox spans = Some bbox →
  (∀ s, s ∈ spans → no_nan (Span.bbox s)) →
  is_union_box spans bbox.
Proof.
  unfold line_bbox. destruct spans as [|s0 spans]; [done|].
  rewrite fmap_cons. intros [= <-] Hnan. cbn [BBox.b0 BBox.b1 BBox.b2 BBox.b3].
  destruct (Hnan s0) as (N0 & N1 & N2 & N3); [by left|].
  assert (Hall : ∀ f : BBox.t → float,
            (∀ b, no_nan b → PrimFloat.is_nan (f b) = false) →
            Forall (λ x, PrimFloat.is_nan x = false)
                   (f <$> (Span.bbox <$> spans))).
  { intros f Hf. apply Forall_forall. intros x Hx.
    apply list_elem_of_fmap in Hx as (b & -> & Hb).
    apply list_elem_of_fmap in Hb as (s & -> & Hs).
    apply Hf, Hnan. by right. }
  destruct (foldl_float_min_le (BBox.b0 (Span.bbox s0))
              (BBox.b0 <$> (Span.bbox <$> spans)) N0) as [H0 H0'].
  { apply Hall. by intros b (? & ? & ? & ?). }
  destruct (foldl_float_min_le (BBox.b1 (Span.bbox s0))
              (BBox.b1 <$> (Span.bbox <$> spans)) N1) as [H1 H1'].
  { apply Hall. by intros b (? & ? & ? & ?). }
  destruct (foldl_float_max_ge (BBox.b2 (Span.bbox s0))
              (BBox.b2 <$> (Span.bbox <$> spans)) N2) as [H2 H2'].
  { apply Hall. by intros b (? & ? & ? & ?). }
  destruct (foldl_float_max_ge (BBox.b3 (Span.bbox s0))
              (BBox.b3 <$> (Span.bbox <$> spans)) N3) as [H3 H3'].
  { apply Hall. by intros b (? & ? & ? & ?). }
  assert (Hin : ∀ (f : BBox.t → float) s, s ∈ spans →
            f (Span.bbox s) ∈ f <$> (Span.bbox <$> spans)).
  { intros f s Hs. by do 2 apply list_elem_of_fmap_2. }
  assert (Hex : ∀ (f : BBox.t → float) q,
            q ∈ f (Span.bbox s0) :: (f <$> (Span.bbox <$> spans)) →
            ∃ s, s ∈ s0 :: spans ∧ q = f (Span.bbox s)).
  { intros f q Hq. apply elem_of_cons in Hq as [->|Hq].
    - exists s0. split; [by left|done].
    - apply list_elem_of_fmap in Hq as (b & -> & Hb).
      apply list_elem_of_fmap in Hb as (s & -> & Hs).
      exists s. split; [by right|done]. }
  split_and!.
  - intros s Hs. apply elem_of_cons in Hs as [->|Hs]; [done|].
    split_and!; [apply H0'|apply H1'|apply H2'|apply H3']; by apply Hin.
  - apply (Hex BBox.b0), foldl_float_min_elem.
  - apply (Hex BBox.b1), foldl_float_min_elem.
  - apply (Hex BBox.b2), foldl_float_max_elem.
  - apply (Hex BBox.b3), foldl_float_max_elem.
Qed.

(** C6, counterexample.  A filled rule of height 1 lies across the whole
    line, its top edge at y = 5, and the bottom edge of the line is at
    y = 2^-60.  The distance between the two edges is 5 - 2^-60, strictly
    below 5, so the rule as stated makes the line underlined; the code
    subtracts in binary64, where the difference is rounded to 5, and leaves
    the line as not underlined. *)
Lemma underline_distance_is_rounded :
  ¬ (line_is_underlined fitz_height boundary_drawings boundary_spans = true
     ↔ underlined_as_specified fitz_height boundary_drawings boundary_spans).
Proof.
  intros [_ Hspec].
  assert (Hcode : line_is_underlined fitz_height boundary_drawings
                    boundary_spans = false) by (vm_compute; reflexivity).
  rewrite Hspec in Hcode; [discriminate|].
  unfold underlined_as_specified.
  eexists _, _, {| Rect.x0 := 0; Rect.y0 := 5; Rect.x1 := 100; Rect.y1 := 6 |},
    _, _, _, _, _.
  split; [vm_compute; reflexivity|].
  split; [by left|].
  split; [reflexivity|].
  split; [by left|].
  split; [vm_compute; reflexivity|].
  split; [vm_compute; reflexivity|].
  split; [vm_compute; reflexivity|].
  split; [vm_compute; reflexivity|].
  split; [vm_compute; reflexivity|].
  split; [vm_compute; reflexivity|].
  split; [vm_compute; reflexivity|].
  vm_compute. reflexivity.
Qed.

(** C6, amended.  A line is marked as underlined exactly when it has a
    bounding box and some rectangle of a filled drawing of the page has a
    height below 5, overlaps the box horizontally by an amount whose
    binary64 value is positive, and the binary64 difference between its top
    edge and the bottom of the box is less than 5 in absolute value.  The
    scan stops at the first such rectangle of the page's candidates: it is
    the value of the loop variable when the loop is left, whatever that
    variable held before.  The box is the union of the boxes of the line's
    spans when no coordinate is NaN. *)
Theorem underline_detection height drawings spans :
  (line_is_underlined height drawings spans = true
   ↔ ∃ bbox d rect,
       line_bbox spans = Some bbox
       ∧ d ∈ drawings ∧ Drawing.type d = Some "f"
       ∧ Re rect ∈ Drawing.items d
       ∧ PrimFloat.ltb (height rect) 5 = true
       ∧ PrimFloat.ltb 0 (PrimFloat.sub
                            (float_min (BBox.b2 bbox) (Rect.x1 rect))
                            (float_max (BBox.b0 bbox) (Rect.x0 rect)))
         = true
       ∧ PrimFloat.ltb (PrimFloat.abs
                          (PrimFloat.sub (Rect.y0 rect) (BBox.b3 bbox))) 5
         = true)
  ∧ (∀ bbox before rect after bound,
       line_bbox spans = Some bbox →
       underline_rects height drawings = before ++ rect :: after →
       Forall (λ r, lies_under bbox r = false) before →
       lies_under bbox rect = true →
       detect_underline height drawings spans bound = (true, Some rect))
  ∧ (∀ bound, (detect_underline height drawings spans bound).1
              = line_is_underlined height drawings spans)
  ∧ (∀ bbox, line_bbox spans = Some bbox →
       (∀ s, s ∈ spans → no_nan (Span.bbox s)) →
       is_union_box spans bbox).
Proof.
  split_and!.
  - unfold line_is_underlined, detect_underline.
    destruct (line_bbox spans) as [bbox|]; simpl.
    + rewrite scan_rects_true. split.
      * intros (rect & Hin & Hunder).
        apply underline_rects_spec in Hin as (d & Hd & Hf & Hitem & Hh).
        apply lies_under_spec in Hunder as [Hov Hgap].
        exists bbox, d, rect. done.
      * intros (bbox' & d & rect & [= <-] & Hd & Hf & Hitem & Hh & Hov & Hgap).
        exists rect. split.
        -- apply underline_rects_spec. eauto.
        -- by apply lies_under_spec.
    + split; [done|]. by intros (? & ? & ? & ? & _).
  - intros bbox before rect after bound Hbox Hrects Hbefore Hrect.
    unfold detect_underline. rewrite Hbox, Hrects.
    by apply scan_rects_first.
  - intros bound. unfold line_is_underlined, detect_underline.
    destruct (line_bbox spans) as [bbox|]; [|done].
    apply scan_rects_flag.
  - apply line_bbox_union.
Qed.

Lemma underline_detection_witness :
  detect_underline fitz_height page_drawings heading_spans None
  = (true, Some {| Rect.x0 := 72; Rect.y0 := 121;
                   Rect.x1 := 180; Rect.y1 := 122 |}).
Proof.
  apply (proj1 (proj2 (underline_detection fitz_height page_drawings
                         heading_spans))
           {| BBox.b0 := 72; BBox.b1 := 108; BBox.b2 := 140; BBox.b3 := 120 |}
           [] _ [] None).
  - vm_compute. reflexivity.
  - vm_compute. reflexivity.
  - constructor.
  - vm_compute. reflexivity.
Defined.

(** ** More on trimming *)

Lemma text_of_nil l : text_of l = "" ↔ l = [].
Proof. destruct l; split; done. Qed.

Lemma lstrip_chars_nil l :
  lstrip_chars l = [] ↔ Forall (λ c, is_space c = true) l.
Proof.
  induction l as [|c l IH]; simpl.
  - split; [constructor|done].
  - destruct (is_space c) eqn:Hc.
    + rewrite IH. split; [by constructor|by inversion 1].
    + split; [done|]. inversion 1; congruence.
Qed.

Lemma lstrip_chars_spaces l m :
  Forall (λ c, is_space c = true) l → lstrip_chars (l ++ m) = lstrip_chars m.
Proof. induction 1 as [|c l Hc _ IH]; simpl; [done|]. by rewrite Hc. Qed.

Lemma strip_empty s :
  strip s = "" ↔ Forall (λ c, is_space c = true) (chars s).
Proof.
  unfold strip, rstrip_chars. rewrite text_of_nil. split.
  - intros E. apply lstrip_chars_nil.
    destruct (lstrip_chars_head (chars s)) as [-> | (c & r & Hl & Hc)]; [done|].
    rewrite Hl in E. simpl in E.
    rewrite lstrip_chars_snoc in E by done.
    apply (f_equal length) in E. rewrite length_rev, length_app in E.
    simpl in E. lia.
  - intros Hall. apply lstrip_chars_nil in Hall. by rewrite Hall.
Qed.

Lemma strip_fixed s :
  strip s = s ↔ lstrip_chars (chars s) = chars s
                ∧ rstrip_chars (chars s) = chars s.
Proof.
  unfold strip. split.
  - intros E. apply (f_equal chars) in E. rewrite chars_text_of in E. split.
    + by rewrite <- E at 1 2; rewrite lstrip_rstrip_lstrip.
    + rewrite <- E at 1. rewrite rstrip_chars_idem. done.
  - intros [-> ->]. apply text_of_chars.
Qed.

(** A trimmed text of digits, a period and whitespace has no whitespace. *)
Lemma numbered_shape_trimmed text :
  strip text = text →
  (numbered_shape text
   ↔ ∃ ds, ds ≠ [] ∧ Forall (λ c, is_digit c = true) ds
           ∧ chars text = ds ++ ["."%char]).
Proof.
  intros [_ Hr]%strip_fixed. split.
  - intros (ds & ws & Hne & Hds & Hws & E). exists ds. split_and!; try done.
    rewrite E in Hr. unfold rstrip_chars in Hr.
    rewrite rev_app_distr in Hr. simpl in Hr.
    rewrite <- app_assoc in Hr.
    rewrite lstrip_chars_spaces in Hr by (by apply Forall_rev).
    change (["."%char] ++ rev ds) with ("."%char :: rev ds) in Hr.
    rewrite lstrip_chars_nonspace in Hr by reflexivity.
    cbn [rev] in Hr. rewrite rev_involutive in Hr.
    apply app_inv_head in Hr. injection Hr as <-. by rewrite E.
  - intros (ds & Hne & Hds & E). exists ds, []. split_and!; try done.
Qed.

(** ** The classifier: from the document to the elements *)

Lemma classify_page_elem height n page e :
  e ∈ classify_page height n page
  ↔ ∃ block lines line,
      block ∈ Page.blocks page ∧ Block.lines block = Some lines
      ∧ line ∈ lines
      ∧ classify_line height (Page.drawings page) n line = Some e.
Proof.
  unfold classify_page. rewrite list_elem_of_In, in_flat_map. split.
  - intros (block & Hb & He). apply list_elem_of_In in Hb, He.
    unfold classify_block in He.
    destruct (Block.lines block) as [lines|] eqn:Hl;
      [|by apply elem_of_nil in He].
    apply list_elem_of_omap in He as (line & Hline & Hc). eauto 10.
  - intros (block & lines & line & Hb & Hl & Hline & Hc).
    exists block. split; [by apply list_elem_of_In|].
    apply list_elem_of_In. unfold classify_block. rewrite Hl.
    apply list_elem_of_omap. eauto.
Qed.

Lemma classify_pages_elem height doc : ∀ n e,
  e ∈ classify_pages height n doc
  ↔ ∃ j page, doc !! j = Some page ∧ e ∈ classify_page height (n + j) page.
Proof.
  induction doc as [|page doc IH]; intros n e; simpl.
  - split; [by intros ?%elem_of_nil|]. by intros (j & ? & ? & _).
  - rewrite elem_of_app, IH. split.
    + intros [He | (j & pg & Hj & He)].
      * exists 0, page. by rewrite Nat.add_0_r.
      * exists (S j), pg. by rewrite Nat.add_succ_r.
    + intros (j & pg & Hj & He). destruct j as [|j]; simpl in Hj.
      * injection Hj as <-. left. by rewrite Nat.add_0_r in He.
      * right. exists j, pg. by rewrite Nat.add_succ_r in He.
Qed.

Lemma classify_line_Some height drawings n line e :
  classify_line height drawings n line = Some e →
  Elem.text e = strip (joined_text (Line.spans line))
  ∧ Elem.text e ≠ ""
  ∧ Elem.font e = last_font (Line.spans line)
  ∧ Elem.font_size e = largest_size (Line.spans line)
  ∧ Elem.is_bold e = any_bold (Line.spans line)
  ∧ Elem.is_underlined e
    = line_is_underlined height drawings (Line.spans line)
  ∧ Elem.page e = n + 1.
Proof.
  unfold classify_line. case_bool_decide as Ht; [done|].
  by intros [= <-].
Qed.

Lemma StronglySorted_constant_app (l1 l2 : list nat) m :
  Forall (λ x, x = m) l1 → Forall (λ x, m ≤ x) l2 →
  StronglySorted le l2 → StronglySorted le (l1 ++ l2).
Proof.
  intros H1 H2 Hs. induction H1 as [|x l1 -> H1 IH]; simpl; [done|].
  constructor; [done|]. apply Forall_app. split; [|done].
  eapply Forall_impl; [exact H1|]. simpl. intros. lia.
Qed.

Lemma classify_pages_pages height doc : ∀ n,
  StronglySorted le (Elem.page <$> classify_pages height n doc)
  ∧ Forall (λ e, n + 1 ≤ Elem.page e) (classify_pages height n doc).
Proof.
  induction doc as [|page doc IH]; intros n; simpl.
  - split; constructor.
  - destruct (IH (S n)) as [Hsorted Hall].
    assert (Hpage : Forall (λ e, Elem.page e = n + 1)
                      (classify_page height n page)).
    { apply Forall_forall. intros e He.
      apply classify_page_elem in He as (? & ? & ? & _ & _ & _ & Hc).
      by apply classify_line_Some in Hc as (_ & _ & _ & _ & _ & _ & ?). }
    split.
    + rewrite fmap_app. apply (StronglySorted_constant_app _ _ (n + 1)).
      * by apply Forall_fmap.
      * apply Forall_fmap. eapply Forall_impl; [exact Hall|].
        simpl. intros. lia.
      * done.
    + apply Forall_app. split.
      * eapply Forall_impl; [exact Hpage|]. simpl. intros. lia.
      * eapply Forall_impl; [exact Hall|]. simpl. intros. lia.
Qed.

Example sample_doc_elements :
  extract_structured_text fitz_height sample_doc
  = [ sample_heading; sample_number;
      {| Elem.text := "body text"; Elem.font := "Helvetica";
         Elem.font_size := 10; Elem.is_bold := false;
         Elem.is_underlined := false; Elem.page := 2 |} ].
Proof. vm_compute. reflexivity. Qed.

(** X9.  Every element that the classifier emits has a text that is not
    empty and has no whitespace at either end: stripping it again changes
    nothing. *)
Theorem extracted_text_is_trimmed height doc e :
  e ∈ extract_structured_text height doc →
  Elem.text e ≠ "" ∧ strip (Elem.text e) = Elem.text e.
Proof.
  unfold extract_structured_text.
  intros (j & page & _ & He)%classify_pages_elem.
  apply classify_page_elem in He as (? & ? & line & _ & _ & _ & Hc).
  apply classify_line_Some in Hc as (Ht & Hne & _). split; [done|].
  rewrite Ht. apply strip_idem.
Qed.

Lemma extracted_text_is_trimmed_witness :
  Elem.text sample_heading ≠ ""
  ∧ strip (Elem.text sample_heading) = Elem.text sample_heading.
Proof.
  apply (extracted_text_is_trimmed fitz_height sample_doc sample_heading).
  apply list_elem_of_In. vm_compute. left. reflexivity.
Defined.

(** X10.  The elements come out in page order, every element carries
    the 1-based number of a page of the document, and it was produced from a
    line of a block of that very page, tested against the drawings of that
    page only. *)
Theorem extracted_pages height doc :
  StronglySorted le (Elem.page <$> extract_structured_text height doc)
  ∧ ∀ e, e ∈ extract_structured_text height doc →
      1 ≤ Elem.page e ≤ length doc
      ∧ ∃ page block lines line,
          doc !! (Elem.page e - 1) = Some page
          ∧ block ∈ Page.blocks page
          ∧ Block.lines block = Some lines
          ∧ line ∈ lines
          ∧ classify_line height (Page.drawings page) (Elem.page e - 1) line
            = Some e.
Proof.
  unfold extract_structured_text. split.
  - apply classify_pages_pages.
  - intros e (j & page & Hj & He)%classify_pages_elem. simpl in He.
    apply classify_page_elem in He as (block & lines & line & Hb & Hl & Hin & Hc).
    pose proof Hc as (_ & _ & _ & _ & _ & _ & Hp)%classify_line_Some.
    apply lookup_lt_Some in Hj as Hlt.
    rewrite Hp. replace (j + 1 - 1) with j by lia.
    split; [lia|]. eauto 10.
Qed.

Lemma extracted_pages_witness :
  1 ≤ Elem.page sample_number ≤ length sample_doc
  ∧ ∃ page block lines line,
      sample_doc !! (Elem.page sample_number - 1) = Some page
      ∧ block ∈ Page.blocks page
      ∧ Block.lines block = Some lines
      ∧ line ∈ lines
      ∧ classify_line fitz_height (Page.drawings page)
          (Elem.page sample_number - 1) line
        = Some sample_number.
Proof.
  apply (proj2 (extracted_pages fitz_height sample_doc) sample_number).
  apply list_elem_of_In. vm_compute. right. left. reflexivity.
Defined.

Lemma contains_chars_spec l sub :
  contains_chars l sub = true ↔ ∃ pre post, l = pre ++ sub ++ post.
Proof.
  induction l as [|c l IH].
  - simpl. rewrite orb_false_r, startswith_chars_spec. split.
    + intros [r E]. by exists [], r.
    + intros (pre & post & E). destruct pre; [by exists post|done].
  - cbn [contains_chars]. rewrite orb_true_iff, startswith_chars_spec, IH.
    split.
    + intros [[r E] | (pre & post & E)].
      * by exists [], r.
      * exists (c :: pre), post. by rewrite E.
    + intros (pre & post & E). destruct pre as [|c' pre]; simpl in E.
      * left. by exists post.
      * injection E as -> E. right. eauto.
Qed.

Lemma chars_lower s : chars (lower s) = lower_char <$> chars s.
Proof. apply chars_text_of. Qed.

Lemma lower_char_bold c :
  (lower_char c = "b"%char ↔ c = "b"%char ∨ c = "B"%char)
  ∧ (lower_char c = "o"%char ↔ c = "o"%char ∨ c = "O"%char)
  ∧ (lower_char c = "l"%char ↔ c = "l"%char ∨ c = "L"%char)
  ∧ (lower_char c = "d"%char ↔ c = "d"%char ∨ c = "D"%char).
Proof.
  destruct c as [[] [] [] [] [] [] [] []];
    match goal with
    | |- context [lower_char ?c] =>
        let v := eval vm_compute in (lower_char c) in
        change (lower_char c) with v
    end;
    (split_and!; (split; [intros [=]; auto | intros [[=]|[=]]; auto])).
Qed.

Lemma any_bold_spec spans :
  any_bold spans = true
  ↔ ∃ span, span ∈ spans ∧ contains (lower (Span.font span)) "bold" = true.
Proof.
  unfold any_bold.
  assert (Hgen : ∀ b,
    foldl (λ is_bold span,
             if contains (lower (Span.font span)) "bold" then true
             else is_bold) b spans = true
    ↔ b = true
      ∨ ∃ span, span ∈ spans
                ∧ contains (lower (Span.font span)) "bold" = true).
  { induction spans as [|s spans IH]; intros b; simpl.
    - split; [auto|]. intros [?|(? & ?%elem_of_nil & _)]; done.
    - rewrite IH. split.
      + intros [Hb | (span & Hin & Hc)].
        * destruct (contains (lower (Span.font s)) "bold") eqn:Hs.
          -- right. exists s. split; [by left|done].
          -- by left.
        * right. exists span. split; [by right|done].
      + intros [-> | (span & Hin & Hc)].
        * left. by destruct (contains _ _).
        * apply elem_of_cons in Hin as [->|Hin].
          -- left. by rewrite Hc.
          -- right. eauto. }
  rewrite Hgen. split; [by intros [?|?]|auto].
Qed.

Lemma bold_in_font font :
  contains (lower font) "bold" = true
  ↔ ∃ pre b o l d post,
      chars font = pre ++ [b; o; l; d] ++ post
      ∧ (b = "b" ∨ b = "B")%char ∧ (o = "o" ∨ o = "O")%char
      ∧ (l = "l" ∨ l = "L")%char ∧ (d = "d" ∨ d = "D")%char.
Proof.
  unfold contains. rewrite contains_chars_spec, chars_lower. split.
  - intros (pre & post & E).
    apply fmap_app_inv in E as (pre' & rest & -> & E & Hf).
    symmetry in E. apply fmap_app_inv in E as (w & post' & Hw & -> & ->).
    destruct w as [|b [|o [|l [|d [|? ?]]]]]; try discriminate.
    injection Hw as Hb Ho Hl Hd.
    exists pre', b, o, l, d, post'. split; [done|].
    split_and!; by apply lower_char_bold.
  - intros (pre & b & o & l & d & post & -> & Hb & Ho & Hl & Hd).
    exists (lower_char <$> pre), (lower_char <$> post).
    rewrite !fmap_app. simpl.
    apply lower_char_bold in Hb, Ho, Hl, Hd. by rewrite Hb, Ho, Hl, Hd.
Qed.

(** X11.  An emitted element is bold exactly when the font name of one
    of the spans of its line contains the letters b, o, l, d in a row, each in
    either case. *)
Theorem extracted_bold height drawings n line e :
  classify_line height drawings n line = Some e →
  (Elem.is_bold e = true
   ↔ ∃ span pre b o l d post,
       span ∈ Line.spans line
       ∧ chars (Span.font span) = pre ++ [b; o; l; d] ++ post
       ∧ (b = "b" ∨ b = "B")%char ∧ (o = "o" ∨ o = "O")%char
       ∧ (l = "l" ∨ l = "L")%char ∧ (d = "d" ∨ d = "D")%char).
Proof.
  intros (_ & _ & _ & _ & -> & _)%classify_line_Some.
  rewrite any_bold_spec. split.
  - intros (span & Hin & Hc). apply bold_in_font in Hc
      as (pre & b & o & l & d & post & Hc). exists span, pre, b, o, l, d, post.
    tauto.
  - intros (span & pre & b & o & l & d & post & Hin & Hc).
    exists span. split; [done|]. apply bold_in_font. eauto 10.
Qed.

Lemma extracted_bold_witness :
  Elem.is_bold sample_heading = true
  ↔ ∃ span pre b o l d post,
      span ∈ heading_spans
      ∧ chars (Span.font span) = pre ++ [b; o; l; d] ++ post
      ∧ (b = "b" ∨ b = "B")%char ∧ (o = "o" ∨ o = "O")%char
      ∧ (l = "l" ∨ l = "L")%char ∧ (d = "d" ∨ d = "D")%char.
Proof.
  apply (extracted_bold fitz_height page_drawings 0
           {| Line.spans := heading_spans |} sample_heading).
  vm_compute. reflexivity.
Defined.

Lemma largest_size_fold spans :
  largest_size spans = foldl py_max 0%Q (Span.size <$> spans).
Proof. unfold largest_size. by rewrite foldl_fmap. Qed.

(** X12.  The size of an emitted element is the largest size among the
    spans of its line, and 0 when no span has a positive size: it is at least
    0, at least the size of every span, and it is 0 or the size of one of the
    spans. *)
Theorem extracted_size height drawings n line e :
  classify_line height drawings n line = Some e →
  (0 <= Elem.font_size e)%Q
  ∧ (∀ span, span ∈ Line.spans line →
       (Span.size span <= Elem.font_size e)%Q)
  ∧ (Elem.font_size e = 0%Q
     ∨ ∃ span, span ∈ Line.spans line
               ∧ Elem.font_size e = Span.size span).
Proof.
  intros (_ & _ & _ & -> & _)%classify_line_Some.
  rewrite largest_size_fold.
  destruct (foldl_py_max_ge 0%Q (Span.size <$> Line.spans line)) as [H0 Hall].
  split_and!.
  - done.
  - intros span Hin. apply Hall. by apply list_elem_of_fmap_2.
  - pose proof (foldl_py_max_elem 0%Q (Span.size <$> Line.spans line)) as Hin.
    apply elem_of_cons in Hin as [->|Hin]; [by left|]. right.
    apply list_elem_of_fmap in Hin as (span & -> & Hin). eauto.
Qed.

Lemma extracted_size_witness :
  (0 <= Elem.font_size sample_heading)%Q
  ∧ (∀ span, span ∈ heading_spans →
       (Span.size span <= Elem.font_size sample_heading)%Q)
  ∧ (Elem.font_size sample_heading = 0%Q
     ∨ ∃ span, span ∈ heading_spans
               ∧ Elem.font_size sample_heading = Span.size span).
Proof.
  apply (extracted_size fitz_height page_drawings 0
           {| Line.spans := heading_spans |} sample_heading).
  vm_compute. reflexivity.
Defined.

Lemma chars_joined_text spans :
  chars (joined_text spans)
  = flat_map (λ span, chars (Span.text span) ++ [" "%char]) spans.
Proof.
  unfold joined_text.
  assert (Hgen : ∀ acc,
    chars (foldl (λ line_text span, line_text +:+ (Span.text span +:+ " "))
             acc spans)
    = chars acc
      ++ flat_map (λ span, chars (Span.text span) ++ [" "%char]) spans).
  { induction spans as [|s spans IH]; intros acc; simpl.
    - by rewrite app_nil_r.
    - rewrite IH, !chars_app. simpl. by rewrite <- !app_assoc. }
  by rewrite Hgen.
Qed.

(** X13.  A line yields no element exactly when the texts of all its
    spans consist of whitespace only; in particular a line without spans
    yields none. *)
Theorem dropped_line height drawings n line :
  classify_line height drawings n line = None
  ↔ ∀ span, span ∈ Line.spans line →
      Forall (λ c, is_space c = true) (chars (Span.text span)).
Proof.
  unfold classify_line. case_bool_decide as Ht.
  - split; [|done]. intros _ span Hin.
    apply strip_empty in Ht. rewrite chars_joined_text in Ht.
    rewrite Forall_forall in Ht. apply Forall_forall. intros c Hc.
    apply Ht. apply list_elem_of_In, in_flat_map. exists span.
    split; [by apply list_elem_of_In|].
    apply list_elem_of_In, elem_of_app. by left.
  - split; [done|]. intros Hall. exfalso. apply Ht, strip_empty.
    rewrite chars_joined_text. apply Forall_forall. intros c Hc.
    apply list_elem_of_In, in_flat_map in Hc as (span & Hin & Hc).
    apply list_elem_of_In in Hin, Hc. apply elem_of_app in Hc as [Hc|Hc].
    + specialize (Hall span Hin). rewrite Forall_forall in Hall. by apply Hall.
    + by apply list_elem_of_singleton in Hc as ->.
Qed.

Lemma dropped_line_witness :
  classify_line fitz_height page_drawings 0
    {| Line.spans := [ plain_span "   " 10 170 ] |} = None.
Proof.
  apply (proj2 (dropped_line fitz_height page_drawings 0
                  {| Line.spans := [ plain_span "   " 10 170 ] |})).
  intros span Hin. apply list_elem_of_singleton in Hin as ->.
  vm_compute. repeat constructor.
Defined.

(** ** The builder on every input *)

(** X1.  On every element sequence and for every root name the builder
    returns a graph: no lookup of a stack entry fails, no pop hits an empty
    stack and the parent selection loop ends.  The nodes of the graph are the
    root and the texts of the promoted headings, and [nodes_added] counts the
    promoted elements. *)
Theorem build_always_returns elements root :
  ∃ st g,
    loop_upto elements root (length elements) = Returns st
    ∧ build elements root = Returns g
    ∧ dom (nodes g) = {[ root ]} ∪ list_to_set (heading_ids elements)
    ∧ nodes_added st = length (heading_ids elements).
Proof.
  destruct (build_returns elements root) as (st & Hst & Hb & Hok & Htr).
  exists st, (clean_up (graph st)). split_and!; try done.
  - rewrite clean_up_dom. apply (tr_dom _ _ _ _ Htr).
  - apply (tr_added _ _ _ _ Htr).
Qed.

Lemma iteration_edges elements root k elem st st' :
  elements !! k = Some elem →
  iteration elements root k elem st st' →
  stack_ok root st →
  (∀ p c, (p, c) ∈ edges (graph st) → c ∈ heading_ids_upto elements k) →
  (∀ n, n ∈ heading_ids_upto elements k → ∃ p, (p, n) ∈ edges (graph st)) →
  (∀ p c, (p, c) ∈ edges (graph st') →
          c ∈ heading_ids_upto elements (S k))
  ∧ (∀ n, n ∈ heading_ids_upto elements (S k) →
          ∃ p, (p, n) ∈ edges (graph st')).
Proof.
  intros Hk Hit Hok Htarget Hparent.
  rewrite (heading_ids_upto_S _ _ _ Hk).
  destruct Hit as [Hb Hs|Ht Hn|parent below Hp Hsel Hsuf|Ht Hn Hp].
  - assert (Hp : promoted elements k elem = false).
    { unfold promoted. rewrite Hs. by rewrite andb_false_r. }
    rewrite Hp, app_nil_r. done.
  - assert (Hp : promoted elements k elem = false).
    { unfold promoted. rewrite Hn. simpl. by rewrite andb_false_r. }
    rewrite Hp, app_nil_r. done.
  - rewrite Hp. unfold push_heading, add_edge, add_node. cbn [graph edges].
    split.
    + intros p c [Hpc|Hpc]%elem_of_union.
      * apply elem_of_singleton in Hpc as [= -> ->].
        apply elem_of_app. right. by left.
      * apply elem_of_app. left. by apply (Htarget p c).
    + intros n [Hn|Hn]%elem_of_app.
      * destruct (Hparent n Hn) as [p Hpn]. exists p.
        apply elem_of_union. by right.
      * apply list_elem_of_singleton in Hn as ->. exists parent.
        apply elem_of_union. left. by apply elem_of_singleton.
  - rewrite Hp, app_nil_r.
    destruct (append_content_fields st (Elem.text elem)) as (He & _).
    rewrite He. done.
Qed.

Lemma loop_upto_edges elements root k :
  k ≤ length elements →
  ∃ st, loop_upto elements root k = Returns st
        ∧ stack_ok root st ∧ tracks elements root k st
        ∧ (∀ p c, (p, c) ∈ edges (graph st) →
                  c ∈ heading_ids_upto elements k)
        ∧ (∀ n, n ∈ heading_ids_upto elements k →
                ∃ p, (p, n) ∈ edges (graph st)).
Proof.
  intros Hk.
  destruct (loop_upto_ind elements root
    (λ k st, (stack_ok root st ∧ tracks elements root k st)
             ∧ (∀ p c, (p, c) ∈ edges (graph st) →
                       c ∈ heading_ids_upto elements k)
             ∧ (∀ n, n ∈ heading_ids_upto elements k →
                     ∃ p, (p, n) ∈ edges (graph st))))
    with (k := k) as (st & Hst & [Hok Htr] & H1 & H2); [| |done|by eauto 10].
  - split_and!; [apply initial_state_stack_ok | apply initial_state_tracks
                 | |].
    + intros p c Hpc. simpl in Hpc. by apply elem_of_empty in Hpc.
    + intros n Hn. by apply elem_of_nil in Hn.
  - intros i elem st Hi _ ([Hok Htr] & H1 & H2).
    destruct (loop_body_iteration elements root i elem st Hok
                (tr_skipped _ _ _ _ Htr)) as (st' & Hst' & Hit).
    exists st'. split; [done|]. split; [split|].
    + by eapply iteration_stack_ok.
    + by eapply iteration_tracks.
    + by eapply iteration_edges.
Qed.

(** X2.  In the graph that the builder returns, on every input, both
    ends of every edge are nodes, every edge ends in the text of a promoted
    heading, and every node other than the root has at least one incoming
    edge.  So the root has no incoming edge unless a promoted heading bears
    its name. *)
Theorem edges_join_nodes elements root :
  ∃ g, build elements root = Returns g
    ∧ (∀ p c, (p, c) ∈ edges g →
         p ∈ dom (nodes g) ∧ c ∈ dom (nodes g) ∧ c ∈ heading_ids elements)
    ∧ (∀ n, n ∈ dom (nodes g) → n ≠ root → ∃ p, (p, n) ∈ edges g)
    ∧ (root ∉ heading_ids elements → in_degree g root = 0).
Proof.
  destruct (loop_upto_edges elements root (length elements))
    as (st & Hst & Hok & Htr & Htarget & Hparent); [done|].
  exists (clean_up (graph st)). split; [by rewrite build_loop_upto, Hst|].
  rewrite clean_up_dom. split_and!.
  - intros p c Hpc. destruct (ok_edges _ _ Hok p c Hpc).
    split_and!; try done. by apply (Htarget p c).
  - intros n Hn Hne. apply Hparent.
    rewrite (tr_dom _ _ _ _ Htr) in Hn.
    apply elem_of_union in Hn as [Hn|Hn].
    + by apply elem_of_singleton in Hn.
    + by apply elem_of_list_to_set in Hn.
  - intros Hroot. rewrite clean_up_in_degree. apply in_degree_0.
    intros p Hp. apply Hroot. by apply (Htarget p root).
Qed.

Lemma edges_join_nodes_witness :
  ∃ g, build repeated_heading_elements "doc" = Returns g
    ∧ (∀ p c, (p, c) ∈ edges g →
         p ∈ dom (nodes g) ∧ c ∈ dom (nodes g)
         ∧ c ∈ heading_ids repeated_heading_elements)
    ∧ (∀ n, n ∈ dom (nodes g) → n ≠ "doc" → ∃ p, (p, n) ∈ edges g)
    ∧ ("doc" ∉ heading_ids repeated_heading_elements →
       in_degree g "doc" = 0).
Proof. apply (edges_join_nodes repeated_heading_elements "doc"). Defined.

Lemma iteration_top elements root k elem st st' :
  iteration elements root k elem st st' →
  head (node_stack st) = Some (current_node st) →
  head (node_stack st') = Some (current_node st').
Proof.
  intros Hit Htop.
  destruct Hit as [Hb Hs|Ht Hn|parent below Hp Hsel Hsuf|Ht Hn Hp]; try done.
  destruct (append_content_fields st (Elem.text elem))
    as (_ & Hc & Hs & _). by rewrite Hc, Hs.
Qed.

Lemma loop_upto_top elements root k :
  k ≤ length elements →
  ∃ st, loop_upto elements root k = Returns st
        ∧ stack_ok root st
        ∧ head (node_stack st) = Some (current_node st).
Proof.
  intros Hk.
  destruct (loop_upto_ind elements root
    (λ k st, (stack_ok root st ∧ tracks elements root k st)
             ∧ head (node_stack st) = Some (current_node st)))
    with (k := k) as (st & Hst & [Hok Htr] & Htop); [| |done|by eauto].
  - split_and!; [apply initial_state_stack_ok | apply initial_state_tracks
                 | done].
  - intros i elem st Hi _ ([Hok Htr] & Htop).
    destruct (loop_body_iteration elements root i elem st Hok
                (tr_skipped _ _ _ _ Htr)) as (st' & Hst' & Hit).
    exists st'. split; [done|]. split; [split|].
    + by eapply iteration_stack_ok.
    + by eapply iteration_tracks.
    + by eapply iteration_top.
Qed.

(** X3.  After any number of elements the stack is not empty, its top
    is [current_node], its bottom is the root and all its entries are nodes.
    Whatever heading comes next, the parent selection loop returns without
    raising and leaves a non-empty end part of the stack that still rests on
    the root: the fallback for an emptied stack is never used. *)
Theorem stack_rests_on_root elements root k :
  k ≤ length elements →
  ∃ st, loop_upto elements root k = Returns st
    ∧ head (node_stack st) = Some (current_node st)
    ∧ last (node_stack st) = Some root
    ∧ (∀ n, n ∈ node_stack st → n ∈ dom (nodes (graph st)))
    ∧ ∀ font_size is_underlined,
        ∃ stack,
          while_loop (S (length (node_stack st))) (graph st) root font_size
            is_underlined (node_stack st) = Returns stack
          ∧ stack ≠ []
          ∧ stack `suffix_of` node_stack st
          ∧ last stack = Some root.
Proof.
  intros Hk.
  destruct (loop_upto_top elements root k Hk) as (st & Hst & Hok & Htop).
  exists st. split_and!; try done.
  - apply (ok_bottom _ _ Hok).
  - apply (ok_stack _ _ Hok).
  - intros fs ul. exists (spec_walk (graph st) root fs ul (node_stack st)).
    pose proof (spec_walk_bottom (graph st) root fs ul (node_stack st)
                  (ok_bottom _ _ Hok)) as Hbot.
    split_and!.
    + apply while_loop_spec_walk; [lia|].
      intros n Hn. apply elem_of_dom. by apply (ok_stack _ _ Hok).
    + intros E. by rewrite E in Hbot.
    + apply spec_walk_suffix.
    + done.
Qed.

Lemma stack_rests_on_root_witness :
  ∃ st, loop_upto (tie_break_elements "Title") "doc" 3 = Returns st
    ∧ head (node_stack st) = Some (current_node st)
    ∧ last (node_stack st) = Some "doc"
    ∧ (∀ n, n ∈ node_stack st → n ∈ dom (nodes (graph st)))
    ∧ ∀ font_size is_underlined,
        ∃ stack,
          while_loop (S (length (node_stack st))) (graph st) "doc" font_size
            is_underlined (node_stack st) = Returns stack
          ∧ stack ≠ []
          ∧ stack `suffix_of` node_stack st
          ∧ last stack = Some "doc".
Proof.
  apply (stack_rests_on_root (tie_break_elements "Title") "doc" 3).
  simpl. lia.
Defined.

(** X4.  No text is lost on the way to the graph: an element that is
    not a standalone number and is either not bold, or bold after the first
    bold element without qualifying as a heading, finds [current_node] among
    the nodes and extends its content by a space and its text; nothing else
    changes. *)
Theorem content_is_appended elements root i elem :
  elements !! i = Some elem →
  re_match_numbered_item (Elem.text elem) = false →
  Elem.is_bold elem = false
  ∨ (bold_seen elements i = true ∧ qualifies elements i elem = false) →
  ∃ st st' attrs,
    loop_upto elements root i = Returns st
    ∧ loop_upto elements root (S i) = Returns st'
    ∧ nodes (graph st) !! current_node st = Some attrs
    ∧ nodes (graph st')
      = <[current_node st := append_to attrs (Elem.text elem)]>
          (nodes (graph st))
    ∧ Node.content (append_to attrs (Elem.text elem))
      = Node.content attrs +:+ " " +:+ Elem.text elem
    ∧ edges (graph st') = edges (graph st)
    ∧ current_node st' = current_node st
    ∧ node_stack st' = node_stack st.
Proof.
  intros Hi Hre Hcase.
  destruct (loop_upto_iteration elements root i elem Hi)
    as (st & st' & Hst & Hst' & Hok & Htr & Hit).
  pose proof (ok_current _ _ Hok) as Hcur.
  apply elem_of_dom in Hcur as [attrs Hattrs].
  exists st, st', attrs. split_and!; try done;
    destruct Hit as [Hb Hs|Ht Hn|parent below Hp Hsel Hsuf|Ht Hn Hp];
    try congruence;
    try (destruct Hcase as [?|[? ?]]; congruence);
    try (apply promoted_bold_seen in Hp as (? & ? & ? & ?);
         destruct Hcase as [?|[? ?]]; congruence);
    unfold append_content; rewrite Hattrs; done.
Qed.

Lemma content_is_appended_witness :
  ∃ st st' attrs,
    loop_upto (tie_break_elements "Title") "doc" 2 = Returns st
    ∧ loop_upto (tie_break_elements "Title") "doc" 3 = Returns st'
    ∧ nodes (graph st) !! current_node st = Some attrs
    ∧ nodes (graph st')
      = <[current_node st := append_to attrs "body1"]> (nodes (graph st))
    ∧ Node.content (append_to attrs "body1")
      = Node.content attrs +:+ " " +:+ "body1"
    ∧ edges (graph st') = edges (graph st)
    ∧ current_node st' = current_node st
    ∧ node_stack st' = node_stack st.
Proof.
  apply (content_is_appended (tie_break_elements "Title") "doc" 2
           (element "body1" 10 false false)).
  - reflexivity.
  - vm_compute. reflexivity.
  - left. reflexivity.
Defined.

(** ** Ranks along the edges *)

Lemma spec_walk_stop g root fs ul stack top below :
  spec_walk g root fs ul stack = top :: below →
  top = root
  ∨ nodes g !! top = None
  ∨ ∃ attrs, nodes g !! top = Some attrs
             ∧ ((fs < Node.font_size attrs)%Q
                ∨ ((Node.font_size attrs == fs)%Q
                   ∧ Node.is_underlined attrs = true ∧ ul = false)).
Proof.
  induction stack as [|c s IH]; simpl; [done|].
  destruct (nodes g !! c) as [a|] eqn:Ha.
  - case_bool_decide as Hc.
    + intros [= <- _]. by left.
    + destruct (Node.font_size a ?= fs)%Q eqn:Hcmp.
      * destruct (Node.is_underlined a) eqn:Hu, ul; try exact IH.
        intros [= <- _]. right. right. exists a. split; [done|]. right.
        split_and!; try done. by apply Qeq_alt.
      * exact IH.
      * intros [= <- _]. right. right. exists a. split; [done|]. left.
        by apply Qgt_alt.
  - intros [= <- _]. right. by left.
Qed.

Lemma append_content_rank st text n :
  (λ a, (Node.font_size a, Node.is_underlined a, Node.level a))
    <$> nodes (graph (append_content st text)) !! n
  = (λ a, (Node.font_size a, Node.is_underlined a, Node.level a))
    <$> nodes (graph st) !! n.
Proof.
  unfold append_content.
  destruct (nodes (graph st) !! current_node st) as [a|] eqn:E; [|done].
  simpl. destruct (decide (current_node st = n)) as [<-|Hne].
  - by rewrite lookup_insert_eq, E.
  - by rewrite lookup_insert_ne.
Qed.

Lemma rank_transfer (m m' : gmap string Node.t) n (P : Node.t → Prop) :
  (λ a, (Node.font_size a, Node.is_underlined a, Node.level a)) <$> m' !! n
  = (λ a, (Node.font_size a, Node.is_underlined a, Node.level a)) <$> m !! n →
  (∀ a a', Node.font_size a = Node.font_size a' →
           Node.is_underlined a = Node.is_underlined a' →
           Node.level a = Node.level a' → P a → P a') →
  (∃ a, m !! n = Some a ∧ P a) → ∃ a', m' !! n = Some a' ∧ P a'.
Proof.
  intros E HP (a & Ha & HPa). rewrite Ha in E.
  destruct (m' !! n) as [a'|]; [|done]. simpl in E. injection E as E1 E2 E3.
  exists a'. split; [done|]. by apply (HP a).
Qed.

Lemma cues_transfer (m m' : gmap string Node.t) root E :
  (∀ n, (λ a, (Node.font_size a, Node.is_underlined a, Node.level a))
          <$> m' !! n
        = (λ a, (Node.font_size a, Node.is_underlined a, Node.level a))
          <$> m !! n) →
  edges_ranked {| nodes := m; edges := E |} root
  ∧ root_untouched {| nodes := m; edges := E |} root →
  edges_ranked {| nodes := m'; edges := E |} root
  ∧ root_untouched {| nodes := m'; edges := E |} root.
Proof.
  intros Hsame [Hrank Hroot]. split.
  - intros p c Hpc Hne. destruct (Hrank p c Hpc Hne) as (ap & ac & Hp & Hc & Ho).
    simpl in *. pose proof (Hsame p) as Ep. pose proof (Hsame c) as Ec.
    rewrite Hp in Ep. rewrite Hc in Ec.
    destruct (m' !! p) as [ap'|]; [|done].
    destruct (m' !! c) as [ac'|]; [|done].
    simpl in *. injection Ep as Ep1 Ep2 _. injection Ec as Ec1 Ec2 _.
    exists ap', ac'. split_and!; try done.
    unfold outranks in *. by rewrite Ep1, Ep2, Ec1, Ec2.
  - destruct Hroot as (a & Ha & H1 & H2 & H3). simpl in *.
    pose proof (Hsame root) as Er. rewrite Ha in Er.
    unfold root_untouched. simpl.
    destruct (m' !! root) as [a'|]; [|done]. simpl in Er.
    injection Er as E1 E2 E3. exists a'. split_and!; [done|congruence..].
Qed.

Lemma iteration_ranked elements root i elem st st' :
  iteration elements root i elem st st' →
  (promoted elements i elem = true →
   Elem.text elem ∉ dom (nodes (graph st))) →
  stack_ok root st →
  edges_ranked (graph st) root ∧ root_untouched (graph st) root →
  edges_ranked (graph st') root ∧ root_untouched (graph st') root.
Proof.
  intros Hit Hfresh Hok [Hrank Hroot].
  pose proof Hok as [Hbot Hstack Hcur Hedges].
  destruct Hit as [Hb Hs|Ht Hn|parent below Hp Hsel Hsuf|Ht Hn Hp].
  - done.
  - done.
  - specialize (Hfresh Hp). unfold push_heading.
    remember (Elem.text elem) as t eqn:Et in *. clear Et.
    assert (Hparent : parent ∈ dom (nodes (graph st))).
    { apply Hstack. destruct Hsuf as [above ->]. apply elem_of_app. right.
      by left. }
    assert (Hpt : parent ≠ t) by (by intros ->).
    split.
    + intros p c Hpc Hne. simpl in Hpc. simpl.
      apply elem_of_union in Hpc as [Hpc|Hpc].
      * apply elem_of_singleton in Hpc as [= -> ->].
        rewrite lookup_insert_ne, lookup_insert_eq by done.
        unfold spec_select_parent in Hsel.
        destruct (spec_walk (graph st) root (Elem.font_size elem)
                    (Elem.is_underlined elem) (node_stack st))
          as [|first rest] eqn:Hwalk; [by injection Hsel as <-|].
        injection Hsel as -> _.
        apply spec_walk_stop in Hwalk as [->|[Hnone|(a & Ha & Hstop)]];
          [done| |].
        { apply elem_of_dom in Hparent as [? ?]. congruence. }
        exists a, {| Node.level := length (parent :: below);
                     Node.content := "";
                     Node.font_size := Elem.font_size elem;
                     Node.is_underlined := Elem.is_underlined elem |}.
        split_and!; try done; unfold outranks; simpl; tauto.
      * destruct (Hedges p c Hpc) as [Hpd Hcd].
        assert (p ≠ t) by (intros ->; done).
        assert (c ≠ t) by (intros ->; done).
        rewrite !lookup_insert_ne by done. by apply Hrank.
    + destruct Hroot as (a & Ha & Hr). exists a. simpl.
      rewrite lookup_insert_ne; [done|]. intros <-. apply Hfresh.
      by apply elem_of_dom.
  - pose proof (cues_transfer (nodes (graph st))
                  (nodes (graph (append_content st (Elem.text elem))))
                  root (edges (graph st))) as Htr.
    destruct (append_content_fields st (Elem.text elem)) as (He & _).
    destruct (graph (append_content st (Elem.text elem))) as [m' E'] eqn:Eg.
    simpl in He. subst E'. destruct (graph st) as [m E] eqn:Eg0. simpl in *.
    apply Htr; [|done]. intros n.
    pose proof (append_content_rank st (Elem.text elem) n) as Hn'.
    by rewrite Eg, Eg0 in Hn'.
Qed.

Lemma loop_upto_ranked elements root k :
  NoDup (root :: heading_ids elements) →
  k ≤ length elements →
  ∃ st, loop_upto elements root k = Returns st
        ∧ stack_ok root st ∧ tracks elements root k st
        ∧ edges_ranked (graph st) root ∧ root_untouched (graph st) root.
Proof.
  intros Hnd Hk.
  destruct (loop_upto_ind elements root
    (λ k st, (stack_ok root st ∧ tracks elements root k st)
             ∧ edges_ranked (graph st) root
             ∧ root_untouched (graph st) root))
    with (k := k) as (st & Hst & [Hok Htr] & H1 & H2); [| |done|by eauto 10].
  - split_and!; [apply initial_state_stack_ok | apply initial_state_tracks
                 | |].
    + intros p c Hpc. simpl in Hpc. by apply elem_of_empty in Hpc.
    + eexists. simpl. rewrite lookup_insert_eq. done.
  - intros i elem st Hi _ ([Hok Htr] & H1 & H2).
    destruct (loop_body_iteration elements root i elem st Hok
                (tr_skipped _ _ _ _ Htr)) as (st' & Hst' & Hit).
    exists st'. split; [done|]. split; [split|].
    + by eapply iteration_stack_ok.
    + by eapply iteration_tracks.
    + eapply iteration_ranked; [done| |done|done].
      by eapply heading_fresh.
Qed.

Lemma clean_up_cues g n :
  (λ a, (Node.font_size a, Node.is_underlined a, Node.level a))
    <$> nodes (clean_up g) !! n
  = (λ a, (Node.font_size a, Node.is_underlined a, Node.level a))
    <$> nodes g !! n.
Proof. rewrite clean_up_lookup. by destruct (nodes g !! n). Qed.

(** X5.  When the promoted heading texts are pairwise different and
    different from the root name, the returned graph keeps the root at level
    0 with size 100 and not underlined, and every heading that hangs under
    another heading is outranked by it: the parent is strictly larger, or of
    the same size, underlined, with a child that is not underlined. *)
Theorem parents_outrank_children elements root :
  NoDup (root :: heading_ids elements) →
  ∃ g, build elements root = Returns g
       ∧ root_untouched g root
       ∧ edges_ranked g root.
Proof.
  intros Hnd.
  destruct (loop_upto_ranked elements root (length elements) Hnd)
    as (st & Hst & Hok & Htr & Hrank & Hroot); [done|].
  exists (clean_up (graph st)). split; [by rewrite build_loop_upto, Hst|].
  destruct (graph st) as [m E] eqn:Eg.
  destruct (cues_transfer m (clean <$> m) root E) as [H1 H2]; [|done|done].
  intros n. pose proof (clean_up_cues (graph st) n) as Hn.
  by rewrite Eg in Hn.
Qed.

Lemma parents_outrank_children_witness :
  ∃ g, build (tie_break_elements "Title") "doc" = Returns g
       ∧ root_untouched g "doc"
       ∧ edges_ranked g "doc".
Proof.
  apply parents_outrank_children.
  apply (bool_decide_unpack _). vm_compute. exact I.
Defined.

(** ** Documents without headings *)

Lemma content_texts_upto_S elements k elem :
  elements !! k = Some elem →
  content_texts_upto elements (S k)
  = content_texts_upto elements k
    ++ (if Elem.is_bold elem && negb (bold_seen elements k) then []
        else if re_match_numbered_item (Elem.text elem) then []
        else [Elem.text elem]).
Proof.
  intros Hk. unfold content_texts_upto.
  rewrite seq_S, omap_app. simpl. rewrite Hk. simpl.
  destruct (Elem.is_bold elem && negb (bold_seen elements k)); [done|].
  by destruct (re_match_numbered_item (Elem.text elem)).
Qed.

Lemma no_heading_promoted elements i elem :
  heading_ids elements = [] →
  elements !! i = Some elem → promoted elements i elem = false.
Proof.
  intros Hnone Hi.
  assert (Hpre : heading_ids_upto elements (S i) `prefix_of` heading_ids elements).
  { apply heading_ids_upto_prefix. apply lookup_lt_Some in Hi. lia. }
  rewrite Hnone in Hpre. apply prefix_nil_inv in Hpre.
  rewrite (heading_ids_upto_S _ _ _ Hi) in Hpre.
  destruct (promoted elements i elem); [|done].
  by apply app_eq_nil in Hpre as [_ ?].
Qed.

Lemma no_heading_ledger elements root k :
  heading_ids elements = [] →
  k ≤ length elements →
  ledger_upto elements root k
  = {| active := root;
       assigned := {[ root := content_texts_upto elements k ]} |}.
Proof.
  intros Hnone. induction k as [|k IH]; intros Hk; [done|].
  destruct (lookup_lt_is_Some_2 elements k) as [elem Helem]; [lia|].
  rewrite (ledger_upto_S _ _ _ _ Helem), IH by lia.
  rewrite (content_texts_upto_S _ _ _ Helem). unfold ledger_step.
  rewrite (no_heading_promoted _ _ _ Hnone Helem).
  destruct (Elem.is_bold elem && negb (bold_seen elements k));
    [by rewrite app_nil_r|].
  destruct (re_match_numbered_item (Elem.text elem)); [by rewrite app_nil_r|].
  simpl. by rewrite alter_singleton_eq.
Qed.

(** X6.  When no element is promoted to a heading, for instance when
    nothing is bold, the builder returns the root alone, without edges, at
    level 0 with size 100, and its content is the trimmed accumulation of
    the texts of all elements other than the first bold one and the
    standalone numbers, or the placeholder. *)
Theorem no_heading_single_root elements root :
  heading_ids elements = [] →
  build elements root
  = Returns {| nodes := {[ root := {| Node.level := 0;
                                      Node.content :=
                                        final_content (content_texts elements);
                                      Node.font_size := 100;
                                      Node.is_underlined := false |} ]};
               edges := ∅ |}.
Proof.
  intros Hnone.
  assert (Hnd : NoDup (root :: heading_ids elements)).
  { rewrite Hnone. apply NoDup_singleton. }
  destruct (loop_upto_ranked elements root (length elements) Hnd)
    as (st & Hst & Hok & Htr & _ & Hroot); [done|].
  destruct (loop_upto_edges elements root (length elements))
    as (st1 & Hst1 & _ & _ & Htarget & _); [done|].
  rewrite Hst in Hst1. apply Returns_inj in Hst1 as <-.
  destruct (loop_upto_agrees elements root (length elements))
    as (st2 & Hst2 & _ & Hag); [done|].
  rewrite Hst in Hst2. apply Returns_inj in Hst2 as <-.
  rewrite build_loop_upto, Hst. simpl. f_equal.
  destruct (graph st) as [m E] eqn:Eg. unfold clean_up. simpl in *. f_equal.
  - apply map_eq. intros n. rewrite lookup_fmap.
    destruct (decide (n = root)) as [->|Hne].
    + rewrite lookup_singleton_eq.
      destruct Hroot as (a & Ha & H1 & H2 & H3). simpl in Ha.
      specialize (Hag root). rewrite Ha in Hag.
      rewrite (no_heading_ledger _ _ _ Hnone) in Hag by done.
      simpl in Hag. rewrite lookup_singleton_eq in Hag. simpl in Hag.
      injection Hag as Hag. rewrite Ha. simpl. f_equal.
      destruct a as [lv ct fs ul]. simpl in *. subst.
      unfold clean. simpl. done.
    + rewrite lookup_singleton_ne by done.
      pose proof (tr_dom _ _ _ _ Htr) as Hdom. rewrite Eg in Hdom.
      simpl in Hdom. unfold heading_ids in Hnone. rewrite Hnone in Hdom.
      assert (Hn : n ∉ dom m).
      { rewrite Hdom. simpl. rewrite (right_id_L ∅ (∪)).
        by intros ?%elem_of_singleton. }
      apply not_elem_of_dom in Hn. by rewrite Hn.
  - apply elem_of_equiv_empty_L. intros [p c] Hpc.
    apply Htarget in Hpc. unfold heading_ids in Hnone.
    rewrite Hnone in Hpc. by apply elem_of_nil in Hpc.
Qed.

Lemma no_heading_single_root_witness :
  build plain_elements "doc"
  = Returns {| nodes := {[ "doc" := {| Node.level := 0;
                                       Node.content :=
                                         final_content
                                           (content_texts plain_elements);
                                       Node.font_size := 100;
                                       Node.is_underlined := false |} ]};
               edges := ∅ |}.
Proof.
  apply (no_heading_single_root plain_elements "doc").
  vm_compute. reflexivity.
Defined.

(** ** The clean-up, twice *)

Lemma clean_idem attrs : clean (clean attrs) = clean attrs.
Proof.
  destruct attrs as [lv ct fs ul]. unfold clean. simpl. f_equal.
  change (final_content_of (final_content_of ct) = final_content_of ct).
  unfold final_content_of at 1. rewrite final_content_of_trimmed.
  rewrite bool_decide_eq_false_2; [done|]. apply final_content_of_nonempty.
Qed.

(** X8.  Cleaning a graph that has been cleaned changes nothing: a
    trimmed content stays as it is and the placeholder stays the
    placeholder. *)
Theorem clean_up_twice g : clean_up (clean_up g) = clean_up g.
Proof.
  unfold clean_up. simpl. f_equal. apply map_eq. intros n.
  rewrite !lookup_fmap. destruct (nodes g !! n) as [a|]; [|done].
  simpl. by rewrite clean_idem.
Qed.

(** ** What the builder reads of an element *)

Lemma same_cues_regular elements elements' :
  Forall2 same_cues elements elements' →
  regular_font_size elements = regular_font_size elements'.
Proof.
  unfold regular_font_size. intros H.
  assert (E : first_regular elements = first_regular elements');
    [|by rewrite E].
  induction H as [|e e' l l' (_ & Hfs & Hb & _) _ IH]; simpl; [done|].
  rewrite <- Hb, <- Hfs. by destruct (Elem.is_bold e).
Qed.

Lemma same_cues_lookahead elements elements' i :
  Forall2 same_cues elements elements' →
  next_starts_with_colon elements i = next_starts_with_colon elements' i.
Proof.
  intros H. unfold next_starts_with_colon.
  rewrite <- (Forall2_length _ _ _ H).
  case_bool_decide; [|done].
  destruct (elements !! (i + 1)) as [e|] eqn:He.
  - destruct (Forall2_lookup_l _ _ _ _ _ H He) as (e' & He' & Ht & _ & Hb & _).
    by rewrite He', <- Hb, <- Ht.
  - apply lookup_ge_None in He.
    rewrite (Forall2_length _ _ _ H) in He.
    apply lookup_ge_None in He. by rewrite He.
Qed.

Lemma same_cues_loop_body elements elements' root st i e e' :
  Forall2 same_cues elements elements' →
  same_cues e e' →
  loop_body elements root (regular_font_size elements) st i e
  = loop_body elements' root (regular_font_size elements') st i e'.
Proof.
  intros H (Ht & Hfs & Hb & Hu). unfold loop_body.
  rewrite <- (same_cues_regular _ _ H), <- (same_cues_lookahead _ _ i H).
  rewrite <- Ht, <- Hfs, <- Hb.
  destruct (Elem.is_bold e && negb (first_bold_skipped st)); [done|].
  destruct (re_match_numbered_item (Elem.text e)); [done|].
  destruct (Elem.is_bold e); [|done].
  destruct (_ || _ || _); [|done].
  unfold insert_heading, push_heading. by rewrite <- Ht, <- Hfs, <- Hu.
Qed.

(** X7.  The builder reads the text, the size, the bold flag and the
    underline flag of the elements and nothing else: two sequences that agree
    on these four give the same result, whatever fonts and pages they name.
    In particular the look-ahead for a leading colon does not notice a page
    break. *)
Theorem build_reads_four_cues elements elements' root :
  Forall2 same_cues elements elements' →
  build elements root = build elements' root.
Proof.
  intros H. unfold build, build_knowledge_graph.
  assert (Hloop : ∀ rest rest' i st,
    Forall2 same_cues rest rest' →
    for_loop (loop_body elements root (regular_font_size elements)) i rest st
    = for_loop (loop_body elements' root (regular_font_size elements')) i
        rest' st).
  { intros rest rest' i st Hrest. revert i st.
    induction Hrest as [|e e' l l' He _ IH]; intros i st; simpl; [done|].
    rewrite (same_cues_loop_body _ _ _ _ _ _ _ H He).
    destruct (loop_body elements' root _ st i e') as [st'| | |]; try done.
    simpl. apply IH. }
  by rewrite (Hloop _ _ 0 _ H).
Qed.

Lemma build_reads_four_cues_witness :
  build (tie_break_elements "Title") "doc"
  = build tie_break_elements_repaged "doc".
Proof.
  apply (build_reads_four_cues (tie_break_elements "Title")
           tie_break_elements_repaged "doc").
  repeat constructor.
Defined.

(** ** The classifier feeds the builder *)

(** X14.  On an element that the classifier emitted, the numbering pattern
    of the builder matches exactly when the text is one or more digits
    followed by a period and nothing else: the whitespace that the pattern
    allows after the period has been trimmed away. *)
Theorem extracted_numbered_item height doc e :
  e ∈ extract_structured_text height doc →
  (re_match_numbered_item (Elem.text e) = true
   ↔ ∃ ds, ds ≠ [] ∧ Forall (λ c, is_digit c = true) ds
           ∧ chars (Elem.text e) = ds ++ ["."%char]).
Proof.
  unfold extract_structured_text.
  intros (j & page & _ & He)%classify_pages_elem.
  apply classify_page_elem in He as (? & ? & line & _ & _ & _ & Hc).
  apply classify_line_Some in Hc as (Ht & _).
  rewrite re_match_numbered_item_shape. apply numbered_shape_trimmed.
  rewrite Ht. apply strip_idem.
Qed.

Lemma extracted_numbered_item_witness :
  re_match_numbered_item (Elem.text sample_number) = true
  ↔ ∃ ds, ds ≠ [] ∧ Forall (λ c, is_digit c = true) ds
          ∧ chars (Elem.text sample_number) = ds ++ ["."%char].
Proof.
  apply (extracted_numbered_item fitz_height sample_doc sample_number).
  apply list_elem_of_In. vm_compute. right. left. reflexivity.
Defined.

(** ** The renderer *)

Lemma chars_length s : length (chars s) = String.length s.
Proof. induction s as [|c s IH]; simpl; [done|]. by rewrite IH. Qed.

Lemma chars_substring_0 n : ∀ s,
  chars (String.substring 0 n s) = take n (chars s).
Proof.
  induction n as [|n IH]; intros [|c s]; simpl; try done.
  by rewrite IH.
Qed.

(** X15.  The label of a rendered node is never longer than 33
    characters: an identifier of at most 30 characters is shown as it is, a
    longer one is cut to its first 30 characters followed by three dots. *)
Theorem label_is_short node attrs :
  String.length (VisNode.label (style_node node attrs)) ≤ 33
  ∧ (String.length node ≤ 30 → VisNode.label (style_node node attrs) = node)
  ∧ (30 < String.length node →
     ∃ rest,
       chars node = take 30 (chars node) ++ rest
       ∧ chars (VisNode.label (style_node node attrs))
         = take 30 (chars node) ++ chars "..."
       ∧ String.length (VisNode.label (style_node node attrs)) = 33).
Proof.
  unfold style_node. simpl.
  destruct (String.length node <=? 30) eqn:Hlen.
  - apply Nat.leb_le in Hlen. split_and!; [lia|done|lia].
  - apply Nat.leb_gt in Hlen.
    assert (Hlabel : chars (String.substring 0 30 node +:+ "...")
                     = take 30 (chars node) ++ chars "...").
    { by rewrite chars_app, chars_substring_0. }
    assert (Hl : String.length (String.substring 0 30 node +:+ "...") = 33).
    { rewrite <- chars_length, Hlabel, length_app, length_take, chars_length.
      change (length (chars "...")) with 3. lia. }
    split_and!; [lia|lia|].
    intros _. exists (drop 30 (chars node)).
    split_and!; [by rewrite take_drop|done|done].
Qed.

Lemma label_is_short_witness :
  VisNode.label
    (style_node "Section A:"
       {| Node.level := 1; Node.content := "body1"; Node.font_size := 12;
          Node.is_underlined := true |})
  = "Section A:".
Proof.
  apply (proj1 (proj2 (label_is_short "Section A:"
                         {| Node.level := 1; Node.content := "body1";
                            Node.font_size := 12;
                            Node.is_underlined := true |}))).
  simpl. lia.
Defined.

(** X16.  In the rendering of a graph that the builder returned, the
    hover title of every node is its identifier, an empty line and its
    content: the content is never empty, so the title is never the bare
    identifier. *)
Theorem title_shows_content elements root :
  ∃ g, build elements root = Returns g
       ∧ ∀ node attrs, nodes g !! node = Some attrs →
           Node.content attrs ≠ ""
           ∧ VisNode.title (style_node node attrs)
             = node +:+ blank_line +:+ Node.content attrs.
Proof.
  destruct (build_returns elements root) as (st & _ & Hb & _).
  exists (clean_up (graph st)). split; [done|].
  intros node attrs Hn. rewrite clean_up_lookup in Hn.
  destruct (nodes (graph st) !! node) as [a|]; [|done].
  injection Hn as <-.
  assert (Hne : Node.content (clean a) ≠ "").
  { rewrite clean_content. apply final_content_of_nonempty. }
  split; [done|]. unfold style_node. cbn [VisNode.title].
  by rewrite bool_decide_eq_false_2.
Qed.

Lemma title_shows_content_witness :
  ∃ g, build (tie_break_elements "Title") "doc" = Returns g
       ∧ ∀ node attrs, nodes g !! node = Some attrs →
           Node.content attrs ≠ ""
           ∧ VisNode.title (style_node node attrs)
             = node +:+ blank_line +:+ Node.content attrs.
Proof. apply (title_shows_content (tie_break_elements "Title") "doc"). Defined.

(** ** The serializer *)

Lemma node_entries_returns g node_order :
  (∀ n, n ∈ node_order → n ∈ dom (nodes g)) →
  ∃ entries,
    node_entries g node_order = Returns entries
    ∧ JsonNode.id <$> entries = node_order
    ∧ ∀ entry, entry ∈ entries →
        nodes g !! JsonNode.id entry
        = Some {| Node.level := JsonNode.level entry;
                  Node.content := JsonNode.content entry;
                  Node.font_size := JsonNode.font_size entry;
                  Node.is_underlined := JsonNode.is_underlined entry |}.
Proof.
  induction node_order as [|n order IH]; intros Hdom; simpl.
  - exists []. split_and!; try done. by intros ? ?%elem_of_nil.
  - destruct IH as (entries & He & Hids & Hall).
    { intros m Hm. apply Hdom. by right. }
    assert (Hn : n ∈ dom (nodes g)) by (apply Hdom; by left).
    apply elem_of_dom in Hn as [a Ha].
    rewrite Ha, He. simpl. eexists. split; [done|]. split.
    + rewrite fmap_cons. cbn [JsonNode.id]. by rewrite Hids.
    + intros entry [->|Hin]%elem_of_cons; [|by apply Hall].
      simpl. rewrite Ha. by destruct a.
Qed.

(** X17.  The dictionary that is written out holds the whole graph: when
    the nodes and the edges are enumerated once each, the serializer raises
    nothing, emits one node entry per node, in the order of enumeration, and
    the graph can be rebuilt from the entries, attributes and edges
    included. *)
Theorem graph_data_is_lossless g node_order edge_order :
  NoDup node_order →
  (∀ n, n ∈ node_order ↔ n ∈ dom (nodes g)) →
  (∀ e, e ∈ edge_order ↔ e ∈ edges g) →
  ∃ d, graph_data g node_order edge_order = Returns d
       ∧ JsonNode.id <$> data_nodes d = node_order
       ∧ length (data_edges d) = length edge_order
       ∧ read_graph_data d = g.
Proof.
  intros Hnd Hnodes Hedges.
  destruct (node_entries_returns g node_order) as (entries & He & Hids & Hall).
  { intros n. apply Hnodes. }
  unfold graph_data. rewrite He. eexists. split; [reflexivity|].
  cbn [data_nodes data_edges].
  split_and!; [done|by rewrite length_fmap|].
  unfold read_graph_data. cbn [data_nodes data_edges].
  destruct g as [m E]. cbn [nodes edges] in *. f_equal.
  - set (pair_of := λ n : JsonNode.t,
           (JsonNode.id n,
            {| Node.level := JsonNode.level n;
               Node.content := JsonNode.content n;
               Node.font_size := JsonNode.font_size n;
               Node.is_underlined := JsonNode.is_underlined n |})).
    assert (Hfst : (pair_of <$> entries).*1 = node_order).
    { rewrite <- list_fmap_compose. exact Hids. }
    apply map_eq. intros n. destruct (m !! n) as [a|] eqn:Ha.
    + apply elem_of_list_to_map_1; [by rewrite Hfst|].
      assert (Hn : n ∈ JsonNode.id <$> entries).
      { rewrite Hids. apply Hnodes. by apply elem_of_dom. }
      apply list_elem_of_fmap in Hn as (entry & -> & Hin).
      apply list_elem_of_fmap. exists entry. split; [|done].
      unfold pair_of. f_equal. specialize (Hall entry Hin). congruence.
    + apply not_elem_of_list_to_map_1. rewrite Hfst.
      intros Hn%Hnodes. by apply not_elem_of_dom in Ha.
  - rewrite <- list_fmap_compose. apply set_eq. intros [p c].
    rewrite elem_of_list_to_set, <- Hedges, list_elem_of_fmap. split.
    + by intros ([p' c'] & [= -> ->] & Hin).
    + intros Hin. by exists (p, c).
Qed.

Lemma graph_data_is_lossless_witness :
  ∃ d, graph_data (graph before_section_b) ["doc"; "Section A:"]
         [("doc", "Section A:")] = Returns d
       ∧ JsonNode.id <$> data_nodes d = ["doc"; "Section A:"]
       ∧ length (data_edges d) = length [("doc", "Section A:")]
       ∧ read_graph_data d = graph before_section_b.
Proof.
  apply (graph_data_is_lossless (graph before_section_b)
           ["doc"; "Section A:"] [("doc", "Section A:")]).
  - apply (bool_decide_unpack _). vm_compute. exact I.
  - intros n. simpl. rewrite !dom_insert_L, dom_empty_L.
    rewrite !elem_of_cons, elem_of_nil, !elem_of_union, !elem_of_singleton,
      elem_of_empty. tauto.
  - intros e. simpl.
    rewrite elem_of_cons, elem_of_nil, elem_of_singleton. tauto.
Defined.
